(** * md2word: the DOCX package builder (internal/docx) and the inline walker
    of the converter, embedded in Rocq.

    Go strings are byte sequences: they are modelled by [string] (a list of
    [ascii], one per byte).  Go [int] / [int64] fields that are only stored,
    compared with zero and printed are modelled by [Z]; the one counter that
    is incremented ([imageCount]) carries its 64-bit wrap-around.  A Go
    [float64] point size is modelled by a rational [Q] (every finite float64
    is a rational, and doubling is exact in binary floating point).

    XML templates hold many double-quote characters.  They are written here
    with an apostrophe in place of each double quote and passed through
    [xml], which puts the double quotes back; the Go templates of
    internal/docx hold no apostrophe. *)

From Stdlib Require Import ZArith QArith Lia Ascii.
From stdpp Require Import base strings list gmap fin_maps pretty.

Local Open Scope Z_scope.

(* ===================================================================== *)
(** ** Bytes and the Go [strings] helpers used by the package            *)
(* ===================================================================== *)

Definition byteZ (c : ascii) : Z := Z.of_N (N_of_ascii c).

Definition dquote : ascii := "034"%char.
Definition apostrophe : ascii := "039"%char.
Definition newline : ascii := "010"%char.

(** Template helper: every apostrophe becomes a double quote. *)
Fixpoint xml (s : string) : string :=
  match s with
  | EmptyString => EmptyString
  | String c s' =>
      String (if Ascii.eqb c apostrophe then dquote else c) (xml s')
  end.

(** [len(s)] *)
Definition len (s : string) : nat := String.length s.

(** [s[n:]] and [s[:n]] on byte strings. *)
Fixpoint sdrop (n : nat) (s : string) : string :=
  match n, s with
  | O, _ => s
  | S _, EmptyString => EmptyString
  | S n', String _ s' => sdrop n' s'
  end.

Fixpoint stake (n : nat) (s : string) : string :=
  match n, s with
  | O, _ => EmptyString
  | S _, EmptyString => EmptyString
  | S n', String c s' => String c (stake n' s')
  end.

(** [strings.HasPrefix(s, prefix)] *)
Fixpoint HasPrefix (s prefix : string) {struct prefix} : bool :=
  match prefix, s with
  | EmptyString, _ => true
  | String _ _, EmptyString => false
  | String a p', String b s' => Ascii.eqb a b && HasPrefix s' p'
  end.

(** [strings.HasSuffix(s, suffix)]:
    [len(s) >= len(suffix) && s[len(s)-len(suffix):] == suffix] *)
Definition HasSuffix (s suffix : string) : bool :=
  (len suffix <=? len s)%nat &&
  String.eqb (sdrop (len s - len suffix) s) suffix.

(** [strings.Contains(s, substr)] *)
Fixpoint Contains (s substr : string) : bool :=
  HasPrefix s substr ||
  match s with
  | EmptyString => false
  | String _ s' => Contains s' substr
  end.

(** [strings.TrimPrefix(s, prefix)] *)
Definition TrimPrefix (s prefix : string) : string :=
  if HasPrefix s prefix then sdrop (len prefix) s else s.

(** [strings.Split(s, sep)] for a one-byte separator, the only way the
    package calls it ([strings.Split(escapedText, "\n")]).  The result is
    never empty: a string without the separator gives the one-element list. *)
Fixpoint splitOn (sep : ascii) (s : string) : list string :=
  match s with
  | EmptyString => [EmptyString]
  | String c s' =>
      if Ascii.eqb c sep then EmptyString :: splitOn sep s'
      else match splitOn sep s' with
           | l :: ls => String c l :: ls
           | [] => [String c EmptyString]
           end
  end.

Definition Split_newline (s : string) : list string := splitOn newline s.

(** [fmt.Sprintf("%d", n)] *)
Definition fmt_d (n : Z) : string := pretty n.

(** Concatenation of a list of strings ([bytes.Buffer] written in order). *)
Fixpoint sconcat (l : list string) : string :=
  match l with
  | [] => EmptyString
  | s :: l' => s +:+ sconcat l'
  end.

(* ===================================================================== *)
(** ** Machine integers and point sizes                                   *)
(* ===================================================================== *)

(** Go [int] on a 64-bit target: two's-complement wrap-around. *)
Definition int_wrap (z : Z) : Z := (z + 2 ^ 63) mod 2 ^ 64 - 2 ^ 63.

Definition float64 : Type := Q.

(** [x > 0] on a point size. *)
Definition float_gt0 (x : float64) : bool := negb (Qle_bool x 0).

(** [int(x * 2)]: the half-point value, truncated towards zero. *)
Definition halfPoints (x : float64) : Z :=
  let y := (x * 2)%Q in Z.quot (Qnum y) (Z.pos (Qden y)).

(* ===================================================================== *)
(** ** [unicode/utf8.DecodeRune] and [encoding/xml.EscapeText]

    [XMLEscape] (package docx) delegates to the Go standard library; the two
    library functions it runs are transcribed here from the Go sources. *)
(* ===================================================================== *)

Definition RuneError : Z := 0xFFFD.

(** The table [first]: information about the first byte of an encoding.
    [0xF0] = ASCII, [0xF1] = illegal, otherwise size in the low bits and the
    index of the accept range of the second byte in the high bits. *)
Definition first (p0 : Z) : Z :=
  if p0 <? 0x80 then 0xF0
  else if p0 <? 0xC2 then 0xF1
  else if p0 <? 0xE0 then 0x02
  else if p0 =? 0xE0 then 0x13
  else if p0 <? 0xED then 0x03
  else if p0 =? 0xED then 0x23
  else if p0 <? 0xF0 then 0x03
  else if p0 =? 0xF0 then 0x34
  else if p0 <? 0xF4 then 0x04
  else if p0 =? 0xF4 then 0x44
  else 0xF1.

Definition locb : Z := 0x80.
Definition hicb : Z := 0xBF.

(** [acceptRanges]: sixteen entries, those past the fifth are zero. *)
Definition acceptRanges (i : Z) : Z * Z :=
  if i =? 0 then (locb, hicb)
  else if i =? 1 then (0xA0, hicb)
  else if i =? 2 then (locb, 0x9F)
  else if i =? 3 then (0x90, hicb)
  else if i =? 4 then (locb, 0x8F)
  else (0, 0).

(** [p[i]]; every use below is guarded by the length test of [DecodeRune]. *)
Definition byteAt (p : string) (i : nat) : Z :=
  match String.get i p with
  | Some c => byteZ c
  | None => 0
  end.

(** [utf8.DecodeRune(p)]: the rune and its width in bytes. *)
Definition DecodeRune (p : string) : Z * nat :=
  match p with
  | EmptyString => (RuneError, 0%nat)
  | String c0 _ =>
      let p0 := byteZ c0 in
      let x := first p0 in
      if 0xF0 <=? x then
        ((if Z.testbit x 0 then RuneError else p0), 1%nat)
      else
        let sz := Z.land x 7 in
        let '(lo, hi) := acceptRanges (Z.shiftr x 4) in
        if Z.of_nat (len p) <? sz then (RuneError, 1%nat)
        else
          let b1 := byteAt p 1 in
          if (b1 <? lo) || (hi <? b1) then (RuneError, 1%nat)
          else if sz <=? 2 then
            (Z.lor (Z.shiftl (Z.land p0 0x1F) 6) (Z.land b1 0x3F), 2%nat)
          else
            let b2 := byteAt p 2 in
            if (b2 <? locb) || (hicb <? b2) then (RuneError, 1%nat)
            else if sz <=? 3 then
              (Z.lor (Z.lor (Z.shiftl (Z.land p0 0x0F) 12)
                            (Z.shiftl (Z.land b1 0x3F) 6))
                     (Z.land b2 0x3F), 3%nat)
            else
              let b3 := byteAt p 3 in
              if (b3 <? locb) || (hicb <? b3) then (RuneError, 1%nat)
              else
                (Z.lor (Z.lor (Z.lor (Z.shiftl (Z.land p0 0x07) 18)
                                     (Z.shiftl (Z.land b1 0x3F) 12))
                              (Z.shiftl (Z.land b2 0x3F) 6))
                       (Z.land b3 0x3F), 4%nat)
  end.

(** [xml.isInCharacterRange] *)
Definition isInCharacterRange (r : Z) : bool :=
  (r =? 0x09) || (r =? 0x0A) || (r =? 0x0D) ||
  ((0x20 <=? r) && (r <=? 0xD7FF)) ||
  ((0xE000 <=? r) && (r <=? 0xFFFD)) ||
  ((0x10000 <=? r) && (r <=? 0x10FFFF)).

Definition escQuot : string := "&#34;".
Definition escApos : string := "&#39;".
Definition escAmp : string := "&amp;".
Definition escLT : string := "&lt;".
Definition escGT : string := "&gt;".
Definition escTab : string := "&#x9;".
Definition escNL : string := "&#xA;".
Definition escCR : string := "&#xD;".
(** U+FFFD in UTF-8 *)
Definition escFFFD : string :=
  String "239"%char (String "191"%char (String "189"%char EmptyString)).

(** The [switch r] of [escapeText]: the replacement of one rune, or [None]
    when the rune is copied unchanged. *)
Definition escapeOf (escapeNewline : bool) (r : Z) (width : nat)
  : option string :=
  if r =? 34 then Some escQuot
  else if r =? 39 then Some escApos
  else if r =? 38 then Some escAmp
  else if r =? 60 then Some escLT
  else if r =? 62 then Some escGT
  else if r =? 9 then Some escTab
  else if r =? 10 then (if escapeNewline then Some escNL else None)
  else if r =? 13 then Some escCR
  else if negb (isInCharacterRange r) || ((r =? 0xFFFD) && (width =? 1)%nat)
       then Some escFFFD
  else None.

(** What one round of the loop of [escapeText] appends for the rune at the
    head of [s]. *)
Definition escapeChunk (escapeNewline : bool) (s : string) : string :=
  let '(r, width) := DecodeRune s in
  match escapeOf escapeNewline r width with
  | Some esc => esc
  | None => stake width s
  end.

(** [xml.escapeText]: one rune per round; the fuel is the number of bytes,
    and every round consumes at least one. *)
Fixpoint escapeText_go (fuel : nat) (escapeNewline : bool) (s : string)
  : string :=
  match fuel with
  | O => EmptyString
  | S fuel' =>
      match s with
      | EmptyString => EmptyString
      | String _ _ =>
          escapeChunk escapeNewline s +:+
          escapeText_go fuel' escapeNewline (sdrop (snd (DecodeRune s)) s)
      end
  end.

(** [xml.EscapeText(w, s)] is [escapeText(w, s, true)]: a newline is
    written as the reference [&#xA;] like a tab or a carriage return. *)
Definition EscapeText (s : string) : string := escapeText_go (len s) true s.

(** [XMLEscape]; writing to a [bytes.Buffer] cannot fail. *)
Definition XMLEscape (s : string) : string := EscapeText s.


(* ===================================================================== *)
(** ** Block model: Run, Hyperlink, Paragraph (paragraph.go)              *)
(* ===================================================================== *)

Definition nonEmpty (s : string) : bool := negb (String.eqb s EmptyString).

Module Run.
Record t := mk {
  Text : string;
  Bold : bool;
  Italic : bool;
  Underline : bool;
  Strike : bool;
  FontName : string;
  FontSize : float64;
  Color : string;
  Highlight : string;
  IsCode : bool;
  IsImage : bool;
  ImageRelID : string;
  ImageWidth : Z;
  ImageHeight : Z
}.

(** The Go zero value [Run{}]. *)
Definition zero : t :=
  mk EmptyString false false false false EmptyString 0%Q EmptyString
     EmptyString false false EmptyString 0 0.

(** Field writes through a [*Run]. *)
Definition setBold (b : bool) (r : t) : t :=
  mk (Text r) b (Italic r) (Underline r) (Strike r) (FontName r)
     (FontSize r) (Color r) (Highlight r) (IsCode r) (IsImage r)
     (ImageRelID r) (ImageWidth r) (ImageHeight r).
Definition setItalic (b : bool) (r : t) : t :=
  mk (Text r) (Bold r) b (Underline r) (Strike r) (FontName r)
     (FontSize r) (Color r) (Highlight r) (IsCode r) (IsImage r)
     (ImageRelID r) (ImageWidth r) (ImageHeight r).
Definition setUnderline (b : bool) (r : t) : t :=
  mk (Text r) (Bold r) (Italic r) b (Strike r) (FontName r)
     (FontSize r) (Color r) (Highlight r) (IsCode r) (IsImage r)
     (ImageRelID r) (ImageWidth r) (ImageHeight r).
Definition setFontName (s : string) (r : t) : t :=
  mk (Text r) (Bold r) (Italic r) (Underline r) (Strike r) s
     (FontSize r) (Color r) (Highlight r) (IsCode r) (IsImage r)
     (ImageRelID r) (ImageWidth r) (ImageHeight r).
Definition setFontSize (x : float64) (r : t) : t :=
  mk (Text r) (Bold r) (Italic r) (Underline r) (Strike r) (FontName r)
     x (Color r) (Highlight r) (IsCode r) (IsImage r)
     (ImageRelID r) (ImageWidth r) (ImageHeight r).
Definition setColor (s : string) (r : t) : t :=
  mk (Text r) (Bold r) (Italic r) (Underline r) (Strike r) (FontName r)
     (FontSize r) s (Highlight r) (IsCode r) (IsImage r)
     (ImageRelID r) (ImageWidth r) (ImageHeight r).
Definition setIsCode (b : bool) (r : t) : t :=
  mk (Text r) (Bold r) (Italic r) (Underline r) (Strike r) (FontName r)
     (FontSize r) (Color r) (Highlight r) b (IsImage r)
     (ImageRelID r) (ImageWidth r) (ImageHeight r).
End Run.

(** *** [Run.ToXML] *)

Definition runOpen : string := "
            <w:r>".

Definition runClose : string := "
            </w:r>".

Definition rPrOpen : string := "
                <w:rPr>".

Definition rPrClose : string := "
                </w:rPr>".

Definition rFontsXML (font : string) : string :=
  xml "
                    <w:rFonts w:ascii='" +:+ font +:+
  xml "' w:eastAsia='" +:+ font +:+
  xml "' w:hAnsi='" +:+ font +:+ xml "'/>".

Definition szXML (sz : Z) : string :=
  xml "
                    <w:sz w:val='" +:+ fmt_d sz +:+ xml "'/>
                    <w:szCs w:val='" +:+ fmt_d sz +:+ xml "'/>".

Definition boldXML : string := "
                    <w:b/>".

Definition italicXML : string := "
                    <w:i/>".

Definition underlineXML : string := xml "
                    <w:u w:val='single'/>".

Definition strikeXML : string := "
                    <w:strike/>".

Definition colorXML (color : string) : string :=
  xml "
                    <w:color w:val='" +:+ color +:+ xml "'/>".

Definition codeXML : string := xml "
                    <w:rFonts w:ascii='Consolas' w:hAnsi='Consolas'/>
                    <w:shd w:val='clear' w:color='auto' w:fill='E8E8E8'/>".

(** The run-properties block, empty when no attribute is set. *)
Definition Run_rPr (r : Run.t) : string :=
  if Run.Bold r || Run.Italic r || Run.Underline r || Run.Strike r ||
     nonEmpty (Run.FontName r) || float_gt0 (Run.FontSize r) ||
     nonEmpty (Run.Color r) || Run.IsCode r
  then
    rPrOpen +:+
    (if nonEmpty (Run.FontName r) then rFontsXML (Run.FontName r)
     else EmptyString) +:+
    (if float_gt0 (Run.FontSize r) then szXML (halfPoints (Run.FontSize r))
     else EmptyString) +:+
    (if Run.Bold r then boldXML else EmptyString) +:+
    (if Run.Italic r then italicXML else EmptyString) +:+
    (if Run.Underline r then underlineXML else EmptyString) +:+
    (if Run.Strike r then strikeXML else EmptyString) +:+
    (if nonEmpty (Run.Color r) then colorXML (TrimPrefix (Run.Color r) "#")
     else EmptyString) +:+
    (if Run.IsCode r then codeXML else EmptyString) +:+
    rPrClose
  else EmptyString.

Definition drawingXML (width height : Z) (relID : string) : string :=
  xml "
                <w:drawing>
                    <wp:inline distT='0' distB='0' distL='0' distR='0'>
                        <wp:extent cx='" +:+ fmt_d width +:+ xml "' cy='" +:+
  fmt_d height +:+ xml "'/>
                        <wp:effectExtent l='0' t='0' r='0' b='0'/>
                        <wp:docPr id='1' name='Picture'/>
                        <wp:cNvGraphicFramePr>
                            <a:graphicFrameLocks xmlns:a='http://schemas.openxmlformats.org/drawingml/2006/main' noChangeAspect='1'/>
                        </wp:cNvGraphicFramePr>
                        <a:graphic xmlns:a='http://schemas.openxmlformats.org/drawingml/2006/main'>
                            <a:graphicData uri='http://schemas.openxmlformats.org/drawingml/2006/picture'>
                                <pic:pic xmlns:pic='http://schemas.openxmlformats.org/drawingml/2006/picture'>
                                    <pic:nvPicPr>
                                        <pic:cNvPr id='0' name='Picture'/>
                                        <pic:cNvPicPr/>
                                    </pic:nvPicPr>
                                    <pic:blipFill>
                                        <a:blip r:embed='" +:+ relID +:+ xml "'/>
                                        <a:stretch>
                                            <a:fillRect/>
                                        </a:stretch>
                                    </pic:blipFill>
                                    <pic:spPr>
                                        <a:xfrm>
                                            <a:off x='0' y='0'/>
                                            <a:ext cx='" +:+ fmt_d width +:+ xml "' cy='" +:+
  fmt_d height +:+ xml "'/>
                                        </a:xfrm>
                                        <a:prstGeom prst='rect'>
                                            <a:avLst/>
                                        </a:prstGeom>
                                    </pic:spPr>
                                </pic:pic>
                            </a:graphicData>
                        </a:graphic>
                    </wp:inline>
                </w:drawing>".

Definition brXML : string := "
                <w:br/>".

Definition tOpen : string := "
                <w:t>".

Definition tOpenPreserve : string := xml "
                <w:t xml:space='preserve'>".

Definition tClose : string := "</w:t>".

(** The test that decides the preserve-whitespace marker of one line. *)
Definition needsPreserve (line : string) : bool :=
  HasPrefix line " " || HasSuffix line " " || Contains line "  ".

(** One [<w:t>] element. *)
Definition textElement (line : string) : string :=
  if needsPreserve line then tOpenPreserve +:+ line +:+ tClose
  else tOpen +:+ line +:+ tClose.

(** [for i, line := range lines]: a line break before every line but the
    first, then the text element of the line. *)
Fixpoint textLines (i : nat) (lines : list string) : string :=
  match lines with
  | [] => EmptyString
  | line :: rest =>
      (if (0 <? i)%nat then brXML else EmptyString) +:+
      textElement line +:+ textLines (S i) rest
  end.

(** The content of a run: the drawing of an image run, else the text
    elements of a non-empty text, else nothing.  The text is escaped
    first and the escaped text is what is split at newlines. *)
Definition Run_content (r : Run.t) : string :=
  if Run.IsImage r then
    drawingXML (Run.ImageWidth r) (Run.ImageHeight r) (Run.ImageRelID r)
  else if nonEmpty (Run.Text r) then
    let escapedText := XMLEscape (Run.Text r) in
    let lines := Split_newline escapedText in
    textLines 0 lines
  else EmptyString.

Definition Run_ToXML (r : Run.t) : string :=
  runOpen +:+ Run_rPr r +:+ Run_content r +:+ runClose.

(** *** Hyperlink *)

Module Hyperlink.
Record t := mk {
  ID : string;
  Runs : list Run.t
}.
End Hyperlink.

(** The three constructors of runs shared by both run containers. *)
Definition newTextRun (text : string) : Run.t :=
  Run.mk text false false false false EmptyString 0%Q EmptyString
         EmptyString false false EmptyString 0 0.

Definition newFormattedRun (text : string) (bold italic code : bool)
  : Run.t :=
  Run.mk text bold italic false false EmptyString 0%Q EmptyString
         EmptyString code false EmptyString 0 0.

Definition newImageRun (relID : string) (width height : Z) : Run.t :=
  Run.mk EmptyString false false false false EmptyString 0%Q EmptyString
         EmptyString false true relID width height.

(** [Hyperlink.AddRun] and its siblings append to [h.Runs].  The [*Run]
    they return designates the run just appended, that is the last one. *)
Definition Hyperlink_AddRun (text : string) (h : Hyperlink.t)
  : Hyperlink.t :=
  Hyperlink.mk (Hyperlink.ID h) (Hyperlink.Runs h ++ [newTextRun text]).

Definition Hyperlink_AddFormattedRun (text : string)
  (bold italic code : bool) (h : Hyperlink.t) : Hyperlink.t :=
  Hyperlink.mk (Hyperlink.ID h)
    (Hyperlink.Runs h ++ [newFormattedRun text bold italic code]).

Definition Hyperlink_AddImageRun (relID : string) (width height : Z)
  (h : Hyperlink.t) : Hyperlink.t :=
  Hyperlink.mk (Hyperlink.ID h)
    (Hyperlink.Runs h ++ [newImageRun relID width height]).

Definition Hyperlink_ToXML (h : Hyperlink.t) : string :=
  xml "<w:hyperlink r:id='" +:+ Hyperlink.ID h +:+ xml "'>" +:+
  sconcat (map Run_ToXML (Hyperlink.Runs h)) +:+
  "</w:hyperlink>".

(** *** Paragraph *)

(** [ParagraphChild]: the two implementations stored in [Children]. *)
Inductive ParagraphChild : Type :=
  | ChildRun (r : Run.t)
  | ChildHyperlink (h : Hyperlink.t).

Module Paragraph.
Record t := mk {
  StyleID : string;
  Children : list ParagraphChild;
  Align : string;
  Indent : Z;
  SpacingB : Z;
  SpacingA : Z;
  Shading : string;
  Border : bool;
  HorizontalRule : bool;
  LineHeight : Z;
  FirstLineIndent : Z
}.

Definition setChildren (cs : list ParagraphChild) (p : t) : t :=
  mk (StyleID p) cs (Align p) (Indent p) (SpacingB p) (SpacingA p)
     (Shading p) (Border p) (HorizontalRule p) (LineHeight p)
     (FirstLineIndent p).

Definition setAlign (a : string) (p : t) : t :=
  mk (StyleID p) (Children p) a (Indent p) (SpacingB p) (SpacingA p)
     (Shading p) (Border p) (HorizontalRule p) (LineHeight p)
     (FirstLineIndent p).
End Paragraph.

Definition NewParagraph (styleID : string) : Paragraph.t :=
  Paragraph.mk styleID [] EmptyString 0 0 0 EmptyString false false 0 0.

Definition Paragraph_appendChild (c : ParagraphChild) (p : Paragraph.t)
  : Paragraph.t :=
  Paragraph.setChildren (Paragraph.Children p ++ [c]) p.

Definition Paragraph_AddRun (text : string) (p : Paragraph.t)
  : Paragraph.t :=
  Paragraph_appendChild (ChildRun (newTextRun text)) p.

Definition Paragraph_AddFormattedRun (text : string)
  (bold italic code : bool) (p : Paragraph.t) : Paragraph.t :=
  Paragraph_appendChild (ChildRun (newFormattedRun text bold italic code)) p.

Definition Paragraph_AddImageRun (relID : string) (width height : Z)
  (p : Paragraph.t) : Paragraph.t :=
  Paragraph_appendChild (ChildRun (newImageRun relID width height)) p.

(** [Paragraph.AddHyperlink]: a link with no runs yet. *)
Definition Paragraph_AddHyperlink (id : string) (p : Paragraph.t)
  : Paragraph.t :=
  Paragraph_appendChild (ChildHyperlink (Hyperlink.mk id [])) p.

Definition ParagraphChild_ToXML (c : ParagraphChild) : string :=
  match c with
  | ChildRun r => Run_ToXML r
  | ChildHyperlink h => Hyperlink_ToXML h
  end.

Definition pOpen : string := "
        <w:p>".

Definition pClose : string := "
        </w:p>".

Definition pPrOpen : string := "
            <w:pPr>".

Definition pPrClose : string := "
            </w:pPr>".

Definition pStyleXML (styleID : string) : string :=
  xml "
                <w:pStyle w:val='" +:+ styleID +:+ xml "'/>".

(** left and right become the direction-aware tokens. *)
Definition jcOf (align : string) : string :=
  if String.eqb align "left" then "start"
  else if String.eqb align "right" then "end"
  else align.

Definition jcXML (align : string) : string :=
  xml "
                <w:jc w:val='" +:+ jcOf align +:+ xml "'/>".

Definition indXML (indent firstLine : Z) : string :=
  xml "
                <w:ind w:left='" +:+ fmt_d indent +:+
  xml "' w:firstLine='" +:+ fmt_d firstLine +:+ xml "'/>".

Definition spacingXML (before after line : Z) : string :=
  xml "
                <w:spacing w:before='" +:+ fmt_d before +:+
  xml "' w:after='" +:+ fmt_d after +:+
  xml "' w:line='" +:+ fmt_d line +:+ xml "' w:lineRule='auto'/>".

Definition shdXML (fill : string) : string :=
  xml "
                <w:shd w:val='clear' w:color='auto' w:fill='" +:+ fill +:+
  xml "'/>".

Definition ruleBorderXML : string := xml "
                <w:pBdr>
                    <w:bottom w:val='single' w:sz='6' w:space='1' w:color='A0A0A0'/>
                </w:pBdr>".

Definition boxBorderXML : string := xml "
                <w:pBdr>
                    <w:top w:val='single' w:sz='4' w:space='1' w:color='C0C0C0'/>
                    <w:left w:val='single' w:sz='4' w:space='4' w:color='C0C0C0'/>
                    <w:bottom w:val='single' w:sz='4' w:space='1' w:color='C0C0C0'/>
                    <w:right w:val='single' w:sz='4' w:space='4' w:color='C0C0C0'/>
                </w:pBdr>".

(** The paragraph-properties block, empty when no attribute is set. *)
Definition Paragraph_pPr (p : Paragraph.t) : string :=
  if nonEmpty (Paragraph.StyleID p) || nonEmpty (Paragraph.Align p) ||
     (0 <? Paragraph.Indent p) || (0 <? Paragraph.SpacingB p) ||
     (0 <? Paragraph.SpacingA p) || nonEmpty (Paragraph.Shading p) ||
     Paragraph.Border p || Paragraph.HorizontalRule p ||
     (0 <? Paragraph.LineHeight p) || (0 <? Paragraph.FirstLineIndent p)
  then
    pPrOpen +:+
    (if nonEmpty (Paragraph.StyleID p) then pStyleXML (Paragraph.StyleID p)
     else EmptyString) +:+
    (if nonEmpty (Paragraph.Align p) then jcXML (Paragraph.Align p)
     else EmptyString) +:+
    (if (0 <? Paragraph.Indent p) || (0 <? Paragraph.FirstLineIndent p)
     then indXML (Paragraph.Indent p) (Paragraph.FirstLineIndent p)
     else EmptyString) +:+
    (if (0 <? Paragraph.SpacingB p) || (0 <? Paragraph.SpacingA p) ||
        (0 <? Paragraph.LineHeight p)
     then
       let line := if 0 <? Paragraph.LineHeight p
                   then Paragraph.LineHeight p else 360 in
       spacingXML (Paragraph.SpacingA p) (Paragraph.SpacingB p) line
     else EmptyString) +:+
    (if nonEmpty (Paragraph.Shading p)
     then shdXML (TrimPrefix (Paragraph.Shading p) "#")
     else EmptyString) +:+
    (if Paragraph.HorizontalRule p then ruleBorderXML else EmptyString) +:+
    (if Paragraph.Border p then boxBorderXML else EmptyString) +:+
    pPrClose
  else EmptyString.

Definition Paragraph_ToXML (p : Paragraph.t) : string :=
  pOpen +:+ Paragraph_pPr p +:+
  sconcat (map ParagraphChild_ToXML (Paragraph.Children p)) +:+
  pClose.

(* ===================================================================== *)
(** ** Table model (package docx)

    A cell holds [*Paragraph] values and [Table.ToXML] writes through
    them, so paragraphs live in a store and a cell holds their addresses.
    Every Go pointer designates an object: the store is a total function.
    Rows and cells are only read by the renderer and are kept by value. *)
(* ===================================================================== *)

Definition loc : Type := nat.

Definition heap : Type := loc -> Paragraph.t.

(** [*l = p] *)
Definition heap_set (l : loc) (p : Paragraph.t) (h : heap) : heap :=
  fun l' => if Nat.eqb l' l then p else h l'.

Module TableCell.
Record t := mk {
  Paragraphs : list loc;
  Width : Z;
  Align : string;
  VAlign : string;
  Shading : string
}.
End TableCell.

Module TableRow.
Record t := mk {
  Cells : list TableCell.t;
  IsHeader : bool
}.
End TableRow.

Module Table.
Record t := mk {
  Rows : list TableRow.t;
  ColWidths : list Z;
  HasBorders : bool
}.
End Table.

Definition NewTable : Table.t := Table.mk [] [] true.

(** [Table.AddRow] *)
Definition Table_AddRow (isHeader : bool) (t : Table.t) : Table.t :=
  Table.mk (Table.Rows t ++ [TableRow.mk [] isHeader])
           (Table.ColWidths t) (Table.HasBorders t).

(** [TableRow.AddCell] *)
Definition TableRow_AddCell (r : TableRow.t) : TableRow.t :=
  TableRow.mk (TableRow.Cells r ++ [TableCell.mk [] 0 EmptyString
                                      EmptyString EmptyString])
              (TableRow.IsHeader r).

(** [TableCell.AddParagraph]: the address is appended; neither the cell's
    other fields nor the paragraph are touched. *)
Definition TableCell_AddParagraph (p : loc) (c : TableCell.t)
  : TableCell.t :=
  TableCell.mk (TableCell.Paragraphs c ++ [p]) (TableCell.Width c)
               (TableCell.Align c) (TableCell.VAlign c)
               (TableCell.Shading c).

Definition tblOpen : string := xml "
        <w:tbl>
            <w:tblPr>
                <w:tblStyle w:val='TableGrid'/>
                <w:tblW w:w='0' w:type='auto'/>
                <w:tblLook w:val='04A0' w:firstRow='1' w:lastRow='0' w:firstColumn='1' w:lastColumn='0' w:noHBand='0' w:noVBand='1'/>".

Definition tblBordersXML : string := xml "
                <w:tblBorders>
                    <w:top w:val='single' w:sz='4' w:space='0' w:color='auto'/>
                    <w:left w:val='single' w:sz='4' w:space='0' w:color='auto'/>
                    <w:bottom w:val='single' w:sz='4' w:space='0' w:color='auto'/>
                    <w:right w:val='single' w:sz='4' w:space='0' w:color='auto'/>
                    <w:insideH w:val='single' w:sz='4' w:space='0' w:color='auto'/>
                    <w:insideV w:val='single' w:sz='4' w:space='0' w:color='auto'/>
                </w:tblBorders>".

Definition tblPrClose : string := "
            </w:tblPr>".

Definition tblGridOpen : string := "
            <w:tblGrid>".

Definition tblGridClose : string := "
            </w:tblGrid>".

Definition gridColXML (w : Z) : string :=
  xml "
                <w:gridCol w:w='" +:+ fmt_d w +:+ xml "'/>".

Definition trOpen : string := "
            <w:tr>".

Definition trClose : string := "
            </w:tr>".

Definition tblHeaderXML : string := "
                <w:trPr>
                    <w:tblHeader/>
                </w:trPr>".

Definition tcOpen : string := "
                <w:tc>
                    <w:tcPr>".

Definition tcPrClose : string := "
                    </w:tcPr>".

Definition tcClose : string := "
                </w:tc>".

Definition tcWXML (w : Z) : string :=
  xml "
                        <w:tcW w:w='" +:+ fmt_d w +:+ xml "' w:type='dxa'/>".

Definition tcShdXML (fill : string) : string :=
  xml "
                        <w:shd w:val='clear' w:color='auto' w:fill='" +:+
  fill +:+ xml "'/>".

Definition vAlignXML (v : string) : string :=
  xml "
                        <w:vAlign w:val='" +:+ v +:+ xml "'/>".

(** The placeholder of a cell without paragraphs. *)
Definition emptyParagraphXML : string := "
                    <w:p/>".

(** The optional column grid. *)
Definition tblGridXML (colWidths : list Z) : string :=
  if (0 <? length colWidths)%nat then
    tblGridOpen +:+ sconcat (map gridColXML colWidths) +:+ tblGridClose
  else EmptyString.

(** The cell-properties entries between [<w:tcPr>] and [</w:tcPr>]. *)
Definition tcPrXML (cell : TableCell.t) : string :=
  (if 0 <? TableCell.Width cell then tcWXML (TableCell.Width cell)
   else EmptyString) +:+
  (if nonEmpty (TableCell.Shading cell)
   then tcShdXML (TableCell.Shading cell) else EmptyString) +:+
  (if nonEmpty (TableCell.VAlign cell)
   then vAlignXML (TableCell.VAlign cell) else EmptyString).

(** The body of [for _, p := range cell.Paragraphs]: the cell's alignment
    is written into a paragraph that has none, then the paragraph is
    rendered from the store. *)
Definition alignParagraph (cellAlign : string) (l : loc) (h : heap)
  : heap :=
  if nonEmpty cellAlign && negb (nonEmpty (Paragraph.Align (h l)))
  then heap_set l (Paragraph.setAlign cellAlign (h l)) h
  else h.

Fixpoint renderCellParagraphs (cellAlign : string) (ps : list loc)
  (h : heap) : string * heap :=
  match ps with
  | [] => (EmptyString, h)
  | l :: rest =>
      let h1 := alignParagraph cellAlign l h in
      let s := Paragraph_ToXML (h1 l) in
      let '(s', h2) := renderCellParagraphs cellAlign rest h1 in
      (s +:+ s', h2)
  end.

(** The body of [for _, cell := range row.Cells]. *)
Definition renderCell (cell : TableCell.t) (h : heap) : string * heap :=
  let '(content, h1) :=
    if (length (TableCell.Paragraphs cell) =? 0)%nat
    then (emptyParagraphXML, h)
    else renderCellParagraphs (TableCell.Align cell)
                              (TableCell.Paragraphs cell) h in
  (tcOpen +:+ tcPrXML cell +:+ tcPrClose +:+ content +:+ tcClose, h1).

Fixpoint renderCells (cells : list TableCell.t) (h : heap)
  : string * heap :=
  match cells with
  | [] => (EmptyString, h)
  | cell :: rest =>
      let '(s, h1) := renderCell cell h in
      let '(s', h2) := renderCells rest h1 in
      (s +:+ s', h2)
  end.

(** The body of [for _, row := range t.Rows]. *)
Definition renderRow (row : TableRow.t) (h : heap) : string * heap :=
  let '(cells, h1) := renderCells (TableRow.Cells row) h in
  (trOpen +:+
   (if TableRow.IsHeader row then tblHeaderXML else EmptyString) +:+
   cells +:+ trClose, h1).

Fixpoint renderRows (rows : list TableRow.t) (h : heap) : string * heap :=
  match rows with
  | [] => (EmptyString, h)
  | row :: rest =>
      let '(s, h1) := renderRow row h in
      let '(s', h2) := renderRows rest h1 in
      (s +:+ s', h2)
  end.

Definition tblClose : string := "
        </w:tbl>".

(** [Table.ToXML]: the markup and the store it leaves. *)
Definition Table_ToXML (t : Table.t) (h : heap) : string * heap :=
  let '(rows, h1) := renderRows (Table.Rows t) h in
  (tblOpen +:+
   (if Table.HasBorders t then tblBordersXML else EmptyString) +:+
   tblPrClose +:+ tblGridXML (Table.ColWidths t) +:+ rows +:+ tblClose,
   h1).

(** [Element]: what [Document.AddParagraph] receives, a [*Paragraph] or a
    [*TableElement]. *)
Inductive Element : Type :=
  | ElemParagraph (p : loc)
  | ElemTable (t : Table.t).

Definition Element_ToXML (e : Element) (h : heap) : string * heap :=
  match e with
  | ElemParagraph p => (Paragraph_ToXML (h p), h)
  | ElemTable t => Table_ToXML t h
  end.

(* ===================================================================== *)
(** ** Configuration (config.go)                                          *)
(* ===================================================================== *)

Module StyleConfig.
Record t := mk {
  Font : string;
  Size : float64;
  Bold : bool;
  Italic : bool;
  Color : string;
  Background : string;
  LineSpacing : Z;
  LineHeight : Z;
  SpaceBefore : Z;
  SpaceAfter : Z;
  FirstLineIndent : Z
}.

(** The Go zero value: an entry the YAML does not mention. *)
Definition zero : t :=
  mk EmptyString 0%Q false false EmptyString EmptyString 0 0 0 0 0.
End StyleConfig.

Module TableConfig.
Record t := mk {
  Font : string;
  Size : float64;
  Borders : bool;
  HeaderBold : bool
}.
End TableConfig.

Module MermaidConfig.
Record t := mk {
  Enabled : bool;
  CLI : string;
  Theme : string
}.
End MermaidConfig.

Module MathConfig.
Record t := mk {
  Enabled : bool;
  Render : string
}.
End MathConfig.

Module ImageConfig.
Record t := mk {
  MaxWidth : Z;
  DownloadTimeout : Z
}.
End ImageConfig.

Module Styles.
Record t := mk {
  Body : StyleConfig.t;
  Heading1 : StyleConfig.t;
  Heading2 : StyleConfig.t;
  Heading3 : StyleConfig.t;
  Heading4 : StyleConfig.t;
  Heading5 : StyleConfig.t;
  Heading6 : StyleConfig.t;
  Heading7 : StyleConfig.t;
  Heading8 : StyleConfig.t;
  Heading9 : StyleConfig.t;
  Code : StyleConfig.t;
  CodeBlock : StyleConfig.t
}.
End Styles.

Module Config.
Record t := mk {
  Styles : Styles.t;
  Table : TableConfig.t;
  Mermaid : MermaidConfig.t;
  Math : MathConfig.t;
  Images : ImageConfig.t
}.
End Config.


(* ===================================================================== *)
(** ** Style sheet generator (styles.go)                                  *)
(* ===================================================================== *)













(** [FontSizeToTwips] *)
Definition FontSizeToTwips (pt : float64) : Z := halfPoints pt.

(* ===================================================================== *)
(** ** Relationship registry and package builder (package docx)           *)
(* ===================================================================== *)

Module ImageData.
Record t := mk {
  Data : string;
  ContentType : string;
  Width : Z;
  Height : Z
}.
End ImageData.

Module Relationship.
Record t := mk {
  ID : string;
  Type_ : string;
  Target : string;
  TargetMode : string
}.
End Relationship.

Module Document.
Record t := mk {
  config : Config.t;
  elements : list Element;
  images : gmap string ImageData.t;
  imageCount : Z;
  rels : list Relationship.t;
  contentRels : list Relationship.t
}.
End Document.

Definition NewDocument (cfg : Config.t) : Document.t :=
  Document.mk cfg [] ∅ 0 [] [].

(** [Document.AddParagraph] *)
Definition Document_AddParagraph (p : Element) (d : Document.t)
  : Document.t :=
  Document.mk (Document.config d) (Document.elements d ++ [p])
    (Document.images d) (Document.imageCount d) (Document.rels d)
    (Document.contentRels d).

Definition imageRelType : string :=
  "http://schemas.openxmlformats.org/officeDocument/2006/relationships/image".

Definition hyperlinkRelType : string :=
  "http://schemas.openxmlformats.org/officeDocument/2006/relationships/hyperlink".

(** The [switch contentType] of [AddImage]. *)
Definition imageExt (contentType : string) : string :=
  if String.eqb contentType "image/jpeg" then ".jpg"
  else if String.eqb contentType "image/gif" then ".gif"
  else if String.eqb contentType "image/svg+xml" then ".svg"
  else ".png".

(** [Document.AddImage]: the relationship ID and the document it leaves. *)
Definition Document_AddImage (data contentType : string) (width height : Z)
  (d : Document.t) : string * Document.t :=
  let count := int_wrap (Document.imageCount d + 1) in
  let rID := "rId" +:+ fmt_d (int_wrap (count + 10)) in
  let imgName := "image" +:+ fmt_d count in
  let ext := imageExt contentType in
  (rID,
   Document.mk (Document.config d) (Document.elements d)
     (<[imgName +:+ ext := ImageData.mk data contentType width height]>
        (Document.images d))
     count (Document.rels d)
     (Document.contentRels d ++
        [Relationship.mk rID imageRelType ("media/" +:+ imgName +:+ ext)
                         EmptyString])).

(** [Document.AddHyperlink]: it increments the same [imageCount]. *)
Definition Document_AddHyperlink (target : string) (d : Document.t)
  : string * Document.t :=
  let count := int_wrap (Document.imageCount d + 1) in
  let rID := "rId" +:+ fmt_d (int_wrap (count + 1000)) in
  (rID,
   Document.mk (Document.config d) (Document.elements d)
     (Document.images d) count (Document.rels d)
     (Document.contentRels d ++
        [Relationship.mk rID hyperlinkRelType target "External"])).

(** *** The parts *)









(** [for _, elem := range d.elements { buf.WriteString(elem.ToXML()) }] *)
Fixpoint renderElements (elems : list Element) (h : heap) : string * heap :=
  match elems with
  | [] => (EmptyString, h)
  | e :: rest =>
      let '(s, h1) := Element_ToXML e h in
      let '(s', h2) := renderElements rest h1 in
      (s +:+ s', h2)
  end.

(** *** The archive and its failures

    [Save] runs against the file system and a [zip.Writer].  Which step
    fails, and in which order Go ranges over the [images] map, is not
    decided by the program: both are given by a [World]. *)

Inductive error : Type :=
  | ErrMkdirAll
  | ErrOsCreate
  | ErrZipCreate (name : string)
  | ErrZipWrite (name : string).

Record entry := mkEntry {
  entryName : string;
  entryData : string
}.


(** What [Save] acts on: the entries of the archive, in the order of
    their creation, and the paragraph store. *)
Record SaveState := mkSaveState {
  archive : list entry;
  paragraphs : heap
}.

(** A step of [Save]: [inl e] is [return e], [inr x] goes on. *)
Definition IO (A : Type) : Type := SaveState -> (error + A) * SaveState.

Definition io_ret {A : Type} (x : A) : IO A := fun s => (inr x, s).


Definition io_bind {A B : Type} (m : IO A) (k : A -> IO B) : IO B :=
  fun s =>
    match m s with
    | (inl e, s') => (inl e, s')
    | (inr x, s') => k x s'
    end.

Global Instance IO_ret : MRet IO := @io_ret.

Global Instance IO_bind : MBind IO := fun A B k m => io_bind m k.















(* ===================================================================== *)
(** ** The inline walker of the converter (package converter)

    The Markdown tree comes from goldmark; its inline nodes are the
    constructors of [Node].  The renderers and loaders the walker calls
    (formula rendering, image download and decoding) are outside the
    package builder: an [Env] gives their results. *)
(* ===================================================================== *)

#[warnings="-register-all"]
Inductive Node : Type :=
  | AstText (value : string)
  | AstEmphasis (level : Z) (children : list Node)
  | AstCodeSpan (children : list Node)
  | AstLink (destination : string) (children : list Node)
  | AstImage (destination : string) (children : list Node)
  | AstStrikethrough (children : list Node)
  | AstOther (children : list Node).

(** [docx.RunContainer]: the interface value holds a [*Paragraph] or a
    [*Hyperlink], and the walker tells them apart by a type assertion. *)
Inductive RunContainer : Type :=
  | InParagraph (p : Paragraph.t)
  | InHyperlink (h : Hyperlink.t).

Definition AddRun (text : string) (c : RunContainer) : RunContainer :=
  match c with
  | InParagraph p => InParagraph (Paragraph_AddRun text p)
  | InHyperlink h => InHyperlink (Hyperlink_AddRun text h)
  end.

Definition AddFormattedRun (text : string) (bold italic code : bool)
  (c : RunContainer) : RunContainer :=
  match c with
  | InParagraph p =>
      InParagraph (Paragraph_AddFormattedRun text bold italic code p)
  | InHyperlink h =>
      InHyperlink (Hyperlink_AddFormattedRun text bold italic code h)
  end.

Definition AddImageRun (relID : string) (width height : Z)
  (c : RunContainer) : RunContainer :=
  match c with
  | InParagraph p => InParagraph (Paragraph_AddImageRun relID width height p)
  | InHyperlink h => InHyperlink (Hyperlink_AddImageRun relID width height h)
  end.

Definition mapLast {A : Type} (f : A -> A) (l : list A) : list A :=
  match reverse l with
  | [] => []
  | x :: before => reverse before ++ [f x]
  end.

Definition onRun (f : Run.t -> Run.t) (c : ParagraphChild)
  : ParagraphChild :=
  match c with
  | ChildRun r => ChildRun (f r)
  | ChildHyperlink h => ChildHyperlink h
  end.

(** Field writes through the [*Run] an [Add...Run] has just returned: they
    reach the last run of the container. *)
Definition updateLastRun (f : Run.t -> Run.t) (c : RunContainer)
  : RunContainer :=
  match c with
  | InParagraph p =>
      InParagraph
        (Paragraph.setChildren (mapLast (onRun f) (Paragraph.Children p)) p)
  | InHyperlink h =>
      InHyperlink (Hyperlink.mk (Hyperlink.ID h)
                                (mapLast f (Hyperlink.Runs h)))
  end.

Record Env := mkEnv {
  (** [RenderMathJax(latex, display)]: the image bytes, or an error *)
  RenderMathJax : string -> bool -> option string;
  (** [image.Decode]: the bounds of the image, or an error *)
  imageDecode : string -> option (Z * Z);
  (** the three loaders: data and content type, or an error *)
  downloadImage : string -> option (string * string);
  parseBase64Image : string -> option (string * string);
  loadLocalImage : string -> option (string * string);
  (** [http.DetectContentType] *)
  DetectContentType : string -> string;
  (** [int(float64(displayH) * (float64(maxWidth) / float64(displayW)))],
      arguments in the order height, maximum width, width *)
  scaleHeight : Z -> Z -> Z -> Z
}.

Module Converter.
Record t := mk {
  config : Config.t;
  doc : Document.t
}.

Definition setDoc (d : Document.t) (c : t) : t := mk (config c) d.
End Converter.

(** [strings.Index(s, substr)]; [None] is [-1]. *)
Fixpoint Index (s substr : string) : option nat :=
  if HasPrefix s substr then Some 0%nat
  else match s with
       | EmptyString => None
       | String _ s' => S <$> Index s' substr
       end.

(** [s[a:b]] for [a <= b <= len(s)], the only slices the walker takes. *)
Definition slice (s : string) (a b : nat) : string :=
  stake (b - a) (sdrop a s).

(** [int64(px) * 9525]: pixels to EMU. *)
Definition pxToEMU (px : Z) : Z := int_wrap (px * 9525).

Definition getImageDimensions (env : Env) (data : string) : Z * Z :=
  match imageDecode env data with
  | None => (300, 200)
  | Some (dx, dy) => (dx, dy)
  end.

(** [run.Bold = bold; run.Italic = italic] on the run just added. *)
Definition addStyledRun (text : string) (bold italic : bool)
  (p : RunContainer) : RunContainer :=
  updateLastRun (fun r => Run.setItalic italic (Run.setBold bold r))
                (AddRun text p).

(** The [for] loop of [processTextWithInlineFormulas]; it returns the
    final [start].  Every round moves [start] forward, so [len(text) + 1]
    rounds of fuel are never used up. *)
Fixpoint formulaLoop (env : Env) (fuel : nat) (text : string)
  (start : nat) (bold italic : bool) (p : RunContainer) (c : Converter.t)
  : nat * RunContainer * Converter.t :=
  match fuel with
  | O => (start, p, c)
  | S fuel' =>
      match Index (sdrop start text) "$" with
      | None => (start, p, c)
      | Some idx =>
          let absIdx := (start + idx)%nat in
          if (0 <? absIdx)%nat && (byteAt text (absIdx - 1) =? 92) then
            let p1 :=
              addStyledRun (slice text start (absIdx - 1) +:+ "$")
                           bold italic p in
            formulaLoop env fuel' text (absIdx + 1) bold italic p1 c
          else
            match Index (sdrop (absIdx + 1) text) "$" with
            | None => (start, p, c)
            | Some endIdx =>
                let absEndIdx := (absIdx + 1 + endIdx)%nat in
                let p1 :=
                  if (start <? absIdx)%nat
                  then addStyledRun (slice text start absIdx) bold italic p
                  else p in
                let formula := slice text (absIdx + 1) absEndIdx in
                let '(p2, c2) :=
                  match RenderMathJax env formula false with
                  | Some imgData =>
                      let '(width, height) :=
                        getImageDimensions env imgData in
                      let '(rID, d1) :=
                        Document_AddImage imgData "image/png" width height
                                          (Converter.doc c) in
                      (AddImageRun rID (pxToEMU width) (pxToEMU height) p1,
                       Converter.setDoc d1 c)
                  | None =>
                      (addStyledRun ("$" +:+ formula +:+ "$") bold italic p1,
                       c)
                  end in
                formulaLoop env fuel' text (absEndIdx + 1) bold italic p2 c2
            end
      end
  end.

(** [processTextWithInlineFormulas]; the [strike] flag is not used. *)
Definition processTextWithInlineFormulas (env : Env) (text : string)
  (p : RunContainer) (bold italic strike : bool) (c : Converter.t)
  : RunContainer * Converter.t :=
  let '(start, p1, c1) :=
    formulaLoop env (S (len text)) text 0 bold italic p c in
  if (start <? len text)%nat
  then (addStyledRun (sdrop start text) bold italic p1, c1)
  else (p1, c1).

(** [processImage] *)
Definition processImage (env : Env) (src : string) (p : RunContainer)
  (c : Converter.t) : RunContainer * Converter.t :=
  let loaded :=
    if HasPrefix src "http" then downloadImage env src
    else if HasPrefix src "data:image" then parseBase64Image env src
    else loadLocalImage env src in
  match loaded with
  | None => (p, c)
  | Some (data, contentType0) =>
      let contentType :=
        if String.eqb contentType0 EmptyString ||
           String.eqb contentType0 "application/octet-stream"
        then DetectContentType env data else contentType0 in
      let '(width, height) := getImageDimensions env data in
      let maxWidth := ImageConfig.MaxWidth
                        (Config.Images (Converter.config c)) in
      let '(displayW, displayH) :=
        if maxWidth <? width
        then (maxWidth, scaleHeight env height maxWidth width)
        else (width, height) in
      let '(rID, d1) :=
        Document_AddImage data contentType width height (Converter.doc c) in
      (AddImageRun rID (pxToEMU displayW) (pxToEMU displayH) p,
       Converter.setDoc d1 c)
  end.

(** The code branch of the text case: the run added for a code span. *)
Definition codeRunStyle (cfg : Config.t) (r : Run.t) : Run.t :=
  let code := Styles.Code (Config.Styles cfg) in
  let r1 := Run.setIsCode true r in
  let r2 := Run.setFontName (StyleConfig.Font code) r1 in
  let r3 := if String.eqb (Run.FontName r2) EmptyString
            then Run.setFontName "Consolas" r2 else r2 in
  let r4 := Run.setFontSize (StyleConfig.Size code) r3 in
  let r5 := if Qeq_bool (Run.FontSize r4) 0
            then Run.setFontSize (21 # 2) r4 else r4 in
  if nonEmpty (StyleConfig.Color code)
  then Run.setColor (TrimPrefix (StyleConfig.Color code) "#") r5
  else r5.

(** [for child := node.FirstChild(); child != nil; child = child.NextSibling()]
    with the container and the converter threaded through. *)
Definition forChildren
  (body : Node -> RunContainer -> Converter.t -> RunContainer * Converter.t)
  : list Node -> RunContainer -> Converter.t -> RunContainer * Converter.t :=
  fix go (children : list Node) (p : RunContainer) (c : Converter.t) :=
    match children with
    | [] => (p, c)
    | child :: rest => let '(p1, c1) := body child p c in go rest p1 c1
    end.

(** The default link colour. *)
Definition linkColor : string := "0563C1".

(** The body of the pass over [link.Runs] that closes the link case. *)
Definition styleLinkRun (run : Run.t) : Run.t :=
  Run.setUnderline true
    (if String.eqb (Run.Color run) EmptyString
     then Run.setColor linkColor run else run).

(** [for _, run := range link.Runs { ... }] *)
Definition styleLinkRuns (link : Hyperlink.t) : Hyperlink.t :=
  Hyperlink.mk (Hyperlink.ID link) (map styleLinkRun (Hyperlink.Runs link)).

(** The link a container stands for while the children of a link node are
    walked; the walker hands the link itself down, so the first case is the
    one that occurs. *)
Definition linkOf (fallback : Hyperlink.t) (p : RunContainer)
  : Hyperlink.t :=
  match p with
  | InHyperlink h => h
  | InParagraph _ => fallback
  end.

(** [Converter.processInlineNode].  In the link case the new link is the
    last child of the paragraph from [para.AddHyperlink] on; the children
    are added to the link alone, so the paragraph is rebuilt once the link
    is complete. *)
Fixpoint processInlineNode (env : Env) (n : Node) (p : RunContainer)
  (bold italic code strike : bool) (c : Converter.t)
  : RunContainer * Converter.t :=
  match n with
  | AstText text =>
      if code then
        (updateLastRun (codeRunStyle (Converter.config c)) (AddRun text p), c)
      else processTextWithInlineFormulas env text p bold italic strike c
  | AstEmphasis level children =>
      forChildren
        (fun child p' c' =>
           processInlineNode env child p' (bold || (level =? 2))
                             (italic || (level =? 1)) code strike c')
        children p c
  | AstCodeSpan children =>
      forChildren
        (fun child p' c' =>
           processInlineNode env child p' bold italic true strike c')
        children p c
  | AstLink url children =>
      match p with
      | InParagraph para =>
          let '(rID, d1) := Document_AddHyperlink url (Converter.doc c) in
          let link := Hyperlink.mk rID [] in
          let '(filled, c2) :=
            forChildren
              (fun child p' c' =>
                 processInlineNode env child p' bold italic code strike c')
              children (InHyperlink link) (Converter.setDoc d1 c) in
          let populated := linkOf link filled in
          (InParagraph
             (Paragraph_appendChild
                (ChildHyperlink (styleLinkRuns populated)) para),
           c2)
      | InHyperlink _ =>
          forChildren
            (fun child p' c' =>
               processInlineNode env child p' bold italic code strike c')
            children p c
      end
  | AstImage src _ => processImage env src p c
  | AstStrikethrough children =>
      forChildren
        (fun child p' c' =>
           processInlineNode env child p' bold italic code true c')
        children p c
  | AstOther _ => (p, c)
  end.

(** [Converter.processInlineNodes] *)
Definition processInlineNodes (env : Env) (children : list Node)
  (p : RunContainer) (c : Converter.t) : RunContainer * Converter.t :=
  forChildren
    (fun child p' c' =>
       processInlineNode env child p' false false false false c')
    children p c.

(* ===================================================================== *)
(** ** Definitions used to state the properties                           *)
(* ===================================================================== *)

(** *** Sequences of registrations *)

Inductive RegOp : Type :=
  | OpImage (data contentType : string) (width height : Z)
  | OpHyperlink (target : string).

Definition isImageOp (op : RegOp) : bool :=
  match op with
  | OpImage _ _ _ _ => true
  | OpHyperlink _ => false
  end.

Definition runOp (op : RegOp) (d : Document.t) : string * Document.t :=
  match op with
  | OpImage data contentType width height =>
      Document_AddImage data contentType width height d
  | OpHyperlink target => Document_AddHyperlink target d
  end.

(** The calls of [ops] in order: the IDs returned, and the document. *)
Fixpoint runOps (ops : list RegOp) (d : Document.t)
  : list string * Document.t :=
  match ops with
  | [] => ([], d)
  | op :: rest =>
      let '(rID, d1) := runOp op d in
      let '(rIDs, d2) := runOps rest d1 in
      (rID :: rIDs, d2)
  end.

(** The IDs two separate counters would give: the next image takes
    [rId(nImg + 11)], the next hyperlink [rId(nLink + 1001)], where [nImg]
    and [nLink] count the earlier calls of the same kind. *)
Fixpoint disjointCounterIDs (nImg nLink : Z) (ops : list RegOp)
  : list string :=
  match ops with
  | [] => []
  | OpImage _ _ _ _ :: rest =>
      ("rId" +:+ fmt_d (nImg + 11)) ::
      disjointCounterIDs (nImg + 1) nLink rest
  | OpHyperlink _ :: rest =>
      ("rId" +:+ fmt_d (nLink + 1001)) ::
      disjointCounterIDs nImg (nLink + 1) rest
  end.

(** The number a call adds to the counter to form its ID. *)
Definition idOffset (op : RegOp) : Z :=
  if isImageOp op then 10 else 1000.

(** *** A sample configuration *)

Definition sampleBody : StyleConfig.t :=
  StyleConfig.mk "SimSun" 12%Q false false EmptyString EmptyString
                 0 360 0 0 0.

Definition sampleHeading : StyleConfig.t :=
  StyleConfig.mk "SimHei" 16%Q true false EmptyString EmptyString
                 0 0 0 0 0.

(** Body and the second heading level are filled in; the other entries are
    left at their zero value. *)
Definition sampleConfig : Config.t :=
  Config.mk
    (Styles.mk sampleBody StyleConfig.zero sampleHeading StyleConfig.zero
               StyleConfig.zero StyleConfig.zero StyleConfig.zero
               StyleConfig.zero StyleConfig.zero StyleConfig.zero
               StyleConfig.zero StyleConfig.zero)
    (TableConfig.mk EmptyString 0%Q true true)
    (MermaidConfig.mk false EmptyString EmptyString)
    (MathConfig.mk false EmptyString)
    (ImageConfig.mk 600 30).

(** *** Heading styles *)




(** *** Tables *)

(** All the cells of a table, row by row. *)
Definition tableCells (t : Table.t) : list TableCell.t :=
  concat (map TableRow.Cells (Table.Rows t)).


(** *** Escaped character data *)




(** *** The archive [Save] is expected to produce *)





(** The store in which every address holds an empty paragraph. *)
Definition emptyHeap : heap := fun _ => NewParagraph EmptyString.


(** *** Classes of bytes and of decoded runes *)

Fixpoint allChars (P : ascii -> bool) (s : string) : bool :=
  match s with
  | EmptyString => true
  | String c s' => P c && allChars P s'
  end.

(** A byte that is not ASCII. *)
Definition isHigh (c : ascii) : bool := 0x80 <=? byteZ c.


Definition notNewline (c : ascii) : bool := negb (Ascii.eqb c newline).


(** The three outcomes of [DecodeRune] on a non-empty string: an ASCII
    byte, an invalid byte, or a sequence of two to four non-ASCII bytes. *)
Definition decodeOK (c : ascii) (s : string) (rw : Z * nat) : Prop :=
  (rw = (byteZ c, 1%nat) ∧ byteZ c < 0x80) ∨
  (rw = (RuneError, 1%nat) ∧ 0x80 <= byteZ c) ∨
  ((2 <= rw.2 <= len (String c s))%nat ∧
   allChars isHigh (stake rw.2 (String c s)) = true).

Definition escapes : list string :=
  [escQuot; escApos; escAmp; escLT; escGT; escTab; escNL; escCR; escFFFD].




(** What rendering may do to the store: an address keeps its paragraph, or
    the paragraph had no alignment and now carries the alignment of one of
    the [cells] that hold it. *)
Definition alignedFrom (cells : list TableCell.t) (h h' : heap) : Prop :=
  ∀ l, h' l = h l ∨
       (Paragraph.Align (h l) = EmptyString ∧
        ∃ cell, cell ∈ cells ∧ l ∈ TableCell.Paragraphs cell ∧
                TableCell.Align cell ≠ EmptyString ∧
                h' l = Paragraph.setAlign (TableCell.Align cell) (h l)).

(** A table of one cell, centred, holding the paragraph at address 0. *)
Definition centredCell : TableCell.t :=
  TableCell.mk [0%nat] 0 "center" EmptyString EmptyString.

Definition centredTable : Table.t :=
  Table.mk [TableRow.mk [centredCell] false] [] true.




(** An image, a hyperlink, an image again. *)
Definition sampleOps : list RegOp :=
  [OpImage "PNG1" "image/png" 300 200;
   OpHyperlink "https://example.org/";
   OpImage "JPG2" "image/jpeg" 640 480].



(** Induction on inline nodes, with the property on all the children. *)
Section NodeInduction.
Variable P : Node -> Prop.
Hypothesis HText : ∀ value, P (AstText value).
Hypothesis HEmphasis :
  ∀ level children, Forall P children → P (AstEmphasis level children).
Hypothesis HCodeSpan :
  ∀ children, Forall P children → P (AstCodeSpan children).
Hypothesis HLink :
  ∀ destination children,
    Forall P children → P (AstLink destination children).
Hypothesis HImage :
  ∀ destination children,
    Forall P children → P (AstImage destination children).
Hypothesis HStrikethrough :
  ∀ children, Forall P children → P (AstStrikethrough children).
Hypothesis HOther : ∀ children, Forall P children → P (AstOther children).

Fixpoint Node_induction (n : Node) : P n :=
  let all :=
    fix all (children : list Node) : Forall P children :=
      match children with
      | [] => @List.Forall_nil Node P
      | child :: rest =>
          @List.Forall_cons Node P child rest (Node_induction child)
                            (all rest)
      end in
  match n with
  | AstText value => HText value
  | AstEmphasis level children => HEmphasis level children (all children)
  | AstCodeSpan children => HCodeSpan children (all children)
  | AstLink destination children =>
      HLink destination children (all children)
  | AstImage destination children =>
      HImage destination children (all children)
  | AstStrikethrough children => HStrikethrough children (all children)
  | AstOther children => HOther children (all children)
  end.
End NodeInduction.

(** The kind of object behind a [RunContainer]. *)
Definition isLink (p : RunContainer) : bool :=
  match p with
  | InHyperlink _ => true
  | InParagraph _ => false
  end.

(** A walker step that hands back the container it was given. *)
Definition keepsKind
  (f : RunContainer -> Converter.t -> RunContainer * Converter.t) : Prop :=
  ∀ p c, isLink (f p c).1 = isLink p.






(* ===================================================================== *)
(** ** Definitions used to state further properties                       *)
(* ===================================================================== *)

(** [p'] is [p] with children added at the end and nothing else changed. *)
Definition containerExtends (p p' : RunContainer) : Prop :=
  match p, p' with
  | InParagraph a, InParagraph b =>
      ∃ added,
        b = Paragraph.setChildren (Paragraph.Children a ++ added) a
  | InHyperlink a, InHyperlink b =>
      ∃ added, b = Hyperlink.mk (Hyperlink.ID a) (Hyperlink.Runs a ++ added)
  | _, _ => False
  end.

(** [d'] is [d] with relationships added at the end and images added;
    configuration, elements and static relationships are those of [d]. *)
Definition documentExtends (d d' : Document.t) : Prop :=
  Document.config d' = Document.config d ∧
  Document.elements d' = Document.elements d ∧
  Document.rels d' = Document.rels d ∧
  (∃ added, Document.contentRels d' = Document.contentRels d ++ added) ∧
  dom (Document.images d) ⊆ dom (Document.images d').

(** What a step of the walker may do: add to the container, add to the
    registry, keep the configuration. *)
Definition onlyAppends
  (f : RunContainer -> Converter.t -> RunContainer * Converter.t) : Prop :=
  ∀ p c,
    containerExtends p (f p c).1 ∧
    Converter.config (f p c).2 = Converter.config c ∧
    documentExtends (Converter.doc c) (Converter.doc (f p c).2).

(** An ASCII byte. *)
Definition isAscii (c : ascii) : bool := byteZ c <? 0x80.

(** A printable ASCII byte that XML gives no meaning to. *)
Definition safeChar (c : ascii) : bool :=
  (0x20 <=? byteZ c) && isAscii c &&
  negb (Ascii.eqb c dquote) && negb (Ascii.eqb c apostrophe) &&
  negb (Ascii.eqb c "&"%char) && negb (Ascii.eqb c "<"%char) &&
  negb (Ascii.eqb c ">"%char).

(** A byte that is no control byte, no quote and no angle bracket. *)
Definition dataByte (c : ascii) : bool :=
  (0x20 <=? byteZ c) &&
  negb (Ascii.eqb c dquote) && negb (Ascii.eqb c apostrophe) &&
  negb (Ascii.eqb c "<"%char) && negb (Ascii.eqb c ">"%char).

(** The registry is consistent: the images of the map are exactly the
    targets of the image relationships, and every relationship is an
    internal image relationship or an external hyperlink. *)
Definition registryConsistent (d : Document.t) : Prop :=
  (∀ key, is_Some (Document.images d !! key) ↔
          ∃ rel, rel ∈ Document.contentRels d ∧
                 Relationship.Type_ rel = imageRelType ∧
                 Relationship.Target rel = "media/" +:+ key) ∧
  (∀ rel, rel ∈ Document.contentRels d →
          (Relationship.Type_ rel = imageRelType ∧
           Relationship.TargetMode rel = EmptyString) ∨
          (Relationship.Type_ rel = hyperlinkRelType ∧
           Relationship.TargetMode rel = "External")).



(** The cells of all the tables among the elements of a body. *)
Definition elementCells (es : list Element) : list TableCell.t :=
  concat (map (fun e => match e with
                        | ElemParagraph _ => []
                        | ElemTable t => tableCells t
                        end) es).

(** The addresses a renderer reads and may write. *)
Definition cellParagraphs (cells : list TableCell.t) : list loc :=
  concat (map TableCell.Paragraphs cells).

Definition rowParagraphs (rows : list TableRow.t) : list loc :=
  concat (map (fun row => cellParagraphs (TableRow.Cells row)) rows).

Definition elementParagraphs (e : Element) : list loc :=
  match e with
  | ElemParagraph p => [p]
  | ElemTable t => rowParagraphs (Table.Rows t)
  end.

Definition bodyParagraphs (es : list Element) : list loc :=
  concat (map elementParagraphs es).

Definition agreeOn (S : list loc) (h h' : heap) : Prop :=
  ∀ l, l ∈ S → h l = h' l.

(** A renderer with footprint [S]: its markup and what it leaves at [S]
    depend on the store at [S] only, it leaves the rest of the store alone,
    and run once more on the store it left it gives the same markup and
    the same store. *)
Definition repeatable (S : list loc) (f : heap → string * heap) : Prop :=
  (∀ h h', agreeOn S h h' →
           (f h).1 = (f h').1 ∧ agreeOn S (f h).2 (f h').2) ∧
  (∀ h l, l ∉ S → (f h).2 l = h l) ∧
  (∀ h, (f (f h).2).1 = (f h).1 ∧ ∀ l, (f (f h).2).2 l = (f h).2 l).

(** The shape shared by the loops of the renderers: run [F] on each item
    in turn, threading the store and appending the markup. *)
Fixpoint renderSeq {A} (F : A → heap → string * heap) (xs : list A)
  (h : heap) : string * heap :=
  match xs with
  | [] => (EmptyString, h)
  | x :: rest =>
      let '(s, h1) := F x h in
      let '(s', h2) := renderSeq F rest h1 in
      (s +:+ s', h2)
  end.

(** One turn of the loop over the paragraphs of a cell. *)
Definition renderCellParagraph (cellAlign : string) (l : loc) (h : heap)
  : string * heap :=
  let h1 := alignParagraph cellAlign l h in (Paragraph_ToXML (h1 l), h1).

(** Every paragraph of a cell that has an alignment has one too. *)
Definition settled (cells : list TableCell.t) (h : heap) : Prop :=
  ∀ cell l, cell ∈ cells → l ∈ TableCell.Paragraphs cell →
            TableCell.Align cell ≠ EmptyString →
            Paragraph.Align (h l) ≠ EmptyString.

(** A table whose two cells hold the same paragraph; only the second cell
    has an alignment. *)
Definition sharingTable : Table.t :=
  Table.mk [TableRow.mk [TableCell.mk [0%nat] 0 EmptyString EmptyString
                                      EmptyString;
                         centredCell] false] [] true.

(* ===================================================================== *)
(** ** Inline formulas (package converter)                                *)
(* ===================================================================== *)

(** The anonymous struct [ExtractInlineFormulas] returns a slice of. *)
Module InlineFormula.
Record t := mk {
  Start : Z;
  End_ : Z;
  Formula : string
}.
End InlineFormula.

(** ['$'] *)
Definition dollar : Z := 36.

(** The loop [for i := 0; i < len(text); i++] of [ExtractInlineFormulas]
    with [n = len(text) - i] turns left to run, and the formulas the turns
    from [i] on append, in the order they are appended. *)
Fixpoint extractLoop (n : nat) (text : string) (i : nat) (inFormula : bool)
  (start : nat) : list InlineFormula.t :=
  match n with
  | O => []
  | S n' =>
      if byteAt text i =? dollar then
        if negb inFormula then
          if (i + 1 <? len text)%nat && (byteAt text (i + 1) =? dollar)
          then extractLoop n' text (i + 1) inFormula start
          else extractLoop n' text (i + 1) true (i + 1)
        else
          InlineFormula.mk (Z.of_nat start - 1) (Z.of_nat i + 1)
                           (slice text start i)
          :: extractLoop n' text (i + 1) false start
      else extractLoop n' text (i + 1) inFormula start
  end.

(** [ExtractInlineFormulas] *)
Definition ExtractInlineFormulas (text : string) : list InlineFormula.t :=
  extractLoop (len text) text 0 false 0.

(** A formula sits between two dollars of [text]: [Start] is the index of
    the opening dollar, [End_] the index after the closing one, and
    [Formula] the bytes between them. *)
Definition delimited (text : string) (f : InlineFormula.t) : Prop :=
  0 ≤ InlineFormula.Start f ∧
  InlineFormula.Start f + 3 ≤ InlineFormula.End_ f ∧
  InlineFormula.End_ f ≤ Z.of_nat (len text) ∧
  byteAt text (Z.to_nat (InlineFormula.Start f)) = dollar ∧
  byteAt text (Z.to_nat (InlineFormula.End_ f - 1)) = dollar ∧
  InlineFormula.Formula f =
    slice text (Z.to_nat (InlineFormula.Start f + 1))
               (Z.to_nat (InlineFormula.End_ f - 1)).

(** The formulas come in the order of the text, none before [lo], and do
    not overlap. *)
Fixpoint inTextOrder (lo : Z) (fs : list InlineFormula.t) : Prop :=
  match fs with
  | [] => True
  | f :: rest =>
      lo ≤ InlineFormula.Start f ∧ inTextOrder (InlineFormula.End_ f) rest
  end.

(** What the loop knows while it is inside a formula. *)
Definition opened (text : string) (i start : nat) : Prop :=
  (1 ≤ start ≤ i)%nat ∧ byteAt text (start - 1) = dollar ∧
  (∀ k, (start ≤ k < i)%nat → byteAt text k ≠ dollar) ∧
  ((start < len text)%nat → byteAt text start ≠ dollar).

(* ===================================================================== *)
(** ** HTML escaping for the code renderer (package converter)          *)
(* ===================================================================== *)

(** [strings.ReplaceAll(s, old, new)] for a one-byte [old], the only way
    [escapeHTML] calls it. *)
Fixpoint ReplaceAll (s : string) (old : ascii) (new : string) : string :=
  match s with
  | EmptyString => EmptyString
  | String c s' =>
      (if Ascii.eqb c old then new else String c EmptyString) +:+
      ReplaceAll s' old new
  end.

(** [escapeHTML] *)
Definition escapeHTML (s : string) : string :=
  let s := ReplaceAll s "&" "&amp;" in
  let s := ReplaceAll s "<" "&lt;" in
  let s := ReplaceAll s ">" "&gt;" in
  let s := ReplaceAll s dquote "&quot;" in
  ReplaceAll s apostrophe "&#39;".

(** What one byte becomes. *)
Definition htmlEntity (c : ascii) : string :=
  if Ascii.eqb c "&" then "&amp;"
  else if Ascii.eqb c "<" then "&lt;"
  else if Ascii.eqb c ">" then "&gt;"
  else if Ascii.eqb c dquote then "&quot;"
  else if Ascii.eqb c apostrophe then "&#39;"
  else String c EmptyString.

(** A byte that is no angle bracket and no quote. *)
Definition htmlSafe (c : ascii) : bool :=
  negb (Ascii.eqb c "<") && negb (Ascii.eqb c ">") &&
  negb (Ascii.eqb c dquote) && negb (Ascii.eqb c apostrophe).

(* ===================================================================== *)
(** ** Block nodes and their handlers (package converter)

    The handlers tell the kinds of goldmark nodes apart by type switches
    and type assertions; [Block] has the kinds they test for, and the
    inline nodes.  A paragraph a handler makes is reached through a
    pointer from the document or from a table cell, so it gets an address
    in the store. *)
(* ===================================================================== *)

#[warnings="-register-all"]
Inductive Block : Type :=
  | BlkInline (n : Node)
  | BlkHeading (level : Z) (children : list Block)
  | BlkParagraph (children : list Block)
  | BlkTextBlock (children : list Block)
  | BlkList (isOrdered : bool) (children : list Block)
  | BlkListItem (children : list Block)
  | BlkBlockquote (children : list Block)
  | BlkThematicBreak
  | BlkTable (children : list Block)
  | BlkOther (children : list Block).

Definition nodeChildren (n : Node) : list Node :=
  match n with
  | AstText _ => []
  | AstEmphasis _ cs | AstCodeSpan cs | AstLink _ cs | AstImage _ cs
  | AstStrikethrough cs | AstOther cs => cs
  end.

(** [FirstChild()] and [NextSibling()]: the children in order. *)
Definition blockChildren (b : Block) : list Block :=
  match b with
  | BlkInline n => map BlkInline (nodeChildren n)
  | BlkThematicBreak => []
  | BlkHeading _ cs | BlkParagraph cs | BlkTextBlock cs | BlkList _ cs
  | BlkListItem cs | BlkBlockquote cs | BlkTable cs | BlkOther cs => cs
  end.

(** A node as [processInlineNode] sees it: its switch has no case for a
    block node and no default, so a block node is a node it skips. *)
Definition inlineView (b : Block) : Node :=
  match b with
  | BlkInline n => n
  | _ => AstOther []
  end.

(** Field writes through a [*Paragraph]. *)
Definition Paragraph_setIndent (x : Z) (p : Paragraph.t) : Paragraph.t :=
  Paragraph.mk (Paragraph.StyleID p) (Paragraph.Children p)
    (Paragraph.Align p) x (Paragraph.SpacingB p) (Paragraph.SpacingA p)
    (Paragraph.Shading p) (Paragraph.Border p) (Paragraph.HorizontalRule p)
    (Paragraph.LineHeight p) (Paragraph.FirstLineIndent p).

Definition Paragraph_setSpacingB (x : Z) (p : Paragraph.t) : Paragraph.t :=
  Paragraph.mk (Paragraph.StyleID p) (Paragraph.Children p)
    (Paragraph.Align p) (Paragraph.Indent p) x (Paragraph.SpacingA p)
    (Paragraph.Shading p) (Paragraph.Border p) (Paragraph.HorizontalRule p)
    (Paragraph.LineHeight p) (Paragraph.FirstLineIndent p).

Definition Paragraph_setSpacingA (x : Z) (p : Paragraph.t) : Paragraph.t :=
  Paragraph.mk (Paragraph.StyleID p) (Paragraph.Children p)
    (Paragraph.Align p) (Paragraph.Indent p) (Paragraph.SpacingB p) x
    (Paragraph.Shading p) (Paragraph.Border p) (Paragraph.HorizontalRule p)
    (Paragraph.LineHeight p) (Paragraph.FirstLineIndent p).

Definition Paragraph_setShading (s : string) (p : Paragraph.t)
  : Paragraph.t :=
  Paragraph.mk (Paragraph.StyleID p) (Paragraph.Children p)
    (Paragraph.Align p) (Paragraph.Indent p) (Paragraph.SpacingB p)
    (Paragraph.SpacingA p) s (Paragraph.Border p)
    (Paragraph.HorizontalRule p) (Paragraph.LineHeight p)
    (Paragraph.FirstLineIndent p).

Definition Paragraph_setBorder (b : bool) (p : Paragraph.t) : Paragraph.t :=
  Paragraph.mk (Paragraph.StyleID p) (Paragraph.Children p)
    (Paragraph.Align p) (Paragraph.Indent p) (Paragraph.SpacingB p)
    (Paragraph.SpacingA p) (Paragraph.Shading p) b
    (Paragraph.HorizontalRule p) (Paragraph.LineHeight p)
    (Paragraph.FirstLineIndent p).

Definition Paragraph_setHorizontalRule (b : bool) (p : Paragraph.t)
  : Paragraph.t :=
  Paragraph.mk (Paragraph.StyleID p) (Paragraph.Children p)
    (Paragraph.Align p) (Paragraph.Indent p) (Paragraph.SpacingB p)
    (Paragraph.SpacingA p) (Paragraph.Shading p) (Paragraph.Border p) b
    (Paragraph.LineHeight p) (Paragraph.FirstLineIndent p).

Definition Paragraph_setLineHeight (x : Z) (p : Paragraph.t)
  : Paragraph.t :=
  Paragraph.mk (Paragraph.StyleID p) (Paragraph.Children p)
    (Paragraph.Align p) (Paragraph.Indent p) (Paragraph.SpacingB p)
    (Paragraph.SpacingA p) (Paragraph.Shading p) (Paragraph.Border p)
    (Paragraph.HorizontalRule p) x (Paragraph.FirstLineIndent p).

Definition Paragraph_setFirstLineIndent (x : Z) (p : Paragraph.t)
  : Paragraph.t :=
  Paragraph.mk (Paragraph.StyleID p) (Paragraph.Children p)
    (Paragraph.Align p) (Paragraph.Indent p) (Paragraph.SpacingB p)
    (Paragraph.SpacingA p) (Paragraph.Shading p) (Paragraph.Border p)
    (Paragraph.HorizontalRule p) (Paragraph.LineHeight p) x.

(** The converter together with the paragraphs it has made: [next] is the
    first address not yet given out. *)
Module Machine.
Record t := mk {
  conv : Converter.t;
  store : heap;
  next : loc
}.

Definition setConv (c : Converter.t) (m : t) : t := mk c (store m) (next m).
End Machine.

(** The elements of the document under construction. *)
Definition elementsOf (m : Machine.t) : list Element :=
  Document.elements (Converter.doc (Machine.conv m)).

(** A paragraph becomes reachable through a pointer. *)
Definition allocParagraph (p : Paragraph.t) (m : Machine.t)
  : loc * Machine.t :=
  (Machine.next m,
   Machine.mk (Machine.conv m) (heap_set (Machine.next m) p (Machine.store m))
              (S (Machine.next m))).

(** [c.doc.AddParagraph(e)] *)
Definition addElement (e : Element) (m : Machine.t) : Machine.t :=
  Machine.setConv
    (Converter.setDoc
       (Document_AddParagraph e (Converter.doc (Machine.conv m)))
       (Machine.conv m)) m.

(** [c.doc.AddParagraph(p)] for a paragraph the handler has finished. *)
Definition addParagraph (p : Paragraph.t) (m : Machine.t) : Machine.t :=
  let '(l, m1) := allocParagraph p m in addElement (ElemParagraph l) m1.

(** The paragraph a container stands for; the handlers hand paragraphs to
    the inline walker, which hands back what it was given. *)
Definition paragraphOf (fallback : Paragraph.t) (p : RunContainer)
  : Paragraph.t :=
  match p with
  | InParagraph q => q
  | InHyperlink _ => fallback
  end.

(** [c.processInlineNodes(node, p)] on the paragraph [p]. *)
Definition inlineInto (env : Env) (node : Block) (p : Paragraph.t)
  (m : Machine.t) : Paragraph.t * Machine.t :=
  let '(p', c') :=
    processInlineNodes env (map inlineView (blockChildren node))
                       (InParagraph p) (Machine.conv m) in
  (paragraphOf p p', Machine.setConv c' m).

(** [c.config.Styles.Body] *)
Definition bodyStyle (m : Machine.t) : StyleConfig.t :=
  Styles.Body (Config.Styles (Converter.config (Machine.conv m))).

(** [processHeading]; it returns [nil]. *)
Definition processHeading (env : Env) (node : Block) (m : Machine.t)
  : Machine.t :=
  let level0 := match node with BlkHeading level _ => level | _ => 0 end in
  let level := if 9 <? level0 then 9 else level0 in
  let styleID := "Heading" +:+ fmt_d level in
  let p := Paragraph_setLineHeight (StyleConfig.LineHeight (bodyStyle m))
                                   (NewParagraph styleID) in
  let '(p1, m1) := inlineInto env node p m in
  addParagraph p1 m1.

(** [processParagraph]; it returns [nil]. *)
Definition processParagraph (env : Env) (node : Block) (m : Machine.t)
  : Machine.t :=
  let body := bodyStyle m in
  let p :=
    Paragraph_setFirstLineIndent (StyleConfig.FirstLineIndent body)
      (Paragraph_setLineHeight (StyleConfig.LineHeight body)
         (Paragraph_setSpacingB (StyleConfig.SpaceAfter body)
            (Paragraph_setSpacingA (StyleConfig.SpaceBefore body)
               (NewParagraph EmptyString)))) in
  let '(p1, m1) := inlineInto env node p m in
  if (0 <? length (Paragraph.Children p1))%nat
  then addParagraph p1 m1 else m1.

(** [processTextBlock]; it returns [nil]. *)
Definition processTextBlock (env : Env) (node : Block) (m : Machine.t)
  : Machine.t :=
  let '(p1, m1) := inlineInto env node (NewParagraph EmptyString) m in
  addParagraph p1 m1.

(** [p.AddRun(text).Bold = true] *)
Definition addBoldRun (text : string) (p : Paragraph.t) : Paragraph.t :=
  Paragraph_appendChild (ChildRun (Run.setBold true (newTextRun text))) p.

(** The bullet of an unordered item: U+2022 and a space. *)
Definition bulletText : string := "• ".

(** The paragraph of a list item before its children are walked. *)
Definition itemParagraph (isOrdered : bool) (index level : Z)
  (m : Machine.t) : Paragraph.t :=
  addBoldRun (if isOrdered then fmt_d index +:+ ". " else bulletText)
    (Paragraph_setLineHeight (StyleConfig.LineHeight (bodyStyle m))
       (Paragraph_setIndent (int_wrap (int_wrap (level + 1) * 360))
          (NewParagraph EmptyString))).

(** [processListItem], with the loop of [processList] inside it for the
    lists among the children of the item.  It is called on list items
    only. *)
Fixpoint processListItem (env : Env) (node : Block) (isOrdered : bool)
  (index level : Z) (m : Machine.t) {struct node} : Machine.t :=
  match node with
  | BlkListItem children =>
      let '(p2, m2) :=
        (fix each (children : list Block) (p : Paragraph.t)
                  (m : Machine.t) : Paragraph.t * Machine.t :=
           match children with
           | [] => (p, m)
           | child :: rest =>
               match child with
               | BlkList ordered items =>
                   each rest p
                     ((fix loop (items : list Block) (i : Z)
                                (m : Machine.t) : Machine.t :=
                         match items with
                         | [] => m
                         | item :: more =>
                             match item with
                             | BlkListItem _ =>
                                 loop more (int_wrap (i + 1))
                                   (processListItem env item ordered i
                                      (int_wrap (level + 1)) m)
                             | _ => loop more i m
                             end
                         end) items 1 m)
               | _ =>
                   let '(p', m') := inlineInto env child p m in
                   each rest p' m'
               end
           end) children (itemParagraph isOrdered index level m) m in
      addParagraph p2 m2
  | _ => m
  end.

(** The loop of [processList] from index [i] on. *)
Fixpoint processListFrom (env : Env) (isOrdered : bool) (level : Z)
  (items : list Block) (i : Z) (m : Machine.t) : Machine.t :=
  match items with
  | [] => m
  | item :: more =>
      match item with
      | BlkListItem _ =>
          processListFrom env isOrdered level more (int_wrap (i + 1))
            (processListItem env item isOrdered i level m)
      | _ => processListFrom env isOrdered level more i m
      end
  end.

(** [processList]; it returns [nil]. *)
Definition processList (env : Env) (node : Block) (level : Z)
  (m : Machine.t) : Machine.t :=
  match node with
  | BlkList isOrdered items => processListFrom env isOrdered level items 1 m
  | _ => m
  end.

(** The loop over the children of a list item, with [processList] for the
    lists among them. *)
Fixpoint itemChildren (env : Env) (level : Z) (children : list Block)
  (p : Paragraph.t) (m : Machine.t) : Paragraph.t * Machine.t :=
  match children with
  | [] => (p, m)
  | child :: rest =>
      match child with
      | BlkList _ _ =>
          itemChildren env level rest p
            (processList env child (int_wrap (level + 1)) m)
      | _ =>
          let '(p', m') := inlineInto env child p m in
          itemChildren env level rest p' m'
      end
  end.

(** The paragraph of a block quote child once the child is walked. *)
Definition quoteParagraph (lineHeight : Z) (p : Paragraph.t)
  : Paragraph.t :=
  Paragraph_setLineHeight lineHeight
    (Paragraph_setIndent 360
       (Paragraph_setBorder true (Paragraph_setShading "F0F0F0" p))).

(** [processBlockquote]: the loop over the children; it returns [nil]. *)
Fixpoint quoteChildren (env : Env) (children : list Block) (m : Machine.t)
  : Machine.t :=
  match children with
  | [] => m
  | child :: rest =>
      let '(tempP, m1) :=
        inlineInto env child (NewParagraph EmptyString) m in
      quoteChildren env rest
        (addParagraph
           (quoteParagraph (StyleConfig.LineHeight (bodyStyle m1)) tempP)
           m1)
  end.

Definition processBlockquote (env : Env) (node : Block) (m : Machine.t)
  : Machine.t :=
  quoteChildren env (blockChildren node) m.

(** [processThematicBreak]; it returns [nil]. *)
Definition processThematicBreak (m : Machine.t) : Machine.t :=
  addParagraph
    (Paragraph_setSpacingB 120
       (Paragraph_setSpacingA 120
          (Paragraph_setHorizontalRule true (NewParagraph EmptyString))))
    m.

(** The cell [r.AddCell()] makes. *)
Definition newCell : TableCell.t :=
  TableCell.mk [] 0 EmptyString EmptyString EmptyString.

(** The inner loop of [processTable]: the cells of one row, each with the
    one paragraph made for it.  [AddCell] hands out a pointer to the cell
    it has appended; the cell is appended here once it is filled. *)
Fixpoint tableCellsOf (env : Env) (cells : list Block) (r : TableRow.t)
  (m : Machine.t) : TableRow.t * Machine.t :=
  match cells with
  | [] => (r, m)
  | cell :: rest =>
      let '(p, m1) := inlineInto env cell (NewParagraph EmptyString) m in
      let '(l, m2) := allocParagraph p m1 in
      tableCellsOf env rest
        (TableRow.mk (TableRow.Cells r ++ [TableCell_AddParagraph l newCell])
                     (TableRow.IsHeader r))
        m2
  end.

(** The outer loop of [processTable]; [AddRow(false)] for every row. *)
Fixpoint tableRowsOf (env : Env) (rows : list Block) (t : Table.t)
  (m : Machine.t) : Table.t * Machine.t :=
  match rows with
  | [] => (t, m)
  | row :: rest =>
      let '(r, m1) :=
        tableCellsOf env (blockChildren row) (TableRow.mk [] false) m in
      tableRowsOf env rest
        (Table.mk (Table.Rows t ++ [r]) (Table.ColWidths t)
                  (Table.HasBorders t))
        m1
  end.

(** [processTable]; it returns [nil]. *)
Definition processTable (env : Env) (node : Block) (m : Machine.t)
  : Machine.t :=
  let table := Table.mk (Table.Rows NewTable) (Table.ColWidths NewTable)
                        true in
  let '(t, m1) := tableRowsOf env (blockChildren node) table m in
  addElement (ElemTable t) m1.

(** [renderMathAsImage]: [None] is the error of [RenderMathJax]. *)
Definition renderMathAsImage (env : Env) (latex : string) (display : bool)
  (m : Machine.t) : option Machine.t :=
  match RenderMathJax env latex display with
  | None => None
  | Some imgData =>
      let '(width, height) := getImageDimensions env imgData in
      let '(rID, d1) :=
        Document_AddImage imgData "image/png" width height
                          (Converter.doc (Machine.conv m)) in
      let p0 := NewParagraph EmptyString in
      let p1 := if display then Paragraph.setAlign "center" p0 else p0 in
      let p2 := Paragraph_AddImageRun rID (pxToEMU width) (pxToEMU height)
                                      p1 in
      Some (addParagraph p2
              (Machine.setConv (Converter.setDoc d1 (Machine.conv m)) m))
  end.

(** *** Definitions used to state the properties of the handlers *)

(** The children of a block node that are block nodes. *)
Definition subBlocks (b : Block) : list Block :=
  match b with
  | BlkInline _ | BlkThematicBreak => []
  | BlkHeading _ cs | BlkParagraph cs | BlkTextBlock cs | BlkList _ cs
  | BlkListItem cs | BlkBlockquote cs | BlkTable cs | BlkOther cs => cs
  end.

(** Induction on block nodes, with the property on all the children. *)
Section BlockInduction.
Variable P : Block -> Prop.
Hypothesis HBlock : ∀ b, Forall P (subBlocks b) → P b.

Fixpoint Block_induction (b : Block) : P b :=
  let all :=
    fix all (children : list Block) : Forall P children :=
      match children with
      | [] => @List.Forall_nil Block P
      | child :: rest =>
          @List.Forall_cons Block P child rest (Block_induction child)
                            (all rest)
      end in
  match b with
  | BlkInline n => HBlock (BlkInline n) (@List.Forall_nil Block P)
  | BlkHeading level cs => HBlock (BlkHeading level cs) (all cs)
  | BlkParagraph cs => HBlock (BlkParagraph cs) (all cs)
  | BlkTextBlock cs => HBlock (BlkTextBlock cs) (all cs)
  | BlkList isOrdered cs => HBlock (BlkList isOrdered cs) (all cs)
  | BlkListItem cs => HBlock (BlkListItem cs) (all cs)
  | BlkBlockquote cs => HBlock (BlkBlockquote cs) (all cs)
  | BlkThematicBreak => HBlock BlkThematicBreak (@List.Forall_nil Block P)
  | BlkTable cs => HBlock (BlkTable cs) (all cs)
  | BlkOther cs => HBlock (BlkOther cs) (all cs)
  end.
End BlockInduction.

(** A step of the converter keeps what there was: the configuration, the
    addresses given out and the paragraphs behind them. *)
Definition keepsOld (m m' : Machine.t) : Prop :=
  Converter.config (Machine.conv m') = Converter.config (Machine.conv m) ∧
  (Machine.next m ≤ Machine.next m')%nat ∧
  ∀ l, (l < Machine.next m)%nat → Machine.store m' l = Machine.store m l.

(** Addresses given out between [m] and [m'], each once. *)
Definition freshIn (m m' : Machine.t) (ls : list loc) : Prop :=
  NoDup ls ∧ ∀ l, l ∈ ls → (Machine.next m ≤ l < Machine.next m')%nat.

(** A step that only appends elements, all of whose paragraphs are new
    and held once. *)
Definition grows (m m' : Machine.t) : Prop :=
  keepsOld m m' ∧
  ∃ added, elementsOf m' = elementsOf m ++ added ∧
           freshIn m m' (bodyParagraphs added).

(** Every paragraph of the document has an address that was given out, and
    no paragraph is held twice. *)
Definition allocated (m : Machine.t) : Prop :=
  NoDup (bodyParagraphs (elementsOf m)) ∧
  ∀ l, l ∈ bodyParagraphs (elementsOf m) → (l < Machine.next m)%nat.

(** The list items [processList] and [processListItem] reach from a node:
    the items of a list, and the items of the lists among the children of
    an item. *)
Fixpoint itemCount (b : Block) : nat :=
  match b with
  | BlkList _ items =>
      (fix sum (items : list Block) : nat :=
         match items with
         | [] => 0%nat
         | item :: more =>
             (match item with
              | BlkListItem _ => itemCount item
              | _ => 0%nat
              end + sum more)%nat
         end) items
  | BlkListItem children =>
      S ((fix sum (children : list Block) : nat :=
            match children with
            | [] => 0%nat
            | child :: more =>
                (match child with
                 | BlkList _ _ => itemCount child
                 | _ => 0%nat
                 end + sum more)%nat
            end) children)
  | _ => 0%nat
  end.

(** The same count over the children of an item and over the items of a
    list. *)
Definition nestedCount (children : list Block) : nat :=
  list_sum (map (fun child => match child with
                              | BlkList _ _ => itemCount child
                              | _ => 0%nat
                              end) children).

Definition listCount (items : list Block) : nat :=
  list_sum (map (fun item => match item with
                             | BlkListItem _ => itemCount item
                             | _ => 0%nat
                             end) items).

(** The marker run that opens the paragraph of a list item. *)
Definition markerRun (isOrdered : bool) (index : Z) : ParagraphChild :=
  ChildRun (Run.setBold true
              (newTextRun (if isOrdered then fmt_d index +:+ ". "
                           else bulletText))).

(** The converter as [Convert] starts it: a new document, and no address
    given out. *)
Definition newMachine (cfg : Config.t) : Machine.t :=
  Machine.mk (Converter.mk cfg (NewDocument cfg)) emptyHeap 0%nat.

(** An environment in which every renderer and loader fails. *)
Definition offlineEnv : Env :=
  mkEnv (fun _ _ => None) (fun _ => None) (fun _ => None) (fun _ => None)
        (fun _ => None) (fun _ => EmptyString) (fun h _ _ => h).

(** A list item none of whose children is a list. *)
Definition flatItem (b : Block) : bool :=
  match b with
  | BlkListItem children =>
      forallb (fun child => match child with
                            | BlkList _ _ => false
                            | _ => true
                            end) children
  | _ => false
  end.

(** A list of two items, the first of which holds a list of one item. *)
Definition nestedList : Block :=
  BlkList true
    [BlkListItem [BlkParagraph [BlkInline (AstText "a")];
                  BlkList false
                    [BlkListItem [BlkParagraph [BlkInline (AstText "b")]]]];
     BlkListItem [BlkParagraph [BlkInline (AstText "c")]]].

(* ===================================================================== *)
(** ** Code blocks (code_native.go)

    The lexer and the style come from chroma.  A token is given with what
    the highlighter reads of its style entry. *)
(* ===================================================================== *)

Module Token.
Record t := mk {
  (** [token.Value] *)
  Value : string;
  (** [entry.Colour.String()] when [entry.Colour.IsSet()] *)
  Colour : option string;
  (** [entry.Bold == chroma.Yes] and [entry.Italic == chroma.Yes] *)
  Bold : bool;
  Italic : bool
}.
End Token.

(** The paragraph made for every line of code. *)
Definition codeParagraph (lineSpacing lineHeight : Z) : Paragraph.t :=
  Paragraph_setLineHeight lineHeight
    (Paragraph_setSpacingB (Z.quot lineSpacing 2)
       (Paragraph_setSpacingA (Z.quot lineSpacing 2)
          (NewParagraph EmptyString))).

(** The run made for a piece of a token. *)
Definition tokenRun (fontName : string) (fontSize : float64)
  (tok : Token.t) (lineText : string) : Run.t :=
  let r0 := Run.setFontSize fontSize
              (Run.setFontName fontName (newTextRun lineText)) in
  let r1 := match Token.Colour tok with
            | Some colour => Run.setColor (TrimPrefix colour "#") r0
            | None => r0
            end in
  let r2 := if Token.Bold tok then Run.setBold true r1 else r1 in
  if Token.Italic tok then Run.setItalic true r2 else r2.

(** [p.AddRun(...)] through the pointer [p]. *)
Definition appendChildAt (p : loc) (c : ParagraphChild) (m : Machine.t)
  : Machine.t :=
  Machine.mk (Machine.conv m)
    (heap_set p (Paragraph_appendChild c (Machine.store m p))
              (Machine.store m))
    (Machine.next m).

(** [for i, lineText := range lines] from index [i] on; the state is the
    cell, the paragraph [p] points to, and the machine. *)
Fixpoint tokenLines (fontName : string) (fontSize : float64)
  (lineSpacing lineHeight : Z) (tok : Token.t) (lines : list string)
  (i : nat) (cell : TableCell.t) (p : loc) (m : Machine.t)
  : TableCell.t * loc * Machine.t :=
  match lines with
  | [] => (cell, p, m)
  | lineText :: rest =>
      let '(cell1, p1, m1) :=
        if (0 <? i)%nat then
          let '(l, m') :=
            allocParagraph (codeParagraph lineSpacing lineHeight) m in
          (TableCell_AddParagraph l cell, l, m')
        else (cell, p, m) in
      let m2 :=
        if nonEmpty lineText
        then appendChildAt p1
               (ChildRun (tokenRun fontName fontSize tok lineText)) m1
        else m1 in
      tokenLines fontName fontSize lineSpacing lineHeight tok rest (S i)
                 cell1 p1 m2
  end.

(** [for _, token := range iterator.Tokens()] *)
Fixpoint tokensLoop (fontName : string) (fontSize : float64)
  (lineSpacing lineHeight : Z) (tokens : list Token.t)
  (cell : TableCell.t) (p : loc) (m : Machine.t)
  : TableCell.t * loc * Machine.t :=
  match tokens with
  | [] => (cell, p, m)
  | tok :: rest =>
      let '(cell1, p1, m1) :=
        tokenLines fontName fontSize lineSpacing lineHeight tok
                   (Split_newline (Token.Value tok)) 0 cell p m in
      tokensLoop fontName fontSize lineSpacing lineHeight rest cell1 p1 m1
  end.

(** [HighlightCodeNative]: [Tokenise language code] is what the lexer got
    for [language] answers on [code], [None] being its error, which is
    returned.  Otherwise the result is the cell and the machine left, and
    the error is [nil]. *)
Definition HighlightCodeNative
  (Tokenise : string -> string -> option (list Token.t))
  (cell : TableCell.t) (code language fontName : string)
  (fontSize : float64) (lineSpacing lineHeight : Z) (m : Machine.t)
  : option (TableCell.t * Machine.t) :=
  match Tokenise language code with
  | None => None
  | Some tokens =>
      let '(l, m1) :=
        allocParagraph (codeParagraph lineSpacing lineHeight) m in
      let '(cell2, _, m2) :=
        tokensLoop fontName fontSize lineSpacing lineHeight tokens
                   (TableCell_AddParagraph l cell) l m1 in
      Some (cell2, m2)
  end.

(** *** Definitions used to state the properties of the highlighter *)

(** The text of a paragraph: the texts of its runs in order. *)
Definition childText (c : ParagraphChild) : string :=
  match c with
  | ChildRun r => Run.Text r
  | ChildHyperlink _ => EmptyString
  end.

Definition paragraphText (p : Paragraph.t) : string :=
  sconcat (map childText (Paragraph.Children p)).

(** The lines of [a] followed by the lines of [b], the last line of [a]
    running on into the first line of [b]. *)
Fixpoint joinLines (a b : list string) : list string :=
  match a with
  | [] => b
  | x :: a' =>
      match a' with
      | [] => match b with
              | [] => [x]
              | y :: ys => (x +:+ y) :: ys
              end
      | _ :: _ => x :: joinLines a' b
      end
  end.

(** A run of the highlighter: a piece of one line, in the font asked
    for. *)
Definition codeRun (fontName : string) (fontSize : float64)
  (c : ParagraphChild) : Prop :=
  ∃ r, c = ChildRun r ∧ Run.Text r ≠ EmptyString ∧
       allChars notNewline (Run.Text r) = true ∧
       Run.FontName r = fontName ∧ Run.FontSize r = fontSize ∧
       Run.IsImage r = false.

(** What the loops of the highlighter keep: the cell has got the
    paragraphs at [n0], [n0 + 1], ... in this order, one per line of
    [lines]; [p] points to the last of them; their texts are the lines. *)
Definition highlighting (fontName : string) (fontSize : float64)
  (lineSpacing lineHeight : Z) (before : list loc) (n0 : loc)
  (lines : list string) (cell : TableCell.t) (p : loc) (m : Machine.t)
  : Prop :=
  lines ≠ [] ∧
  TableCell.Paragraphs cell = before ++ seq n0 (length lines) ∧
  S p = (n0 + length lines)%nat ∧
  Machine.next m = (n0 + length lines)%nat ∧
  map (fun l => paragraphText (Machine.store m l)) (seq n0 (length lines))
    = lines ∧
  ∀ l, (n0 ≤ l < n0 + length lines)%nat →
       Forall (codeRun fontName fontSize)
              (Paragraph.Children (Machine.store m l)) ∧
       Paragraph.setChildren [] (Machine.store m l) =
         codeParagraph lineSpacing lineHeight.

(** A lexer that hands the code back as one token of no style. *)
Definition oneToken (language code : string) : option (list Token.t) :=
  Some [Token.mk code None false false].

(** The converter and the paragraphs below [n0] are out of reach of the
    loops of the highlighter. *)
Definition sameBelow (n0 : loc) (m m' : Machine.t) : Prop :=
  Machine.conv m' = Machine.conv m ∧
  ∀ l, (l < n0)%nat → Machine.store m' l = Machine.store m l.

(* ===================================================================== *)
(** * Properties                                                        *)
(* ===================================================================== *)

(* ===================================================================== *)
(** ** Strings                                                            *)
(* ===================================================================== *)

Lemma sapp_cons c s t : String c s +:+ t = String c (s +:+ t).
Proof. reflexivity. Qed.

Lemma sapp_nil_r s : s +:+ "" = s.
Proof. induction s as [|c s IH]; [done|]. by rewrite sapp_cons, IH. Qed.

Lemma sapp_assoc s t u : (s +:+ t) +:+ u = s +:+ t +:+ u.
Proof. induction s as [|c s IH]; [done|]. by rewrite !sapp_cons, IH. Qed.



Lemma len_sdrop n s : len (sdrop n s) = (len s - n)%nat.
Proof.
  unfold len. revert s; induction n as [|n IH]; intros [|c s]; cbn;
    auto with lia.
Qed.




Lemma byteZ_range c : 0 <= byteZ c < 256.
Proof. by destruct c as [[] [] [] [] [] [] [] []]; vm_compute. Qed.

(* ===================================================================== *)
(** ** The decoder                                                        *)
(* ===================================================================== *)

Lemma decodeOK_ascii c s : byteZ c < 0x80 → decodeOK c s (byteZ c, 1%nat).
Proof. by left. Qed.

Lemma decodeOK_error c s : 0x80 <= byteZ c → decodeOK c s (RuneError, 1%nat).
Proof. by right; left. Qed.

Lemma decodeOK_2 c c1 s r :
  0x80 <= byteZ c → 0x80 <= byteZ c1 → decodeOK c (String c1 s) (r, 2%nat).
Proof.
  intros H0 H1. right; right. cbn [snd stake allChars]. unfold isHigh, len.
  split; [cbn; lia|]. by rewrite !andb_true_iff, !Z.leb_le.
Qed.

Lemma decodeOK_3 c c1 c2 s r :
  0x80 <= byteZ c → 0x80 <= byteZ c1 → 0x80 <= byteZ c2 →
  decodeOK c (String c1 (String c2 s)) (r, 3%nat).
Proof.
  intros H0 H1 H2. right; right. cbn [snd stake allChars].
  unfold isHigh, len.
  split; [cbn; lia|]. by rewrite !andb_true_iff, !Z.leb_le.
Qed.

Lemma decodeOK_4 c c1 c2 c3 s r :
  0x80 <= byteZ c → 0x80 <= byteZ c1 → 0x80 <= byteZ c2 → 0x80 <= byteZ c3 →
  decodeOK c (String c1 (String c2 (String c3 s))) (r, 4%nat).
Proof.
  intros H0 H1 H2 H3. right; right. cbn [snd stake allChars].
  unfold isHigh, len.
  split; [cbn; lia|]. by rewrite !andb_true_iff, !Z.leb_le.
Qed.

Ltac bool_hyps :=
  repeat match goal with
  | H : (_ || _) = false |- _ => apply orb_false_elim in H; destruct H
  | H : (_ <? _) = false |- _ => apply Z.ltb_ge in H
  | H : (_ <? _) = true |- _ => apply Z.ltb_lt in H
  | H : (_ <=? _) = false |- _ => apply Z.leb_gt in H
  | H : (_ <=? _) = true |- _ => apply Z.leb_le in H
  | H : (_ =? _) = false |- _ => apply Z.eqb_neq in H
  | H : (_ =? _) = true |- _ => apply Z.eqb_eq in H
  end.

(** Whatever the bytes, [DecodeRune] consumes an ASCII byte, rejects one
    byte, or consumes two to four bytes none of which is ASCII. *)
Lemma DecodeRune_cases c s : decodeOK c s (DecodeRune (String c s)).
Proof.
  pose proof (byteZ_range c) as Hc.
  unfold DecodeRune, first.
  repeat match goal with
  | |- context [if ?b then _ else _] =>
      lazymatch b with
      | Z.ltb (byteZ c) _ => destruct b eqn:?
      | Z.eqb (byteZ c) _ => destruct b eqn:?
      end
  end.
  all: bool_hyps.
  all: cbn [Z.leb Z.compare Pos.compare Pos.compare_cont Z.testbit
            Pos.testbit].
  all: try (apply decodeOK_ascii; lia).
  all: try (apply decodeOK_error; lia).
  all: repeat match goal with
       | |- context [acceptRanges ?k] =>
           let v := eval vm_compute in (acceptRanges k) in
           change (acceptRanges k) with v
       | |- context [Z.land ?a 7] =>
           let v := eval vm_compute in (Z.land a 7) in
           change (Z.land a 7) with v
       end.
  all: cbv beta iota; unfold locb, hicb, byteAt, len.
  all: destruct s as [|c1 [|c2 [|c3 s]]];
         cbn [String.get String.length Z.of_nat Pos.of_succ_nat Pos.succ
              Z.ltb Z.leb Z.compare Pos.compare Pos.compare_cont].
  all: repeat match goal with
       | |- context [if ?b then _ else _] => destruct b eqn:?
       end.
  all: try (apply decodeOK_error; lia).
  all: bool_hyps.
  all: try (exfalso; lia).
  all: first [apply decodeOK_2; lia | apply decodeOK_3; lia
             | apply decodeOK_4; lia].
Qed.

Lemma DecodeRune_width c s :
  (1 <= (DecodeRune (String c s)).2 <= len (String c s))%nat.
Proof.
  destruct (DecodeRune_cases c s) as [[-> _]|[[-> _]|[H _]]];
    cbn [snd len String.length] in *; lia.
Qed.

(** The fuel of the encoder is never used up: any amount that covers the
    length of the string gives the same result. *)
Lemma escapeText_go_fuel n m b s :
  (len s <= n)%nat → (len s <= m)%nat →
  escapeText_go n b s = escapeText_go m b s.
Proof.
  revert m s. induction n as [|n IH]; intros m s Hn Hm.
  { destruct s; [by destruct m|cbn in Hn; lia]. }
  destruct s as [|c s]; [by destruct m|].
  destruct m as [|m]; [cbn in Hm; lia|].
  cbn [escapeText_go]. f_equal.
  pose proof (DecodeRune_width c s) as Hw.
  apply IH; rewrite len_sdrop; lia.
Qed.


Lemma allChars_impl (P Q : ascii → bool) s :
  (∀ c, P c = true → Q c = true) → allChars P s = true → allChars Q s = true.
Proof.
  intros HPQ. induction s as [|c s IH]; [done|]. cbn.
  rewrite !andb_true_iff. intros [? ?]; auto.
Qed.





Lemma escapeOf_cases r w :
  escapeOf true r w = None ∨ ∃ e, escapeOf true r w = Some e ∧ In e escapes.
Proof.
  unfold escapeOf.
  repeat match goal with
  | |- context [if ?b then _ else _] => destruct b
  end; first [by left | right; eexists; split; [reflexivity|cbn; tauto]].
Qed.










Lemma escapeText_go_cons n c s :
  escapeText_go (S n) true (String c s) =
  escapeChunk true (String c s) +:+
  escapeText_go n true (sdrop (DecodeRune (String c s)).2 (String c s)).
Proof. reflexivity. Qed.









(** C6: at the run with text a, newline, b the renderer writes one text
    element holding the newline as a character reference and no line-break
    marker; it does not write the two text segments around a line break
    that the text calls for. *)
Theorem C6_newline_run_renders_one_segment :
  let text := "a" +:+ String newline "b" in
  Run_ToXML (newTextRun text) =
    runOpen +:+ tOpen +:+ "a&#xA;b" +:+ tClose +:+ runClose ∧
  Run_ToXML (newTextRun text) ≠
    runOpen +:+ (tOpen +:+ "a" +:+ tClose) +:+ brXML +:+
    (tOpen +:+ "b" +:+ tClose) +:+ runClose.
Proof. split; [reflexivity|]. by vm_compute. Qed.


(* ===================================================================== *)
(** ** Tables                                                             *)
(* ===================================================================== *)









Lemma alignedFrom_refl cells h : alignedFrom cells h h.
Proof. intros l. by left. Qed.

Lemma alignedFrom_mono cells cells' h h' :
  cells ⊆ cells' → alignedFrom cells h h' → alignedFrom cells' h h'.
Proof.
  intros Hsub H l. destruct (H l) as [?|(? & cell & ? & ?)]; [by left|].
  right. split; [done|]. exists cell. split; [by apply Hsub|done].
Qed.

Lemma setAlign_Align a p : Paragraph.Align (Paragraph.setAlign a p) = a.
Proof. reflexivity. Qed.

Lemma alignedFrom_trans cells h1 h2 h3 :
  alignedFrom cells h1 h2 → alignedFrom cells h2 h3 → alignedFrom cells h1 h3.
Proof.
  intros H12 H23 l.
  destruct (H23 l) as [E23|(E2 & cell & ? & ? & ? & E23)].
  - rewrite E23. apply H12.
  - destruct (H12 l) as [E12|(E1 & cell' & ? & ? & Hne & E12)].
    + right. rewrite <- E12. split; [done|]. by exists cell.
    + rewrite E12, setAlign_Align in E2. done.
Qed.

Lemma nonEmpty_true s : nonEmpty s = true ↔ s ≠ "".
Proof.
  unfold nonEmpty. rewrite negb_true_iff. split.
  - intros H ->. done.
  - intros H. by apply String.eqb_neq.
Qed.

Lemma nonEmpty_false s : nonEmpty s = false ↔ s = "".
Proof.
  unfold nonEmpty. rewrite negb_false_iff. apply String.eqb_eq.
Qed.

Lemma heap_set_eq l p h : heap_set l p h l = p.
Proof. unfold heap_set. by rewrite Nat.eqb_refl. Qed.

Lemma heap_set_ne l l' p h : l' ≠ l → heap_set l p h l' = h l'.
Proof.
  intros Hne. unfold heap_set. by apply Nat.eqb_neq in Hne as ->.
Qed.

(** One pass of the alignment test on the paragraph at [l] of [cell]. *)
Lemma alignParagraph_alignedFrom cell l h :
  l ∈ TableCell.Paragraphs cell →
  alignedFrom [cell] h (alignParagraph (TableCell.Align cell) l h).
Proof.
  intros Hl l'. unfold alignParagraph.
  destruct (nonEmpty (TableCell.Align cell)) eqn:Ec; [|by left].
  destruct (nonEmpty (Paragraph.Align (h l))) eqn:Ep; [by left|].
  cbn [andb negb].
  destruct (decide (l' = l)) as [->|Hne].
  - right. apply nonEmpty_false in Ep. apply nonEmpty_true in Ec.
    split; [done|]. exists cell. rewrite heap_set_eq.
    repeat split; try done. set_solver.
  - left. by apply heap_set_ne.
Qed.

(** After the pass the paragraph has the alignment, when the cell has. *)
Lemma alignParagraph_aligned a l h :
  a ≠ "" → Paragraph.Align (alignParagraph a l h l) ≠ "".
Proof.
  intros Ha. unfold alignParagraph. apply nonEmpty_true in Ha as Ha'.
  rewrite Ha'. cbn [andb].
  destruct (nonEmpty (Paragraph.Align (h l))) eqn:Ep; cbn [negb].
  - by apply nonEmpty_true.
  - by rewrite heap_set_eq, setAlign_Align.
Qed.

(** An alignment, once there, stays. *)
Lemma alignedFrom_keeps cells h h' l :
  alignedFrom cells h h' →
  Paragraph.Align (h l) ≠ "" → Paragraph.Align (h' l) ≠ "".
Proof.
  intros H Hne. destruct (H l) as [->|[E _]]; done.
Qed.

Lemma renderCellParagraphs_alignedFrom cell ps h :
  ps ⊆ TableCell.Paragraphs cell →
  alignedFrom [cell] h (renderCellParagraphs (TableCell.Align cell) ps h).2.
Proof.
  revert h. induction ps as [|l ps IH]; intros h Hsub.
  { apply alignedFrom_refl. }
  cbn [renderCellParagraphs].
  set (h1 := alignParagraph (TableCell.Align cell) l h).
  specialize (IH h1).
  destruct (renderCellParagraphs (TableCell.Align cell) ps h1) as [s h2].
  cbn [snd] in *.
  apply (alignedFrom_trans _ _ h1).
  - apply alignParagraph_alignedFrom. set_solver.
  - apply IH. set_solver.
Qed.

Lemma renderCellParagraphs_aligned a ps h l :
  a ≠ "" → l ∈ ps →
  Paragraph.Align ((renderCellParagraphs a ps h).2 l) ≠ "".
Proof.
  intros Ha. revert h. induction ps as [|l0 ps IH]; intros h Hl.
  { by apply elem_of_nil in Hl. }
  cbn [renderCellParagraphs].
  set (h1 := alignParagraph a l0 h).
  pose proof (renderCellParagraphs_alignedFrom
                (TableCell.mk (l0 :: ps) 0 a "" "") ps h1) as Hk.
  cbn [TableCell.Align TableCell.Paragraphs] in Hk.
  specialize (IH h1).
  destruct (renderCellParagraphs a ps h1) as [s h2]. cbn [snd] in *.
  apply elem_of_cons in Hl as [->|Hl].
  - eapply alignedFrom_keeps; [apply Hk; set_solver|].
    by apply alignParagraph_aligned.
  - by apply IH.
Qed.

Lemma renderCell_alignedFrom cell h :
  alignedFrom [cell] h (renderCell cell h).2.
Proof.
  unfold renderCell.
  destruct (length (TableCell.Paragraphs cell) =? 0)%nat.
  { apply alignedFrom_refl. }
  pose proof (renderCellParagraphs_alignedFrom cell
                (TableCell.Paragraphs cell) h) as H.
  destruct (renderCellParagraphs _ _ h) as [s h1]. cbn [snd] in *.
  by apply H.
Qed.

Lemma renderCell_aligned cell h l :
  TableCell.Align cell ≠ "" → l ∈ TableCell.Paragraphs cell →
  Paragraph.Align ((renderCell cell h).2 l) ≠ "".
Proof.
  intros Ha Hl. unfold renderCell.
  destruct (length (TableCell.Paragraphs cell) =? 0)%nat eqn:E.
  { apply Nat.eqb_eq in E. destruct (TableCell.Paragraphs cell);
      [by apply elem_of_nil in Hl|done]. }
  pose proof (renderCellParagraphs_aligned (TableCell.Align cell)
                (TableCell.Paragraphs cell) h l Ha Hl) as H.
  by destruct (renderCellParagraphs _ _ h) as [s h1].
Qed.

Lemma renderCells_alignedFrom cells h :
  alignedFrom cells h (renderCells cells h).2.
Proof.
  revert h. induction cells as [|cell cells IH]; intros h.
  { apply alignedFrom_refl. }
  cbn [renderCells].
  pose proof (renderCell_alignedFrom cell h) as H1.
  destruct (renderCell cell h) as [s h1]. specialize (IH h1).
  destruct (renderCells cells h1) as [s' h2]. cbn [snd] in *.
  eapply alignedFrom_trans.
  - eapply alignedFrom_mono, H1. intros x Hx.
    apply list_elem_of_singleton in Hx as ->. apply elem_of_cons. by left.
  - eapply alignedFrom_mono, IH. intros x Hx. apply elem_of_cons. by right.
Qed.

Lemma renderCells_aligned cells h cell l :
  cell ∈ cells → TableCell.Align cell ≠ "" →
  l ∈ TableCell.Paragraphs cell →
  Paragraph.Align ((renderCells cells h).2 l) ≠ "".
Proof.
  intros Hc Ha Hl. revert h.
  induction cells as [|cell0 cells IH]; intros h.
  { by apply elem_of_nil in Hc. }
  cbn [renderCells].
  pose proof (renderCell_aligned cell0 h l) as H1.
  destruct (renderCell cell0 h) as [s h1].
  pose proof (renderCells_alignedFrom cells h1) as Hk.
  destruct (renderCells cells h1) as [s' h2] eqn:E. cbn [snd] in *.
  apply elem_of_cons in Hc as [->|Hc].
  - eapply alignedFrom_keeps; [apply Hk|]. by apply H1.
  - specialize (IH Hc h1). by rewrite E in IH.
Qed.

Lemma renderRows_alignedFrom rows h :
  alignedFrom (concat (map TableRow.Cells rows)) h (renderRows rows h).2.
Proof.
  revert h. induction rows as [|row rows IH]; intros h.
  { apply alignedFrom_refl. }
  cbn [renderRows map concat]. unfold renderRow.
  pose proof (renderCells_alignedFrom (TableRow.Cells row) h) as H1.
  destruct (renderCells (TableRow.Cells row) h) as [s h1].
  specialize (IH h1).
  destruct (renderRows rows h1) as [s' h2]. cbn [snd] in *.
  eapply alignedFrom_trans.
  - eapply alignedFrom_mono, H1. intros x Hx. apply elem_of_app. by left.
  - eapply alignedFrom_mono, IH. intros x Hx. apply elem_of_app. by right.
Qed.

Lemma renderRows_aligned rows h cell l :
  cell ∈ concat (map TableRow.Cells rows) → TableCell.Align cell ≠ "" →
  l ∈ TableCell.Paragraphs cell →
  Paragraph.Align ((renderRows rows h).2 l) ≠ "".
Proof.
  intros Hc Ha Hl. revert h.
  induction rows as [|row rows IH]; intros h.
  { by apply elem_of_nil in Hc. }
  cbn [renderRows map concat] in *. unfold renderRow.
  pose proof (renderCells_aligned (TableRow.Cells row) h cell l) as H1.
  destruct (renderCells (TableRow.Cells row) h) as [s h1].
  pose proof (renderRows_alignedFrom rows h1) as Hk.
  destruct (renderRows rows h1) as [s' h2] eqn:E. cbn [snd] in *.
  apply elem_of_app in Hc as [Hc|Hc].
  - eapply alignedFrom_keeps; [apply Hk|]. by apply H1.
  - specialize (IH Hc h1). by rewrite E in IH.
Qed.

Lemma Table_ToXML_heap t h : (Table_ToXML t h).2 = (renderRows (Table.Rows t) h).2.
Proof. unfold Table_ToXML. by destruct (renderRows (Table.Rows t) h). Qed.

(** C3 (as amended): the cell's alignment is given to a child paragraph
    only when the paragraph has none of its own, and this is done by the
    renderer: [Table.ToXML] writes the alignment of the cell into such a
    paragraph, leaves every paragraph that has an alignment as it is and
    changes nothing else; [AddParagraph] only appends the paragraph to the
    cell. *)
Theorem C3_alignment_defaulted_at_render (t : Table.t) (h : heap) :
  let h' := (Table_ToXML t h).2 in
  (∀ l, Paragraph.Align (h l) ≠ "" → h' l = h l) ∧
  (∀ l, h' l = h l ∨
        (Paragraph.Align (h l) = "" ∧
         ∃ cell, cell ∈ tableCells t ∧ l ∈ TableCell.Paragraphs cell ∧
                 TableCell.Align cell ≠ "" ∧
                 h' l = Paragraph.setAlign (TableCell.Align cell) (h l))) ∧
  (∀ cell l, cell ∈ tableCells t → l ∈ TableCell.Paragraphs cell →
             TableCell.Align cell ≠ "" → Paragraph.Align (h' l) ≠ "") ∧
  (∀ l c, TableCell_AddParagraph l c =
          TableCell.mk (TableCell.Paragraphs c ++ [l]) (TableCell.Width c)
                       (TableCell.Align c) (TableCell.VAlign c)
                       (TableCell.Shading c)).
Proof.
  intros h'. subst h'. rewrite Table_ToXML_heap.
  pose proof (renderRows_alignedFrom (Table.Rows t) h) as Hal.
  split; [|split; [|split]].
  - intros l Hne. destruct (Hal l) as [?|[E _]]; done.
  - exact Hal.
  - intros cell l Hc Hl Ha. by eapply renderRows_aligned.
  - reflexivity.
Qed.

(** C3, the claim as stated fails: rendering the one-cell centred table
    changes the alignment field of the paragraph attached to the cell. *)
Lemma C3_render_changes_alignment :
  centredCell ∈ tableCells centredTable ∧
  0%nat ∈ TableCell.Paragraphs centredCell ∧
  Paragraph.Align (emptyHeap 0%nat) = "" ∧
  Paragraph.Align ((Table_ToXML centredTable emptyHeap).2 0%nat) = "center" ∧
  Paragraph.Align ((Table_ToXML centredTable emptyHeap).2 0%nat) ≠
  Paragraph.Align (emptyHeap 0%nat).
Proof.
  split; [cbn; set_solver|]. split; [cbn; set_solver|].
  split; [reflexivity|]. split; [reflexivity|]. by vm_compute.
Qed.

(* ===================================================================== *)
(** ** The relationship registry                                          *)
(* ===================================================================== *)

Lemma int_wrap_small z : - 2 ^ 63 <= z < 2 ^ 63 → int_wrap z = z.
Proof.
  intros Hz. unfold int_wrap. rewrite Z.mod_small; lia.
Qed.

Lemma runOp_count op d :
  Document.imageCount (runOp op d).2 = int_wrap (Document.imageCount d + 1).
Proof. by destruct op. Qed.

Lemma runOp_id op d :
  (runOp op d).1 =
  "rId" +:+ fmt_d (int_wrap (int_wrap (Document.imageCount d + 1) +
                             idOffset op)).
Proof. by destruct op. Qed.

Lemma runOps_cons op ops d :
  runOps (op :: ops) d =
  ((runOp op d).1 :: (runOps ops (runOp op d).2).1,
   (runOps ops (runOp op d).2).2).
Proof.
  cbn [runOps]. destruct (runOp op d) as [rID d1]. cbn [fst snd].
  by destruct (runOps ops d1).
Qed.

Lemma idOffset_range op : 10 <= idOffset op <= 1000.
Proof. destruct op; cbn; lia. Qed.

(** The IDs of a run of calls, from any state of the counter that leaves
    room below the 64-bit limit. *)
Lemma runOps_ids ops d k op :
  0 <= Document.imageCount d →
  Document.imageCount d + Z.of_nat (length ops) < 2 ^ 63 - 1000 →
  ops !! k = Some op →
  (runOps ops d).1 !! k =
  Some ("rId" +:+ fmt_d (Document.imageCount d + Z.of_nat k + 1 + idOffset op)).
Proof.
  revert d k. induction ops as [|op0 ops IH]; intros d k H0 Hlt Hk; [done|].
  rewrite runOps_cons. cbn [fst length] in *.
  pose proof (idOffset_range op) as Hoff.
  pose proof (idOffset_range op0) as Hoff0.
  assert (int_wrap (Document.imageCount d + 1) = Document.imageCount d + 1)
    as Ew by (apply int_wrap_small; lia).
  destruct k as [|k].
  - injection Hk as ->. rewrite runOp_id, Ew, int_wrap_small by lia.
    cbn [lookup list_lookup]. do 3 f_equal. lia.
  - change ((runOps ops (runOp op0 d).2).1 !! k =
            Some ("rId" +:+
                  fmt_d (Document.imageCount d + Z.of_nat (S k) + 1 +
                         idOffset op))).
    change (ops !! k = Some op) in Hk.
    rewrite (IH (runOp op0 d).2 k); rewrite ?runOp_count, ?Ew; try done;
      try lia.
    do 3 f_equal. lia.
Qed.

Lemma runOps_length ops d : length (runOps ops d).1 = length ops.
Proof.
  revert d. induction ops as [|op ops IH]; intros d; [done|].
  rewrite runOps_cons. cbn. by rewrite IH.
Qed.

Lemma rId_inj a b : "rId" +:+ fmt_d a = "rId" +:+ fmt_d b → a = b.
Proof. intros H%(inj (String.app "rId")). by apply (inj pretty) in H. Qed.

(** Two separate counters and the shared one agree while one kind of call
    is made alone. *)
Lemma runOps_one_kind ops d n m (b : bool) :
  0 <= Document.imageCount d →
  Document.imageCount d + Z.of_nat (length ops) < 2 ^ 63 - 1000 →
  (∀ op, op ∈ ops → isImageOp op = b) →
  (if b then n else m) = Document.imageCount d →
  (runOps ops d).1 = disjointCounterIDs n m ops.
Proof.
  revert d n m. induction ops as [|op ops IH]; intros d n m H0 Hlt Hall E;
    [done|].
  rewrite runOps_cons. cbn [fst length] in *.
  assert (int_wrap (Document.imageCount d + 1) = Document.imageCount d + 1)
    as Ew by (apply int_wrap_small; lia).
  assert (isImageOp op = b) as Hb by (apply Hall; set_solver).
  rewrite runOp_id, Ew.
  destruct op as [data ct w h|target]; cbn in Hb; subst b;
    cbn [disjointCounterIDs idOffset isImageOp].
  - rewrite int_wrap_small by lia. f_equal; [do 2 f_equal; lia|].
    apply (IH _ _ _); rewrite ?runOp_count, ?Ew; try lia.
    intros op Hop. apply Hall. set_solver.
  - rewrite int_wrap_small by lia. f_equal; [do 2 f_equal; lia|].
    apply (IH _ _ _); rewrite ?runOp_count, ?Ew; try lia.
    intros op Hop. apply Hall. set_solver.
Qed.

(** C1 (as amended): both registrations advance one shared counter.  On a
    fresh document the k-th call overall, counted from 1, returns
    rId(k+10) when it registers an image and rId(k+1000) when it registers
    a hyperlink; two calls of the same kind never return the same ID; the
    IDs are rId11, rId12, ... or rId1001, rId1002, ... exactly as two
    separate counters would give them when calls of one kind only are
    made; up to 990 calls, no two calls at all return the same ID. *)
Theorem C1_ids_follow_one_shared_counter (cfg : Config.t)
  (ops : list RegOp) :
  Z.of_nat (length ops) < 2 ^ 63 - 1000 →
  let ids := (runOps ops (NewDocument cfg)).1 in
  length ids = length ops ∧
  (∀ k op, ops !! k = Some op →
           ids !! k = Some ("rId" +:+ fmt_d (Z.of_nat k + 1 + idOffset op))) ∧
  (∀ i j opi opj idi idj,
     (i < j)%nat → ops !! i = Some opi → ops !! j = Some opj →
     isImageOp opi = isImageOp opj →
     ids !! i = Some idi → ids !! j = Some idj → idi ≠ idj) ∧
  ((∀ op, op ∈ ops → isImageOp op = true) →
   ids = disjointCounterIDs 0 0 ops) ∧
  ((∀ op, op ∈ ops → isImageOp op = false) →
   ids = disjointCounterIDs 0 0 ops) ∧
  ((length ops <= 990)%nat → NoDup ids).
Proof.
  intros Hlen ids. subst ids.
  assert (∀ k op, ops !! k = Some op →
            (runOps ops (NewDocument cfg)).1 !! k =
            Some ("rId" +:+ fmt_d (Z.of_nat k + 1 + idOffset op))) as Hids.
  { intros k op Hk.
    rewrite (runOps_ids ops (NewDocument cfg) k op); cbn; try done; try lia. }
  split; [apply runOps_length|]. split; [exact Hids|].
  split; [|split; [|split]].
  - intros i j opi opj idi idj Hij Hi Hj Hkind Ei Ej.
    rewrite (Hids i opi Hi) in Ei. rewrite (Hids j opj Hj) in Ej.
    injection Ei as <-. injection Ej as <-.
    intros E%rId_inj. unfold idOffset in E. rewrite Hkind in E. lia.
  - intros Hall. by apply (runOps_one_kind ops _ 0 0 true).
  - intros Hall. by apply (runOps_one_kind ops _ 0 0 false).
  - intros Hshort. apply NoDup_alt. intros i j x Ei Ej.
    assert (is_Some (ops !! i)) as [opi Hi].
    { apply lookup_lt_is_Some. rewrite <- (runOps_length ops (NewDocument cfg)).
      by eapply lookup_lt_Some. }
    assert (is_Some (ops !! j)) as [opj Hj].
    { apply lookup_lt_is_Some. rewrite <- (runOps_length ops (NewDocument cfg)).
      by eapply lookup_lt_Some. }
    rewrite (Hids i opi Hi) in Ei. rewrite (Hids j opj Hj) in Ej.
    rewrite <- Ei in Ej. apply (inj Some) in Ej. apply rId_inj in Ej as E.
    apply lookup_lt_Some in Hi, Hj.
    unfold idOffset in E. destruct (isImageOp opi), (isImageOp opj); lia.
Qed.

Lemma C1_ids_follow_one_shared_counter_witness :
  Z.of_nat (length sampleOps) < 2 ^ 63 - 1000 ∧
  (length (runOps sampleOps (NewDocument sampleConfig)).1 =
     length sampleOps ∧
   (∀ k op, sampleOps !! k = Some op →
            (runOps sampleOps (NewDocument sampleConfig)).1 !! k =
            Some ("rId" +:+ fmt_d (Z.of_nat k + 1 + idOffset op))) ∧
   (∀ i j opi opj idi idj,
      (i < j)%nat → sampleOps !! i = Some opi → sampleOps !! j = Some opj →
      isImageOp opi = isImageOp opj →
      (runOps sampleOps (NewDocument sampleConfig)).1 !! i = Some idi →
      (runOps sampleOps (NewDocument sampleConfig)).1 !! j = Some idj →
      idi ≠ idj) ∧
   ((∀ op, op ∈ sampleOps → isImageOp op = true) →
    (runOps sampleOps (NewDocument sampleConfig)).1 =
    disjointCounterIDs 0 0 sampleOps) ∧
   ((∀ op, op ∈ sampleOps → isImageOp op = false) →
    (runOps sampleOps (NewDocument sampleConfig)).1 =
    disjointCounterIDs 0 0 sampleOps) ∧
   ((length sampleOps <= 990)%nat →
    NoDup (runOps sampleOps (NewDocument sampleConfig)).1)).
Proof.
  split; [by vm_compute|].
  apply (C1_ids_follow_one_shared_counter sampleConfig sampleOps).
  by vm_compute.
Defined.

(** C1, the claim as stated fails: with a hyperlink registered between two
    images the shared counter gives rId11, rId1002, rId13, where two
    separate counters would give rId11, rId1001, rId12. *)
Lemma C1_interleaved_ids_differ :
  (runOps sampleOps (NewDocument sampleConfig)).1 =
    ["rId11"; "rId1002"; "rId13"] ∧
  disjointCounterIDs 0 0 sampleOps = ["rId11"; "rId1001"; "rId12"] ∧
  (runOps sampleOps (NewDocument sampleConfig)).1 ≠
    disjointCounterIDs 0 0 sampleOps.
Proof. split; [by vm_compute|]. split; [by vm_compute|]. by vm_compute. Qed.

(** The bound of 990 calls is the best one: a hyperlink registered first
    and the image registered by the 991st call both get rId1001. *)
Lemma ids_collide_at_991_calls :
  let ops := OpHyperlink "u" :: replicate 990 (OpImage "" "image/png" 1 1) in
  (runOps ops (NewDocument sampleConfig)).1 !! 0%nat = Some "rId1001" ∧
  (runOps ops (NewDocument sampleConfig)).1 !! 990%nat = Some "rId1001".
Proof. by vm_compute. Qed.

Lemma imageExt_default ct :
  ct ≠ "image/jpeg" → ct ≠ "image/gif" → ct ≠ "image/svg+xml" →
  imageExt ct = ".png".
Proof.
  intros H1 H2 H3. unfold imageExt.
  apply String.eqb_neq in H1, H2, H3. by rewrite H1, H2, H3.
Qed.

(** C9: registering an image whose content type is none of the recognised
    ones returns a relationship ID like any other registration (the
    operation has no failure result), stores the image under the name
    image<N>.png and points the new relationship at media/image<N>.png. *)
Theorem C9_unknown_content_type_gets_png (d : Document.t)
  (data contentType : string) (width height : Z) :
  contentType ≠ "image/jpeg" → contentType ≠ "image/gif" →
  contentType ≠ "image/svg+xml" →
  let n := int_wrap (Document.imageCount d + 1) in
  let name := "image" +:+ fmt_d n +:+ ".png" in
  let rID := "rId" +:+ fmt_d (int_wrap (n + 10)) in
  let d' := (Document_AddImage data contentType width height d).2 in
  (Document_AddImage data contentType width height d).1 = rID ∧
  Document.images d' !! name =
    Some (ImageData.mk data contentType width height) ∧
  (∀ key, key ≠ name → Document.images d' !! key = Document.images d !! key) ∧
  Document.contentRels d' =
    Document.contentRels d ++
    [Relationship.mk rID imageRelType ("media/" +:+ name) ""] ∧
  Document.elements d' = Document.elements d.
Proof.
  intros H1 H2 H3 n name rID d'. subst n name rID d'.
  unfold Document_AddImage. rewrite (imageExt_default _ H1 H2 H3).
  cbn [fst snd Document.images Document.contentRels Document.elements].
  split; [done|]. split; [by rewrite lookup_insert_eq|].
  split; [|done]. intros key Hne. by rewrite lookup_insert_ne.
Qed.

Lemma C9_unknown_content_type_gets_png_witness :
  "application/x-unknown" ≠ "image/jpeg" ∧
  "application/x-unknown" ≠ "image/gif" ∧
  "application/x-unknown" ≠ "image/svg+xml" ∧
  (Document_AddImage "DATA" "application/x-unknown" 30 20
     (NewDocument sampleConfig)).1 = "rId11" ∧
  Document.images
    (Document_AddImage "DATA" "application/x-unknown" 30 20
       (NewDocument sampleConfig)).2 !! "image1.png" =
  Some (ImageData.mk "DATA" "application/x-unknown" 30 20).
Proof.
  split; [discriminate|]. split; [discriminate|]. split; [discriminate|].
  pose proof (C9_unknown_content_type_gets_png (NewDocument sampleConfig)
                "DATA" "application/x-unknown" 30 20) as H.
  destruct H as (Hid & Himg & _); [discriminate..|].
  split; [exact Hid|exact Himg].
Defined.







(* ===================================================================== *)
(** ** The style sheet                                                    *)
(* ===================================================================== *)








(* ===================================================================== *)
(** ** Saving                                                             *)
(* ===================================================================== *)

Lemma io_bind_inl {A B} (m : IO A) (k : A → IO B) s e s' :
  m s = (inl e, s') → (m ≫= k) s = (inl e, s').
Proof. unfold mbind, IO_bind, io_bind. by intros ->. Qed.




















(* ===================================================================== *)
(** ** The inline walker                                                  *)
(* ===================================================================== *)

Lemma HasPrefix_len s sub : HasPrefix s sub = true → (len sub <= len s)%nat.
Proof.
  unfold len. revert s. induction sub as [|c sub IH]; intros s H; [cbn; lia|].
  destruct s as [|c' s]; [done|]. cbn in H.
  apply andb_true_iff in H as [_ H]. apply IH in H. cbn. lia.
Qed.

Lemma Index_bound s sub i :
  Index s sub = Some i → (i + len sub <= len s)%nat.
Proof.
  revert i. induction s as [|c s IH]; intros i; cbn [Index].
  - destruct (HasPrefix "" sub) eqn:E; [|done].
    intros [= <-]. by apply HasPrefix_len in E.
  - destruct (HasPrefix (String c s) sub) eqn:E.
    + intros [= <-]. by apply HasPrefix_len in E.
    + destruct (Index s sub) as [j|]; [|done]. cbn. intros [= <-].
      specialize (IH j eq_refl). unfold len in *. cbn [String.length]. lia.
Qed.

(** The fuel of the formula loop is never used up: every round moves
    [start] forward and [start] stays within the text. *)
Lemma formulaLoop_fuel env f1 f2 text start b i p c :
  (start <= len text)%nat →
  (len text - start < f1)%nat → (len text - start < f2)%nat →
  formulaLoop env f1 text start b i p c =
  formulaLoop env f2 text start b i p c.
Proof.
  revert f2 start p c.
  induction f1 as [|f1 IH]; intros f2 start p c Hs H1 H2; [lia|].
  destruct f2 as [|f2]; [lia|]. cbn [formulaLoop].
  destruct (Index (sdrop start text) "$") as [idx|] eqn:Ei; [|done].
  apply Index_bound in Ei. rewrite len_sdrop in Ei.
  change (len "$") with 1%nat in Ei.
  destruct (_ && _).
  { apply IH; lia. }
  destruct (Index (sdrop (start + idx + 1) text) "$") as [endIdx|] eqn:Ee;
    [|done].
  apply Index_bound in Ee. rewrite len_sdrop in Ee.
  change (len "$") with 1%nat in Ee.
  destruct (RenderMathJax env _ false) as [img|].
  - destruct (getImageDimensions env img) as [w h].
    destruct (Document_AddImage _ _ _ _ _) as [rID d1].
    apply IH; lia.
  - apply IH; lia.
Qed.

Lemma isLink_AddRun text p : isLink (AddRun text p) = isLink p.
Proof. by destruct p. Qed.

Lemma isLink_AddImageRun rel w h p : isLink (AddImageRun rel w h p) = isLink p.
Proof. by destruct p. Qed.

Lemma isLink_updateLastRun f p : isLink (updateLastRun f p) = isLink p.
Proof. by destruct p. Qed.

Lemma isLink_addStyledRun text b i p :
  isLink (addStyledRun text b i p) = isLink p.
Proof.
  unfold addStyledRun. by rewrite isLink_updateLastRun, isLink_AddRun.
Qed.

Lemma formulaLoop_kind env fuel text start b i p c :
  isLink (formulaLoop env fuel text start b i p c).1.2 = isLink p.
Proof.
  revert start p c. induction fuel as [|fuel IH]; intros start p c; [done|].
  cbn [formulaLoop].
  destruct (Index (sdrop start text) "$") as [idx|]; [|done].
  destruct (_ && _).
  { by rewrite IH, isLink_addStyledRun. }
  destruct (Index (sdrop (start + idx + 1) text) "$") as [endIdx|]; [|done].
  destruct (RenderMathJax env _ false) as [img|].
  - destruct (getImageDimensions env img) as [w h].
    destruct (Document_AddImage _ _ _ _ _) as [rID d1].
    rewrite IH, isLink_AddImageRun.
    destruct (_ <? _)%nat; by rewrite ?isLink_addStyledRun.
  - rewrite IH, isLink_addStyledRun.
    destruct (_ <? _)%nat; by rewrite ?isLink_addStyledRun.
Qed.

Lemma processTextWithInlineFormulas_kind env text b i s :
  keepsKind (fun p c => processTextWithInlineFormulas env text p b i s c).
Proof.
  intros p c. unfold processTextWithInlineFormulas.
  pose proof (formulaLoop_kind env (S (len text)) text 0 b i p c) as H.
  destruct (formulaLoop _ _ _ _ _ _ _ _) as [[start p1] c1].
  cbn [fst snd] in H.
  destruct (_ <? _)%nat; cbn [fst]; by rewrite ?isLink_addStyledRun.
Qed.

Lemma processImage_kind env src : keepsKind (processImage env src).
Proof.
  intros p c. unfold processImage.
  destruct (if HasPrefix src "http" then _ else _) as [[data ct]|]; [|done].
  destruct (getImageDimensions env data) as [w h].
  destruct (if _ <? w then _ else _) as [dw dh].
  destruct (Document_AddImage _ _ _ _ _) as [rID d1].
  cbn [fst]. by rewrite isLink_AddImageRun.
Qed.

Lemma forChildren_kind body children :
  Forall (fun child => keepsKind (body child)) children →
  keepsKind (forChildren body children).
Proof.
  induction 1 as [|child rest Hc _ IH]; intros p c; [done|].
  cbn [forChildren]. specialize (Hc p c).
  destruct (body child p c) as [p1 c1]. cbn [fst] in Hc.
  change (isLink (forChildren body rest p1 c1).1 = isLink p).
  by rewrite IH.
Qed.

(** The walker hands back the container it was given: a paragraph stays a
    paragraph and a link stays a link. *)
Lemma processInlineNode_kind env n :
  ∀ b i co s, keepsKind (fun p c => processInlineNode env n p b i co s c).
Proof.
  induction n as [text|level children IH|children IH|url children IH
                 |src children IH|children IH|children IH]
    using Node_induction; intros b i co s p c.
  - cbn [processInlineNode]. destruct co.
    + cbn [fst]. by rewrite isLink_updateLastRun, isLink_AddRun.
    + apply processTextWithInlineFormulas_kind.
  - cbn [processInlineNode]. apply forChildren_kind.
    eapply Forall_impl; [exact IH|]. intros child Hc. apply Hc.
  - cbn [processInlineNode]. apply forChildren_kind.
    eapply Forall_impl; [exact IH|]. intros child Hc. apply Hc.
  - cbn [processInlineNode]. destruct p as [para|link].
    + destruct (Document_AddHyperlink url (Converter.doc c)) as [rID d1].
      by destruct (forChildren _ _ _ _).
    + apply (forChildren_kind _ _ (Forall_impl _ _ _ IH
               (fun child Hc => Hc b i co s))).
  - apply processImage_kind.
  - cbn [processInlineNode]. apply forChildren_kind.
    eapply Forall_impl; [exact IH|]. intros child Hc. apply Hc.
  - done.
Qed.

Lemma styleLinkRun_spec r :
  Run.Underline (styleLinkRun r) = true ∧
  (Run.Color r = "" → Run.Color (styleLinkRun r) = "0563C1") ∧
  (Run.Color r ≠ "" → Run.Color (styleLinkRun r) = Run.Color r) ∧
  Run.Color (styleLinkRun r) ≠ "" ∧
  styleLinkRun r =
    Run.setUnderline true (Run.setColor (Run.Color (styleLinkRun r)) r).
Proof.
  unfold styleLinkRun. destruct (String.eqb_spec (Run.Color r) "") as [E|E].
  - repeat split; try done; try by destruct r.
  - repeat split; try done; try by destruct r.
Qed.

(** C7: when the walker meets a link inside a paragraph it first walks the
    children with the new link as their container, then passes once over
    the runs the link has collected; after that pass every run is
    underlined, every run that had no colour carries the link colour
    0563C1, and a run that had a colour keeps it.  The finished link is
    the last child of the paragraph. *)
Theorem C7_link_runs_get_link_style (env : Env) (url : string)
  (children : list Node) (para : Paragraph.t)
  (bold italic code strike : bool) (c : Converter.t) :
  ∃ (populated : Hyperlink.t) (final : list Run.t),
    (forChildren
       (fun child p' c' =>
          processInlineNode env child p' bold italic code strike c')
       children
       (InHyperlink
          (Hyperlink.mk (Document_AddHyperlink url (Converter.doc c)).1 []))
       (Converter.setDoc (Document_AddHyperlink url (Converter.doc c)).2 c)).1
    = InHyperlink populated ∧
    (processInlineNode env (AstLink url children) (InParagraph para)
                       bold italic code strike c).1 =
    InParagraph
      (Paragraph_appendChild
         (ChildHyperlink (Hyperlink.mk (Hyperlink.ID populated) final))
         para) ∧
    length final = length (Hyperlink.Runs populated) ∧
    ∀ k r, Hyperlink.Runs populated !! k = Some r →
      ∃ r', final !! k = Some r' ∧
            Run.Underline r' = true ∧
            (Run.Color r = "" → Run.Color r' = "0563C1") ∧
            (Run.Color r ≠ "" → Run.Color r' = Run.Color r) ∧
            r' = Run.setUnderline true (Run.setColor (Run.Color r') r).
Proof.
  cbn [processInlineNode].
  destruct (Document_AddHyperlink url (Converter.doc c)) as [rID d1].
  cbn [fst snd].
  set (body := fun child p' c' =>
                 processInlineNode env child p' bold italic code strike c').
  assert (keepsKind (forChildren body children)) as Hkind.
  { apply forChildren_kind, Forall_forall. intros child _.
    apply processInlineNode_kind. }
  specialize (Hkind (InHyperlink (Hyperlink.mk rID []))
                    (Converter.setDoc d1 c)).
  destruct (forChildren body children _ _) as [filled c2].
  cbn [fst isLink] in *.
  destruct filled as [?|populated]; [done|].
  exists populated, (map styleLinkRun (Hyperlink.Runs populated)).
  split; [done|]. split; [done|]. split; [by rewrite length_map|].
  intros k r Hk. exists (styleLinkRun r).
  split; [by rewrite list_lookup_fmap, Hk|].
  destruct (styleLinkRun_spec r) as (? & ? & ? & _ & ?). done.
Qed.

(* ===================================================================== *)
(** ** Further properties of the inline walker                            *)
(* ===================================================================== *)

Lemma forChildren_ext body1 body2 children :
  Forall (fun child => ∀ p c, body1 child p c = body2 child p c) children →
  ∀ p c, forChildren body1 children p c = forChildren body2 children p c.
Proof.
  induction 1 as [|child rest Hc _ IH]; intros p c; [done|].
  cbn [forChildren]. rewrite Hc. destruct (body2 child p c) as [p1 c1].
  apply IH.
Qed.

Lemma processInlineNode_strike env n :
  ∀ p b i co s1 s2 c,
    processInlineNode env n p b i co s1 c =
    processInlineNode env n p b i co s2 c.
Proof.
  induction n as [text|level children IH|children IH|url children IH
                 |src children IH|children IH|children IH]
    using Node_induction; intros p b i co s1 s2 c; cbn [processInlineNode];
    try done.
  - apply forChildren_ext. eapply Forall_impl; [exact IH|].
    intros child Hc p' c'. apply Hc.
  - apply forChildren_ext. eapply Forall_impl; [exact IH|].
    intros child Hc p' c'. apply Hc.
  - destruct p as [para|link].
    + destruct (Document_AddHyperlink url (Converter.doc c)) as [rID d1].
      rewrite (forChildren_ext
                 (fun child p' c' =>
                    processInlineNode env child p' b i co s1 c')
                 (fun child p' c' =>
                    processInlineNode env child p' b i co s2 c')); [done|].
      eapply Forall_impl; [exact IH|]. intros child Hc p' c'. apply Hc.
    + apply forChildren_ext. eapply Forall_impl; [exact IH|].
      intros child Hc p' c'. apply Hc.
Qed.

(** X1: the strike flag that the walker threads through the tree changes
    nothing: whatever its value, every node gives the same container and
    the same converter, and a strikethrough node is processed exactly as
    if its children stood in its place. *)
Theorem X1_walker_ignores_strike (env : Env) (n : Node)
  (children : list Node) (p : RunContainer)
  (bold italic code strike strike' : bool) (c : Converter.t) :
  processInlineNode env n p bold italic code strike c =
  processInlineNode env n p bold italic code strike' c ∧
  processInlineNode env (AstStrikethrough children) p bold italic code
                    strike c =
  forChildren
    (fun child p' c' =>
       processInlineNode env child p' bold italic code strike c')
    children p c.
Proof.
  split; [apply processInlineNode_strike|].
  cbn [processInlineNode]. apply forChildren_ext, Forall_forall.
  intros child _ p' c'. apply processInlineNode_strike.
Qed.

Lemma styleLinkRun_idem r : styleLinkRun (styleLinkRun r) = styleLinkRun r.
Proof.
  unfold styleLinkRun. destruct (String.eqb_spec (Run.Color r) "") as [E|E].
  - by destruct r.
  - cbn. apply String.eqb_neq in E. rewrite E. by destruct r.
Qed.

(** X2: the pass that closes the link case is idempotent: running it a
    second time over the runs of a link changes nothing, and it never
    touches the ID of the link or the number and order of its runs. *)
Theorem X2_link_pass_idempotent (link : Hyperlink.t) :
  styleLinkRuns (styleLinkRuns link) = styleLinkRuns link ∧
  Hyperlink.ID (styleLinkRuns link) = Hyperlink.ID link ∧
  map Run.Text (Hyperlink.Runs (styleLinkRuns link)) =
    map Run.Text (Hyperlink.Runs link).
Proof.
  unfold styleLinkRuns. cbn [Hyperlink.ID Hyperlink.Runs].
  split; [|split; [done|]].
  - f_equal. rewrite map_map. apply map_ext. intros r. apply styleLinkRun_idem.
  - rewrite map_map. apply map_ext. intros r. unfold styleLinkRun.
    by destruct (String.eqb _ _).
Qed.

Lemma mapLast_snoc {A} (f : A → A) l x : mapLast f (l ++ [x]) = l ++ [f x].
Proof. unfold mapLast. by rewrite reverse_snoc, reverse_involutive. Qed.

(** Adding a run and setting its bold and italic flags amounts to adding
    the run with these flags. *)
Lemma addStyledRun_paragraph text b i p :
  addStyledRun text b i (InParagraph p) =
  InParagraph
    (Paragraph_appendChild (ChildRun (newFormattedRun text b i false)) p).
Proof.
  unfold addStyledRun, AddRun, updateLastRun, Paragraph_AddRun,
    Paragraph_appendChild.
  cbn [Paragraph.Children Paragraph.setChildren]. by rewrite mapLast_snoc.
Qed.

Lemma addStyledRun_hyperlink text b i h :
  addStyledRun text b i (InHyperlink h) =
  InHyperlink
    (Hyperlink.mk (Hyperlink.ID h)
       (Hyperlink.Runs h ++ [newFormattedRun text b i false])).
Proof.
  unfold addStyledRun, AddRun, updateLastRun, Hyperlink_AddRun.
  cbn [Hyperlink.ID Hyperlink.Runs]. by rewrite mapLast_snoc.
Qed.

Lemma Index_None s sub : Index s sub = None ↔ Contains s sub = false.
Proof.
  induction s as [|c s IH]; cbn [Index Contains].
  - destruct (HasPrefix "" sub); [|by rewrite orb_false_r].
    split; discriminate.
  - destruct (HasPrefix (String c s) sub); cbn [orb]; [split; discriminate|].
    rewrite <- IH. destruct (Index s sub); cbn; split; done.
Qed.

(** X3: a text without a dollar sign becomes exactly one run with the
    whole text and the bold and italic flags of the context, added at the
    end of the container; an empty text adds nothing.  No formula is
    rendered and the converter is left as it was. *)
Theorem X3_text_without_dollar_is_one_run (env : Env) (text : string)
  (p : RunContainer) (bold italic strike : bool) (c : Converter.t) :
  Contains text "$" = false →
  processTextWithInlineFormulas env text p bold italic strike c =
  (match text, p with
   | EmptyString, _ => p
   | _, InParagraph para =>
       InParagraph
         (Paragraph_appendChild
            (ChildRun (newFormattedRun text bold italic false)) para)
   | _, InHyperlink link =>
       InHyperlink
         (Hyperlink.mk (Hyperlink.ID link)
            (Hyperlink.Runs link ++ [newFormattedRun text bold italic false]))
   end, c).
Proof.
  intros Hno. apply Index_None in Hno.
  unfold processTextWithInlineFormulas. cbn [formulaLoop sdrop].
  rewrite Hno. destruct text as [|ch text]; [done|].
  cbn [len String.length Nat.ltb Nat.leb].
  destruct p; by rewrite ?addStyledRun_paragraph, ?addStyledRun_hyperlink.
Qed.

Lemma X3_text_without_dollar_is_one_run_witness :
  Contains "plain text" "$" = false ∧
  processTextWithInlineFormulas
    (mkEnv (fun _ _ => None) (fun _ => None) (fun _ => None)
           (fun _ => None) (fun _ => None) (fun _ => "") (fun h _ _ => h))
    "plain text" (InParagraph (NewParagraph "")) true false false
    (Converter.mk sampleConfig (NewDocument sampleConfig)) =
  (InParagraph
     (Paragraph_appendChild
        (ChildRun (newFormattedRun "plain text" true false false))
        (NewParagraph "")),
   Converter.mk sampleConfig (NewDocument sampleConfig)).
Proof.
  split; [reflexivity|].
  apply (X3_text_without_dollar_is_one_run _ "plain text"
           (InParagraph (NewParagraph ""))).
  reflexivity.
Defined.

(** X4: the run made for the text of a code span always has the code flag,
    a font name that is not empty and a size that is not zero: the
    configured font and size when they are set, Consolas and 10.5 points
    otherwise; its colour is the configured one without a leading [#], or
    is left alone when none is configured.  Text and the other flags are
    those of the run it starts from. *)
Theorem X4_code_run_has_font_and_size (cfg : Config.t) (r : Run.t) :
  let code := Styles.Code (Config.Styles cfg) in
  let r' := codeRunStyle cfg r in
  Run.IsCode r' = true ∧
  Run.FontName r' ≠ "" ∧
  Run.FontName r' =
    (if String.eqb (StyleConfig.Font code) "" then "Consolas"
     else StyleConfig.Font code) ∧
  Qeq_bool (Run.FontSize r') 0 = false ∧
  Run.FontSize r' =
    (if Qeq_bool (StyleConfig.Size code) 0 then (21 # 2)%Q
     else StyleConfig.Size code) ∧
  Run.Color r' =
    (if nonEmpty (StyleConfig.Color code)
     then TrimPrefix (StyleConfig.Color code) "#" else Run.Color r) ∧
  Run.Text r' = Run.Text r ∧ Run.Bold r' = Run.Bold r ∧
  Run.Italic r' = Run.Italic r ∧ Run.Underline r' = Run.Underline r ∧
  Run.Strike r' = Run.Strike r ∧ Run.IsImage r' = Run.IsImage r.
Proof.
  intros code r'. subst code r'. unfold codeRunStyle.
  cbn [Run.FontName Run.FontSize Run.setIsCode Run.setFontName
       Run.setFontSize].
  destruct (String.eqb_spec (StyleConfig.Font (Styles.Code (Config.Styles cfg))) "")
    as [Ef|Ef];
  destruct (Qeq_bool (StyleConfig.Size (Styles.Code (Config.Styles cfg))) 0)
    eqn:Es;
  destruct (nonEmpty (StyleConfig.Color (Styles.Code (Config.Styles cfg))));
  cbn; rewrite ?Es; repeat split; done.
Qed.

Lemma containerExtends_refl p : containerExtends p p.
Proof.
  destruct p as [a|a]; exists []; cbn; rewrite app_nil_r; by destruct a.
Qed.

Lemma containerExtends_trans p1 p2 p3 :
  containerExtends p1 p2 → containerExtends p2 p3 → containerExtends p1 p3.
Proof.
  destruct p1 as [a|a], p2 as [b|b], p3 as [c|c]; cbn; try done.
  - intros [x ->] [y ->]. exists (x ++ y). cbn. by rewrite app_assoc.
  - intros [x ->] [y ->]. exists (x ++ y). cbn. by rewrite app_assoc.
Qed.

Lemma documentExtends_refl d : documentExtends d d.
Proof. repeat split; try done. exists []. by rewrite app_nil_r. Qed.

Lemma documentExtends_trans d1 d2 d3 :
  documentExtends d1 d2 → documentExtends d2 d3 → documentExtends d1 d3.
Proof.
  intros (? & ? & ? & [x Hx] & ?) (? & ? & ? & [y Hy] & ?).
  repeat split; try congruence.
  - exists (x ++ y). by rewrite Hy, Hx, app_assoc.
  - by etrans.
Qed.

Lemma documentExtends_AddImage data ct w h d :
  documentExtends d (Document_AddImage data ct w h d).2.
Proof.
  unfold Document_AddImage, documentExtends.
  cbn [snd Document.config Document.elements Document.rels
       Document.contentRels Document.images].
  repeat split; try done.
  - by eexists.
  - apply dom_insert_subseteq.
Qed.

Lemma documentExtends_AddHyperlink target d :
  documentExtends d (Document_AddHyperlink target d).2.
Proof.
  unfold Document_AddHyperlink. cbn. repeat split; try done. by eexists.
Qed.

Lemma containerExtends_addStyledRun text b i p :
  containerExtends p (addStyledRun text b i p).
Proof.
  destruct p as [a|a].
  - rewrite addStyledRun_paragraph. by eexists.
  - rewrite addStyledRun_hyperlink. by eexists.
Qed.

Lemma containerExtends_AddImageRun rel w h p :
  containerExtends p (AddImageRun rel w h p).
Proof. destruct p as [a|a]; by eexists. Qed.

Lemma onlyAppends_id : onlyAppends (fun p c => (p, c)).
Proof.
  intros p c. cbn.
  split; [apply containerExtends_refl|]. split; [done|].
  apply documentExtends_refl.
Qed.

Lemma onlyAppends_compose f g :
  onlyAppends f → onlyAppends g →
  onlyAppends (fun p c => g (f p c).1 (f p c).2).
Proof.
  intros Hf Hg p c. destruct (Hf p c) as (H1 & H2 & H3).
  destruct (Hg (f p c).1 (f p c).2) as (G1 & G2 & G3).
  split; [by eapply containerExtends_trans|]. split; [congruence|].
  by eapply documentExtends_trans.
Qed.

Lemma formulaLoop_onlyAppends env fuel text start b i p c :
  let r := formulaLoop env fuel text start b i p c in
  containerExtends p r.1.2 ∧
  Converter.config r.2 = Converter.config c ∧
  documentExtends (Converter.doc c) (Converter.doc r.2).
Proof.
  revert start p c. induction fuel as [|fuel IH]; intros start p c.
  { apply (onlyAppends_id p c). }
  cbn [formulaLoop].
  destruct (Index (sdrop start text) "$") as [idx|];
    [|apply (onlyAppends_id p c)].
  destruct (_ && _).
  { destruct (IH (start + idx + 1)%nat
                 (addStyledRun
                    (slice text start (start + idx - 1) +:+ "$") b i p) c)
      as (H1 & H2 & H3).
    split; [|done].
    eapply containerExtends_trans, H1. apply containerExtends_addStyledRun. }
  destruct (Index (sdrop (start + idx + 1) text) "$") as [endIdx|];
    [|apply (onlyAppends_id p c)].
  set (p1 := if (start <? start + idx)%nat then _ else p).
  assert (containerExtends p p1) as Hp1.
  { subst p1. destruct (_ <? _)%nat;
      [apply containerExtends_addStyledRun|apply containerExtends_refl]. }
  destruct (RenderMathJax env _ false) as [img|].
  - destruct (getImageDimensions env img) as [w h].
    pose proof (documentExtends_AddImage img "image/png" w h
                  (Converter.doc c)) as Hd.
    destruct (Document_AddImage _ _ _ _ _) as [rID d1]. cbn [snd] in Hd.
    destruct (IH (start + idx + 1 + endIdx + 1)%nat
                 (AddImageRun rID (pxToEMU w) (pxToEMU h) p1)
                 (Converter.setDoc d1 c)) as (H1 & H2 & H3).
    split; [|split; [done|]].
    + eapply containerExtends_trans, H1.
      eapply containerExtends_trans, containerExtends_AddImageRun. done.
    + eapply documentExtends_trans, H3. done.
  - destruct (IH (start + idx + 1 + endIdx + 1)%nat
                 (addStyledRun ("$" +:+ slice text (start + idx + 1)
                                  (start + idx + 1 + endIdx) +:+ "$") b i p1)
                 c) as (H1 & H2 & H3).
    split; [|done].
    eapply containerExtends_trans, H1.
    eapply containerExtends_trans, containerExtends_addStyledRun. done.
Qed.

Lemma processTextWithInlineFormulas_onlyAppends env text b i s :
  onlyAppends (fun p c => processTextWithInlineFormulas env text p b i s c).
Proof.
  intros p c. unfold processTextWithInlineFormulas.
  pose proof (formulaLoop_onlyAppends env (S (len text)) text 0 b i p c) as H.
  destruct (formulaLoop _ _ _ _ _ _ _ _) as [[start p1] c1].
  cbn [fst snd] in H. destruct H as (H1 & H2 & H3).
  destruct (_ <? _)%nat; cbn [fst snd]; split; try done.
  eapply containerExtends_trans, containerExtends_addStyledRun. done.
Qed.

Lemma processImage_onlyAppends env src : onlyAppends (processImage env src).
Proof.
  intros p c. unfold processImage.
  destruct (if HasPrefix src "http" then _ else _) as [[data ct]|];
    [|apply (onlyAppends_id p c)].
  destruct (getImageDimensions env data) as [w h].
  destruct (if _ <? w then _ else _) as [dw dh].
  match goal with
  | |- context [Document_AddImage data ?ct' w h _] =>
      pose proof (documentExtends_AddImage data ct' w h (Converter.doc c))
        as Hd
  end.
  destruct (Document_AddImage _ _ _ _ _) as [rID d1]. cbn [fst snd] in *.
  split; [apply containerExtends_AddImageRun|done].
Qed.

Lemma forChildren_onlyAppends body children :
  Forall (fun child => onlyAppends (body child)) children →
  onlyAppends (forChildren body children).
Proof.
  induction 1 as [|child rest Hc _ IH]; [apply onlyAppends_id|].
  intros p c. cbn [forChildren].
  pose proof (onlyAppends_compose _ _ Hc IH p c) as H. cbn beta in H.
  by destruct (body child p c).
Qed.

Lemma codeRun_onlyAppends cfg text p :
  containerExtends p (updateLastRun (codeRunStyle cfg) (AddRun text p)).
Proof.
  destruct p as [a|a]; cbn.
  - unfold Paragraph_AddRun, Paragraph_appendChild. cbn.
    rewrite mapLast_snoc. by eexists.
  - rewrite mapLast_snoc. by eexists.
Qed.

Lemma processInlineNode_onlyAppends env n :
  ∀ b i co s, onlyAppends (fun p c => processInlineNode env n p b i co s c).
Proof.
  induction n as [text|level children IH|children IH|url children IH
                 |src children IH|children IH|children IH]
    using Node_induction; intros b i co s.
  - intros p c. cbn [processInlineNode]. destruct co.
    + cbn [fst snd]. split; [apply codeRun_onlyAppends|].
      split; [done|apply documentExtends_refl].
    + apply processTextWithInlineFormulas_onlyAppends.
  - cbn [processInlineNode]. apply forChildren_onlyAppends.
    eapply Forall_impl; [exact IH|]. intros child Hc. apply Hc.
  - cbn [processInlineNode]. apply forChildren_onlyAppends.
    eapply Forall_impl; [exact IH|]. intros child Hc. apply Hc.
  - intros p c. cbn [processInlineNode]. destruct p as [para|link].
    + pose proof (documentExtends_AddHyperlink url (Converter.doc c)) as Hd.
      destruct (Document_AddHyperlink url (Converter.doc c)) as [rID d1].
      cbn [snd] in Hd.
      assert (onlyAppends
                (forChildren
                   (fun child p' c' =>
                      processInlineNode env child p' b i co s c') children))
        as Hch.
      { apply forChildren_onlyAppends.
        eapply Forall_impl; [exact IH|]. intros child Hc. apply Hc. }
      destruct (Hch (InHyperlink (Hyperlink.mk rID []))
                    (Converter.setDoc d1 c)) as (_ & H2 & H3).
      destruct (forChildren _ _ _ _) as [filled c2]. cbn [fst snd] in *.
      split; [by eexists|]. split; [done|].
      by eapply documentExtends_trans.
    + apply (forChildren_onlyAppends _ _
               (Forall_impl _ _ _ IH (fun child Hc => Hc b i co s))).
  - apply processImage_onlyAppends.
  - cbn [processInlineNode]. apply forChildren_onlyAppends.
    eapply Forall_impl; [exact IH|]. intros child Hc. apply Hc.
  - apply onlyAppends_id.
Qed.

(** X5: walking inline nodes only appends.  The container keeps the
    children it had, in place and unchanged, and gets new ones after
    them; the document keeps its configuration, its elements and the
    relationships it had, gets new relationships after them, and loses no
    image; no element is ever added to the document by the inline
    walker. *)
Theorem X5_inline_walker_only_appends (env : Env) (children : list Node)
  (p : RunContainer) (c : Converter.t) :
  let r := processInlineNodes env children p c in
  containerExtends p r.1 ∧
  Converter.config r.2 = Converter.config c ∧
  Document.elements (Converter.doc r.2) =
    Document.elements (Converter.doc c) ∧
  (∃ added,
     Document.contentRels (Converter.doc r.2) =
     Document.contentRels (Converter.doc c) ++ added) ∧
  dom (Document.images (Converter.doc c)) ⊆
    dom (Document.images (Converter.doc r.2)).
Proof.
  intros r. subst r. unfold processInlineNodes.
  assert (onlyAppends
            (forChildren
               (fun child p' c' =>
                  processInlineNode env child p' false false false false c')
               children)) as H.
  { apply forChildren_onlyAppends, Forall_forall. intros child _.
    apply processInlineNode_onlyAppends. }
  destruct (H p c) as (H1 & H2 & H3 & H4 & H5 & H6 & H7). done.
Qed.

(* ===================================================================== *)
(** ** Further properties of the text encoder                             *)
(* ===================================================================== *)

Lemma DecodeRune_ascii c s :
  isAscii c = true → DecodeRune (String c s) = (byteZ c, 1%nat).
Proof.
  unfold isAscii. intros H. unfold DecodeRune, first. by rewrite H.
Qed.

Lemma EscapeText_ascii_cons c s :
  isAscii c = true →
  EscapeText (String c s) =
  match escapeOf true (byteZ c) 1 with
  | Some esc => esc
  | None => String c ""
  end +:+ EscapeText s.
Proof.
  intros H. unfold EscapeText. cbn [len String.length escapeText_go].
  unfold escapeChunk. by rewrite (DecodeRune_ascii c s H).
Qed.

Lemma EscapeText_app_ascii s1 s2 :
  allChars isAscii s1 = true →
  EscapeText (s1 +:+ s2) = EscapeText s1 +:+ EscapeText s2.
Proof.
  induction s1 as [|c s1 IH]; [done|]. intros [Hc Hs]%andb_true_iff.
  rewrite sapp_cons, !EscapeText_ascii_cons by done.
  by rewrite IH, sapp_assoc.
Qed.

Lemma escapeOf_safe c : safeChar c = true → escapeOf true (byteZ c) 1 = None.
Proof. by destruct c as [[] [] [] [] [] [] [] []]; vm_compute. Qed.

Lemma safeChar_ascii c : safeChar c = true → isAscii c = true.
Proof. unfold safeChar. rewrite !andb_true_iff. tauto. Qed.

(** X6: on a text whose first part is ASCII the encoder works part by
    part: the escaped concatenation is the concatenation of the escaped
    parts. *)
Theorem X6_escape_distributes_over_ascii_prefix (s1 s2 : string) :
  allChars isAscii s1 = true →
  XMLEscape (s1 +:+ s2) = XMLEscape s1 +:+ XMLEscape s2.
Proof. apply EscapeText_app_ascii. Qed.

Lemma X6_escape_distributes_over_ascii_prefix_witness :
  allChars isAscii "a < b: " = true ∧
  XMLEscape ("a < b: " +:+ "x&y") = XMLEscape "a < b: " +:+ XMLEscape "x&y".
Proof.
  split; [reflexivity|].
  apply (X6_escape_distributes_over_ascii_prefix "a < b: " "x&y").
  reflexivity.
Defined.

(** X7: a text made of printable ASCII bytes other than the two quotes,
    the ampersand and the angle brackets is written as it is. *)
Theorem X7_escape_keeps_safe_ascii (s : string) :
  allChars safeChar s = true → XMLEscape s = s.
Proof.
  unfold XMLEscape. induction s as [|c s IH]; [done|].
  intros [Hc Hs]%andb_true_iff.
  rewrite EscapeText_ascii_cons by (by apply safeChar_ascii).
  by rewrite (escapeOf_safe c Hc), IH.
Qed.

Lemma X7_escape_keeps_safe_ascii_witness :
  allChars safeChar "Hello, world (1 + 1 = 2)." = true ∧
  XMLEscape "Hello, world (1 + 1 = 2)." = "Hello, world (1 + 1 = 2).".
Proof.
  split; [reflexivity|].
  apply (X7_escape_keeps_safe_ascii "Hello, world (1 + 1 = 2).").
  reflexivity.
Defined.

(** What one round of the encoder writes: a reference, the ASCII byte it
    read, which then has no reference, or bytes none of which is ASCII. *)
Lemma escapeChunk_cases c s :
  let ch := escapeChunk true (String c s) in
  In ch escapes ∨
  (ch = String c "" ∧ isAscii c = true ∧
   escapeOf true (byteZ c) 1 = None) ∨
  allChars isHigh ch = true.
Proof.
  cbv zeta. unfold escapeChunk.
  destruct (DecodeRune_cases c s) as [[-> Hc]|[[-> Hc]|Hm]].
  - destruct (escapeOf true (byteZ c) 1) as [e|] eqn:E.
    + left. destruct (escapeOf_cases (byteZ c) 1) as [E'|(e' & E' & He)];
        congruence.
    + right; left. split; [done|]. split; [by apply Z.ltb_lt|done].
  - left. change (escapeOf true RuneError 1) with (Some escFFFD).
    cbn; tauto.
  - destruct (DecodeRune (String c s)) as [r w]. cbn [snd] in Hm.
    destruct (escapeOf_cases r w) as [->|(e & -> & He)]; [|by left].
    right; right. apply Hm.
Qed.

Lemma allChars_app P s t :
  allChars P (s +:+ t) = allChars P s && allChars P t.
Proof.
  induction s as [|c s IH]; [done|]. rewrite sapp_cons. cbn.
  by rewrite IH, andb_assoc.
Qed.

Lemma escapeText_go_allChars (Q : ascii → bool) :
  (∀ e, In e escapes → allChars Q e = true) →
  (∀ c, isHigh c = true → Q c = true) →
  (∀ c, isAscii c = true → escapeOf true (byteZ c) 1 = None → Q c = true) →
  ∀ n s, allChars Q (escapeText_go n true s) = true.
Proof.
  intros He Hh Ha. induction n as [|n IH]; intros s; [done|].
  destruct s as [|c s]; [done|]. rewrite escapeText_go_cons, allChars_app.
  rewrite IH, andb_true_r.
  destruct (escapeChunk_cases c s) as [H|[(-> & Hc & Hn)|H]].
  - by apply He.
  - cbn. by rewrite (Ha c Hc Hn).
  - eapply allChars_impl, H. exact Hh.
Qed.

(** X8: whatever the text, its escaped form holds no control byte (none
    below 0x20: tab, newline and carriage return included), no double
    quote, no apostrophe and no angle bracket. *)
Theorem X8_escaped_text_has_no_control_or_quote (s : string) :
  allChars dataByte (XMLEscape s) = true.
Proof.
  apply escapeText_go_allChars.
  - intros e He. cbn in He. repeat (destruct He as [<-|He]); done.
  - intros c. by destruct c as [[] [] [] [] [] [] [] []]; vm_compute.
  - intros c. by destruct c as [[] [] [] [] [] [] [] []]; vm_compute.
Qed.

(* ===================================================================== *)
(** ** Further properties of the registry and of saving                   *)
(* ===================================================================== *)

Lemma relTypes_differ : imageRelType ≠ hyperlinkRelType.
Proof. intros E. apply String.eqb_eq in E. by vm_compute in E. Qed.

Lemma registryConsistent_new cfg : registryConsistent (NewDocument cfg).
Proof.
  split.
  - intros key. cbn. rewrite lookup_empty. split.
    + by intros [? ?].
    + intros (rel & Hrel & _). by apply elem_of_nil in Hrel.
  - intros rel Hrel. by apply elem_of_nil in Hrel.
Qed.

Lemma registryConsistent_runOp op d :
  registryConsistent d → registryConsistent (runOp op d).2.
Proof.
  intros [Himg Hkind].
  destruct op as [data ct w h|target];
    cbn [runOp Document_AddImage Document_AddHyperlink snd]; split;
    cbn [Document.images Document.contentRels].
  - intros key. set (name := _ +:+ imageExt ct).
    destruct (decide (key = name)) as [->|Hne].
    + rewrite lookup_insert_eq. split; [|by eauto].
      intros _. eexists. split; [apply elem_of_app; right; by left|].
      done.
    + rewrite lookup_insert_ne by done. rewrite Himg. split.
      * intros (rel & Hrel & Ht). exists rel.
        split; [apply elem_of_app; by left|done].
      * intros (rel & Hrel & Hty & Hta).
        apply elem_of_app in Hrel as [Hrel|Hrel]; [by eauto|].
        apply list_elem_of_singleton in Hrel as ->. cbn in Hta.
        apply (inj (String.app "media/")) in Hta. congruence.
  - intros rel Hrel. apply elem_of_app in Hrel as [Hrel|Hrel]; [by auto|].
    apply list_elem_of_singleton in Hrel as ->. by left.
  - intros key. rewrite Himg. split.
    + intros (rel & Hrel & Ht). exists rel.
      split; [apply elem_of_app; by left|done].
    + intros (rel & Hrel & Hty & Hta).
      apply elem_of_app in Hrel as [Hrel|Hrel]; [by eauto|].
      apply list_elem_of_singleton in Hrel as ->. cbn in Hty.
      by destruct relTypes_differ.
  - intros rel Hrel. apply elem_of_app in Hrel as [Hrel|Hrel]; [by auto|].
    apply list_elem_of_singleton in Hrel as ->. by right.
Qed.

Lemma runOp_rels op d :
  Document.contentRels (runOp op d).2 =
  Document.contentRels d ++
  [Relationship.mk (runOp op d).1
     (if isImageOp op then imageRelType else hyperlinkRelType)
     (Relationship.Target
        (List.last (Document.contentRels (runOp op d).2)
                   (Relationship.mk "" "" "" "")))
     (if isImageOp op then "" else "External")].
Proof.
  destruct op; cbn [runOp Document_AddImage Document_AddHyperlink snd fst
                    Document.contentRels isImageOp];
    by rewrite last_last.
Qed.

Lemma runOps_registry ops d :
  registryConsistent d →
  registryConsistent (runOps ops d).2 ∧
  map Relationship.ID (Document.contentRels (runOps ops d).2) =
  map Relationship.ID (Document.contentRels d) ++ (runOps ops d).1.
Proof.
  revert d. induction ops as [|op ops IH]; intros d Hd.
  { cbn. by rewrite app_nil_r. }
  rewrite runOps_cons. cbn [fst snd].
  destruct (IH (runOp op d).2 (registryConsistent_runOp op d Hd)) as [H1 H2].
  split; [done|]. rewrite H2, runOp_rels, map_app, <- app_assoc. done.
Qed.

(** X9: after any sequence of registrations on a fresh document the
    registry is consistent: the relationships carry the returned IDs in
    call order, one per call; the file names in the map of images are
    exactly the [media/] targets of the image relationships; and every
    relationship is either an image relationship without target mode or
    a hyperlink relationship marked external. *)
Theorem X9_registry_stays_consistent (cfg : Config.t) (ops : list RegOp) :
  let r := runOps ops (NewDocument cfg) in
  map Relationship.ID (Document.contentRels r.2) = r.1 ∧
  length (Document.contentRels r.2) = length ops ∧
  (∀ key, is_Some (Document.images r.2 !! key) ↔
          ∃ rel, rel ∈ Document.contentRels r.2 ∧
                 Relationship.Type_ rel = imageRelType ∧
                 Relationship.Target rel = "media/" +:+ key) ∧
  (∀ rel, rel ∈ Document.contentRels r.2 →
          (Relationship.Type_ rel = imageRelType ∧
           Relationship.TargetMode rel = "") ∨
          (Relationship.Type_ rel = hyperlinkRelType ∧
           Relationship.TargetMode rel = "External")).
Proof.
  intros r. subst r.
  destruct (runOps_registry ops (NewDocument cfg)
              (registryConsistent_new cfg)) as [[H1 H2] H3].
  cbn [NewDocument Document.contentRels map app] in H3.
  split; [done|]. split; [|done].
  rewrite <- (length_map Relationship.ID), H3. apply runOps_length.
Qed.










(* ===================================================================== *)
(** ** Rendering a body more than once                                    *)
(* ===================================================================== *)

Lemma renderCellParagraphs_seq a ps h :
  renderCellParagraphs a ps h = renderSeq (renderCellParagraph a) ps h.
Proof.
  revert h. induction ps as [|l ps IH]; intros h; [done|].
  cbn [renderCellParagraphs renderSeq]. unfold renderCellParagraph at 1.
  by rewrite IH.
Qed.

Lemma renderCells_seq cells h :
  renderCells cells h = renderSeq renderCell cells h.
Proof.
  revert h. induction cells as [|c cells IH]; intros h; [done|].
  cbn [renderCells renderSeq]. destruct (renderCell c h). by rewrite IH.
Qed.

Lemma renderRows_seq rows h : renderRows rows h = renderSeq renderRow rows h.
Proof.
  revert h. induction rows as [|r rows IH]; intros h; [done|].
  cbn [renderRows renderSeq]. destruct (renderRow r h). by rewrite IH.
Qed.

Lemma renderElements_seq es h :
  renderElements es h = renderSeq Element_ToXML es h.
Proof.
  revert h. induction es as [|e es IH]; intros h; [done|].
  cbn [renderElements renderSeq]. destruct (Element_ToXML e h).
  by rewrite IH.
Qed.

Lemma renderSeq_cons {A} (F : A → heap → string * heap) x xs h :
  renderSeq F (x :: xs) h =
  ((F x h).1 +:+ (renderSeq F xs (F x h).2).1,
   (renderSeq F xs (F x h).2).2).
Proof.
  cbn [renderSeq]. destruct (F x h) as [s h1]. cbn [fst snd].
  by destruct (renderSeq F xs h1).
Qed.

(** *** The store settles *)

Lemma elem_of_concat_map {A B} (f : A → list B) (x : A) (xs : list A) y :
  x ∈ xs → y ∈ f x → y ∈ concat (map f xs).
Proof.
  induction xs as [|x' xs IH]; intros Hx Hy; [by apply elem_of_nil in Hx|].
  cbn [map concat]. apply elem_of_app. apply elem_of_cons in Hx as [->|Hx].
  - by left.
  - right. by apply IH.
Qed.


Lemma renderSeq_inert {A} (F : A → heap → string * heap) xs h :
  (∀ x, x ∈ xs → (F x h).2 = h) → (renderSeq F xs h).2 = h.
Proof.
  induction xs as [|x xs IH]; intros HF; [done|].
  rewrite renderSeq_cons. cbn [snd].
  rewrite (HF x) by (by left). apply IH. intros y Hy. apply HF. by right.
Qed.

Lemma alignParagraph_inert a l h :
  (a ≠ "" → Paragraph.Align (h l) ≠ "") → alignParagraph a l h = h.
Proof.
  intros H. unfold alignParagraph.
  destruct (nonEmpty a) eqn:Ea; [|done].
  apply nonEmpty_true in Ea. apply H, nonEmpty_true in Ea as ->. done.
Qed.

Lemma renderCell_inert cell h :
  settled [cell] h → (renderCell cell h).2 = h.
Proof.
  intros Hs. unfold renderCell.
  destruct (length (TableCell.Paragraphs cell) =? 0)%nat; [done|].
  destruct (renderCellParagraphs _ _ h) as [content h1] eqn:E.
  cbn [snd]. change h1 with (content, h1).2. rewrite <- E.
  rewrite renderCellParagraphs_seq. apply renderSeq_inert.
  intros l Hl. unfold renderCellParagraph. cbn [snd].
  apply alignParagraph_inert. intros Ha. apply (Hs cell); [by left|done..].
Qed.

Lemma settled_mono cells cells' h :
  cells ⊆ cells' → settled cells' h → settled cells h.
Proof. intros Hsub Hs cell l Hc. apply Hs. by apply Hsub. Qed.

Lemma renderRow_inert row h :
  settled (TableRow.Cells row) h → (renderRow row h).2 = h.
Proof.
  intros Hs. unfold renderRow.
  destruct (renderCells _ h) as [cells h1] eqn:E. cbn [snd].
  change h1 with (cells, h1).2. rewrite <- E, renderCells_seq.
  apply renderSeq_inert. intros cell Hc. apply renderCell_inert.
  eapply settled_mono, Hs. intros x Hx.
  apply list_elem_of_singleton in Hx as ->. done.
Qed.

Lemma Table_ToXML_inert t h :
  settled (tableCells t) h → (Table_ToXML t h).2 = h.
Proof.
  intros Hs. rewrite Table_ToXML_heap, renderRows_seq.
  apply renderSeq_inert. intros row Hr. apply renderRow_inert.
  eapply settled_mono, Hs. intros x Hx. unfold tableCells.
  by apply (elem_of_concat_map TableRow.Cells row).
Qed.

Lemma elementCells_cons e es :
  elementCells (e :: es) =
  match e with ElemParagraph _ => [] | ElemTable t => tableCells t end ++
  elementCells es.
Proof. reflexivity. Qed.

Lemma renderElements_inert es h :
  settled (elementCells es) h → (renderElements es h).2 = h.
Proof.
  intros Hs. rewrite renderElements_seq. apply renderSeq_inert.
  intros e He. destruct e as [p|t]; [done|]. cbn [Element_ToXML].
  apply Table_ToXML_inert. eapply settled_mono, Hs. intros x Hx.
  unfold elementCells.
  by apply (elem_of_concat_map _ (ElemTable t) es x He).
Qed.

Lemma Element_ToXML_alignedFrom e h :
  alignedFrom (elementCells [e]) h (Element_ToXML e h).2.
Proof.
  destruct e as [p|t]; [apply alignedFrom_refl|].
  cbn [Element_ToXML]. rewrite Table_ToXML_heap.
  unfold elementCells. cbn [map concat]. rewrite app_nil_r.
  apply renderRows_alignedFrom.
Qed.

Lemma renderElements_alignedFrom es h :
  alignedFrom (elementCells es) h (renderElements es h).2.
Proof.
  revert h. induction es as [|e es IH]; intros h; [apply alignedFrom_refl|].
  rewrite renderElements_seq, renderSeq_cons, <- renderElements_seq.
  cbn [snd]. eapply alignedFrom_trans.
  - eapply alignedFrom_mono, Element_ToXML_alignedFrom.
    rewrite elementCells_cons. unfold elementCells. cbn [map concat].
    rewrite app_nil_r. intros x Hx. apply elem_of_app. by left.
  - eapply alignedFrom_mono, IH. rewrite elementCells_cons.
    intros x Hx. apply elem_of_app. by right.
Qed.

Lemma renderElements_settled es h :
  settled (elementCells es) (renderElements es h).2.
Proof.
  revert h. induction es as [|e es IH]; intros h.
  { intros cell l Hc. by apply elem_of_nil in Hc. }
  rewrite renderElements_seq, renderSeq_cons, <- renderElements_seq.
  cbn [snd]. intros cell l Hc Hl Ha.
  rewrite elementCells_cons in Hc. apply elem_of_app in Hc as [Hc|Hc].
  - destruct e as [p|t]; [by apply elem_of_nil in Hc|].
    eapply alignedFrom_keeps; [apply renderElements_alignedFrom|].
    cbn [Element_ToXML]. rewrite Table_ToXML_heap.
    by eapply renderRows_aligned.
  - by apply (IH _ cell l).
Qed.

(** X11: one rendering of a body settles the store.  The first rendering
    changes a paragraph only by giving it the alignment of a cell that
    holds it; rendering the same elements again, any number of times and
    also when cells share paragraphs, leaves the store exactly as the first
    rendering left it. *)
Theorem X11_store_settles_after_one_render (es : list Element) (h : heap) :
  let h1 := (renderElements es h).2 in
  alignedFrom (elementCells es) h h1 ∧
  (renderElements es h1).2 = h1 ∧
  (∀ t, ElemTable t ∈ es → (Table_ToXML t h1).2 = h1).
Proof.
  intros h1. subst h1. split; [apply renderElements_alignedFrom|]. split.
  - apply renderElements_inert, renderElements_settled.
  - intros t Ht. apply Table_ToXML_inert.
    eapply settled_mono, renderElements_settled. intros x Hx.
    unfold elementCells.
    by apply (elem_of_concat_map _ (ElemTable t) es x Ht).
Qed.

(** *** The markup is repeatable when no paragraph is shared *)

Lemma repeatable_const s : repeatable [] (fun h => (s, h)).
Proof. repeat split; done. Qed.

(** A renderer that wraps the markup of another. *)
Lemma repeatable_wrap S f g (k : string → string) :
  (∀ h, g h = (k (f h).1, (f h).2)) → repeatable S f → repeatable S g.
Proof.
  intros Hg (Ha & Hb & Hc). split; [|split].
  - intros h h' Hag. rewrite !Hg. cbn [fst snd].
    destruct (Ha h h' Hag) as [-> ?]. done.
  - intros h l Hl. rewrite Hg. by apply Hb.
  - intros h. rewrite !Hg. cbn [fst snd]. destruct (Hc h) as [-> ?]. done.
Qed.

Lemma repeatable_seq {A} (F : A → heap → string * heap)
  (fp : A → list loc) xs :
  (∀ x, x ∈ xs → repeatable (fp x) (F x)) →
  NoDup (concat (map fp xs)) →
  repeatable (concat (map fp xs)) (renderSeq F xs).
Proof.
  induction xs as [|x xs IH]; intros HF Hnd; [apply repeatable_const|].
  cbn [map concat] in *. apply NoDup_app in Hnd as (Hnd1 & Hdis & Hnd2).
  destruct (HF x) as (Ha & Hb & Hc); [by left|].
  destruct IH as (Ia & Ib & Ic); [intros y Hy; apply HF; by right|done|].
  set (T := concat (map fp xs)) in *.
  assert (∀ l, l ∈ T → l ∉ fp x) as Hdis'.
  { intros l Hl Hl'. by apply (Hdis l). }
  split; [|split].
  - intros h h' Hag. rewrite !renderSeq_cons. cbn [fst snd].
    destruct (Ha h h') as [E1 Hag1].
    { intros l Hl. apply Hag, elem_of_app. by left. }
    destruct (Ia (F x h).2 (F x h').2) as [E2 Hag2].
    { intros l Hl. rewrite !Hb by by apply Hdis'.
      apply Hag, elem_of_app. by right. }
    split; [by rewrite E1, E2|].
    intros l Hl. apply elem_of_app in Hl as [Hl|Hl].
    + rewrite !Ib by by apply Hdis. by apply Hag1.
    + by apply Hag2.
  - intros h l Hl. rewrite renderSeq_cons. cbn [snd].
    rewrite Ib, Hb; [done|..]; intros Hin; apply Hl, elem_of_app; auto.
  - intros h. rewrite (renderSeq_cons F x xs h). cbn [snd].
    set (h1 := (F x h).2). set (h2 := (renderSeq F xs h1).2).
    rewrite (renderSeq_cons F x xs h2). cbn [fst snd].
    assert (agreeOn (fp x) h2 h1) as Hag21.
    { intros l Hl. unfold h2. apply Ib. by apply Hdis. }
    destruct (Ha h2 h1 Hag21) as [E1 Hag1].
    destruct (Hc h) as [E1' Hfix1]. fold h1 in E1', Hfix1.
    assert (agreeOn T (F x h2).2 h2) as HagT.
    { intros l Hl. apply Hb. by apply Hdis'. }
    destruct (Ia (F x h2).2 h2 HagT) as [E2 Hag2].
    destruct (Ic h1) as [E2' Hfix2]. fold h2 in E2', Hfix2.
    split; [by rewrite E1, E1', E2, E2'|].
    intros l. destruct (decide (l ∈ T)) as [Hl|Hl].
    + rewrite (Hag2 l Hl). apply Hfix2.
    + rewrite Ib by done. destruct (decide (l ∈ fp x)) as [Hx|Hx].
      * rewrite (Hag1 l Hx), Hfix1. symmetry. by apply Hag21.
      * by apply Hb.
Qed.

Lemma repeatable_renderCellParagraph a l :
  repeatable [l] (renderCellParagraph a l).
Proof.
  unfold renderCellParagraph. split; [|split]; cbn [fst snd].
  - intros h h' Hag.
    assert (h l = h' l) as E by (apply Hag; by left).
    assert (alignParagraph a l h l = alignParagraph a l h' l) as E'.
    { unfold alignParagraph. rewrite E.
      destruct (nonEmpty a && negb (nonEmpty (Paragraph.Align (h' l))));
        [by rewrite !heap_set_eq|done]. }
    split; [by rewrite E'|].
    intros l' Hl'. apply list_elem_of_singleton in Hl' as ->. done.
  - intros h l' Hl'. unfold alignParagraph.
    destruct (nonEmpty a && negb (nonEmpty (Paragraph.Align (h l))));
      [|done].
    apply heap_set_ne. intros ->. apply Hl'. by left.
  - intros h.
    assert (alignParagraph a l (alignParagraph a l h) = alignParagraph a l h)
      as ->; [|done].
    apply alignParagraph_inert. intros Ha. by apply alignParagraph_aligned.
Qed.

Lemma repeatable_renderCell cell :
  NoDup (TableCell.Paragraphs cell) →
  repeatable (TableCell.Paragraphs cell) (renderCell cell).
Proof.
  intros Hnd. unfold renderCell.
  destruct (TableCell.Paragraphs cell) as [|l ps] eqn:E.
  - cbn [length Nat.eqb]. apply repeatable_const.
  - cbn [length Nat.eqb]. rewrite <- E in *.
    assert (concat (map (fun l => [l]) (TableCell.Paragraphs cell)) =
            TableCell.Paragraphs cell) as Efp.
    { clear. induction (TableCell.Paragraphs cell) as [|x xs IH]; [done|].
      cbn [map concat]. by rewrite IH. }
    rewrite <- Efp at 1.
    eapply (repeatable_wrap _
              (renderSeq (renderCellParagraph (TableCell.Align cell))
                         (TableCell.Paragraphs cell))
              _ (fun content => tcOpen +:+ tcPrXML cell +:+ tcPrClose +:+
                                content +:+ tcClose)).
    + intros h. rewrite renderCellParagraphs_seq.
      by destruct (renderSeq _ _ h).
    + apply repeatable_seq; [|by rewrite Efp].
      intros x _. apply repeatable_renderCellParagraph.
Qed.

Lemma NoDup_concat_map {A B} (f : A → list B) x xs :
  x ∈ xs → NoDup (concat (map f xs)) → NoDup (f x).
Proof.
  induction xs as [|y xs IH]; intros Hx Hnd; [by apply elem_of_nil in Hx|].
  cbn [map concat] in Hnd. apply NoDup_app in Hnd as (H1 & _ & H2).
  apply elem_of_cons in Hx as [->|Hx]; [done|by apply IH].
Qed.

Lemma repeatable_renderRow row :
  NoDup (cellParagraphs (TableRow.Cells row)) →
  repeatable (cellParagraphs (TableRow.Cells row)) (renderRow row).
Proof.
  intros Hnd. unfold cellParagraphs in *.
  eapply (repeatable_wrap _ (renderSeq renderCell (TableRow.Cells row)) _
            (fun cells => trOpen +:+
               (if TableRow.IsHeader row then tblHeaderXML else "") +:+
               cells +:+ trClose)).
  - intros h. unfold renderRow. rewrite renderCells_seq.
    by destruct (renderSeq _ _ h).
  - apply repeatable_seq; [|done]. intros cell Hc.
    apply repeatable_renderCell.
    by apply (NoDup_concat_map TableCell.Paragraphs cell
                (TableRow.Cells row)).
Qed.

Lemma repeatable_Element_ToXML e :
  NoDup (elementParagraphs e) →
  repeatable (elementParagraphs e) (Element_ToXML e).
Proof.
  destruct e as [p|t]; cbn [elementParagraphs Element_ToXML].
  - intros _. split; [|split]; cbn [fst snd Element_ToXML]; try done.
    intros h h' Hag. rewrite (Hag p) by (by left). done.
  - intros Hnd. unfold rowParagraphs in *.
    eapply (repeatable_wrap _ (renderSeq renderRow (Table.Rows t)) _
              (fun rows => tblOpen +:+
                 (if Table.HasBorders t then tblBordersXML else "") +:+
                 tblPrClose +:+ tblGridXML (Table.ColWidths t) +:+ rows +:+
                 tblClose)).
    + intros h. cbn [Element_ToXML]. unfold Table_ToXML.
      rewrite renderRows_seq.
      by destruct (renderSeq _ _ h).
    + apply repeatable_seq; [|done]. intros row Hr.
      apply repeatable_renderRow.
      by apply (NoDup_concat_map
                  (fun row => concat (map TableCell.Paragraphs
                                          (TableRow.Cells row)))
                  row (Table.Rows t)).
Qed.

Lemma repeatable_renderElements es :
  NoDup (bodyParagraphs es) →
  repeatable (bodyParagraphs es) (renderElements es).
Proof.
  intros Hnd. unfold bodyParagraphs in *.
  eapply (repeatable_wrap _ (renderSeq Element_ToXML es) _ (fun s => s)).
  - intros h. rewrite renderElements_seq. by destruct (renderSeq _ _ h).
  - apply repeatable_seq; [|done]. intros e He.
    apply repeatable_Element_ToXML.
    by apply (NoDup_concat_map elementParagraphs e es).
Qed.

(** With a paragraph in two cells the second rendering differs: the first
    cell renders the paragraph before the second cell has aligned it. *)
Lemma shared_paragraph_renders_differently :
  ¬ NoDup (elementParagraphs (ElemTable sharingTable)) ∧
  (Table_ToXML sharingTable (Table_ToXML sharingTable emptyHeap).2).1 ≠
  (Table_ToXML sharingTable emptyHeap).1.
Proof.
  split.
  - cbn. intros Hnd. apply NoDup_cons in Hnd as [Hn _]. apply Hn. by left.
  - intros E. apply (f_equal len) in E. vm_compute in E. done.
Qed.

(** X12: when no paragraph is held twice (by two cells, twice by one cell,
    or by a cell and by the body), rendering is repeatable: the body
    rendered again on the store the first rendering left gives the same
    markup, and the first rendering changed no paragraph outside the
    body. *)
Theorem X12_rendering_is_repeatable_without_sharing (es : list Element)
  (h : heap) :
  NoDup (bodyParagraphs es) →
  let h1 := (renderElements es h).2 in
  (renderElements es h1).1 = (renderElements es h).1 ∧
  (∀ l, l ∉ bodyParagraphs es → h1 l = h l).
Proof.
  intros Hnd h1. subst h1.
  destruct (repeatable_renderElements es Hnd) as (_ & Hb & Hc).
  split; [apply Hc|]. intros l Hl. by apply Hb.
Qed.

Lemma X12_rendering_is_repeatable_without_sharing_witness :
  NoDup (bodyParagraphs [ElemParagraph 1%nat; ElemTable centredTable]) ∧
  (renderElements [ElemParagraph 1%nat; ElemTable centredTable]
     (renderElements [ElemParagraph 1%nat; ElemTable centredTable]
        emptyHeap).2).1 =
  (renderElements [ElemParagraph 1%nat; ElemTable centredTable]
     emptyHeap).1.
Proof.
  assert (NoDup (bodyParagraphs
                   [ElemParagraph 1%nat; ElemTable centredTable])) as Hnd.
  { cbn. apply NoDup_cons. split.
    - intros H. apply list_elem_of_singleton in H. discriminate.
    - apply NoDup_singleton. }
  split; [exact Hnd|].
  exact (proj1 (X12_rendering_is_repeatable_without_sharing
                  [ElemParagraph 1%nat; ElemTable centredTable] emptyHeap
                  Hnd)).
Defined.

(* ===================================================================== *)
(** ** Inline formulas                                                    *)
(* ===================================================================== *)

Lemma get_sdrop a s k : String.get k (sdrop a s) = String.get (a + k) s.
Proof.
  revert s. induction a as [|a IH]; intros s; [done|].
  destruct s as [|c s]; cbn [sdrop Nat.add String.get].
  - by destruct k.
  - apply IH.
Qed.

Lemma get_stake n s k :
  (k < n)%nat → String.get k (stake n s) = String.get k s.
Proof.
  revert s k. induction n as [|n IH]; intros s k Hk; [lia|].
  destruct s as [|c s]; [done|]. cbn [stake].
  destruct k as [|k]; [done|]. cbn [String.get]. apply IH. lia.
Qed.

Lemma byteAt_slice text a b k :
  (k < b - a)%nat → byteAt (slice text a b) k = byteAt text (a + k).
Proof.
  intros Hk. unfold byteAt, slice. by rewrite get_stake, get_sdrop.
Qed.

Lemma len_stake n s : len (stake n s) = Nat.min n (len s).
Proof.
  revert s. induction n as [|n IH]; intros s; [done|].
  destruct s as [|c s]; [done|]. cbn [stake len String.length Nat.min].
  f_equal. apply IH.
Qed.

Lemma len_slice text a b :
  (a ≤ b ≤ len text)%nat → len (slice text a b) = (b - a)%nat.
Proof. intros H. unfold slice. rewrite len_stake, len_sdrop. lia. Qed.

Lemma Contains_dollar_false s :
  (∀ k, (k < len s)%nat → byteAt s k ≠ dollar) → Contains s "$" = false.
Proof.
  induction s as [|c s IH]; intros H; [done|].
  cbn [Contains HasPrefix]. rewrite IH.
  - rewrite andb_true_r, orb_false_r. apply Ascii.eqb_neq. intros <-.
    by apply (H 0%nat); [cbn; lia|].
  - intros k Hk. apply (H (S k)). unfold len in *. cbn [String.length]. lia.
Qed.

Lemma inTextOrder_mono lo lo' fs :
  lo' ≤ lo → inTextOrder lo fs → inTextOrder lo' fs.
Proof.
  destruct fs as [|f fs]; [done|]. cbn [inTextOrder]. intros ? [? ?].
  split; [lia|done].
Qed.

Lemma extractLoop_spec n text i inFormula start :
  (n + i = len text)%nat →
  (inFormula = true → opened text i start) →
  let fs := extractLoop n text i inFormula start in
  inTextOrder (if inFormula then Z.of_nat start - 1 else Z.of_nat i) fs ∧
  ∀ f, f ∈ fs →
       delimited text f ∧ InlineFormula.Formula f ≠ "" ∧
       Contains (InlineFormula.Formula f) "$" = false.
Proof.
  revert i inFormula start.
  induction n as [|n IH]; intros i inFormula start Hn Hin fs; subst fs.
  { split; [done|]. intros f Hf. by apply elem_of_nil in Hf. }
  cbn [extractLoop].
  destruct (byteAt text i =? dollar) eqn:Ed.
  - apply Z.eqb_eq in Ed. destruct inFormula; cbn [negb].
    + destruct (Hin eq_refl) as (Hs & Hopen & Hfree & Hfirst).
      assert (start < i)%nat as Hlt.
      { destruct (decide (start = i)) as [->|]; [|lia].
        exfalso. apply Hfirst; [lia|done]. }
      destruct (IH (i + 1)%nat false start) as [Hord Hall]; [lia|done|].
      split.
      * cbn [inTextOrder InlineFormula.Start InlineFormula.End_].
        split; [lia|]. eapply inTextOrder_mono, Hord. lia.
      * intros f Hf. apply elem_of_cons in Hf as [->|Hf]; [|by apply Hall].
        assert (len (slice text start i) = (i - start)%nat) as Hlen
          by (apply len_slice; lia).
        split; [|split].
        -- unfold delimited.
           cbn [InlineFormula.Start InlineFormula.End_ InlineFormula.Formula].
           replace (Z.to_nat (Z.of_nat start - 1)) with (start - 1)%nat
             by lia.
           replace (Z.to_nat (Z.of_nat start - 1 + 1)) with start by lia.
           replace (Z.to_nat (Z.of_nat i + 1 - 1)) with i by lia.
           repeat split; try done; lia.
        -- cbn [InlineFormula.Formula]. intros E. rewrite E in Hlen.
           cbn in Hlen. lia.
        -- cbn [InlineFormula.Formula]. apply Contains_dollar_false.
           intros k Hk. rewrite Hlen in Hk.
           rewrite byteAt_slice by done. apply Hfree. lia.
    + destruct ((i + 1 <? len text)%nat && (byteAt text (i + 1) =? dollar))
        eqn:Enext.
      * destruct (IH (i + 1)%nat false start) as [Hord Hall]; [lia|done|].
        split; [|done]. eapply inTextOrder_mono, Hord. lia.
      * destruct (IH (i + 1)%nat true (i + 1)%nat) as [Hord Hall];
          [lia| |].
        { intros _. split; [lia|]. split.
          - by replace (i + 1 - 1)%nat with i by lia.
          - split; [intros k Hk; lia|]. intros Hl.
            apply andb_false_iff in Enext as [E|E].
            + apply Nat.ltb_ge in E. lia.
            + by apply Z.eqb_neq in E. }
        split; [|done]. eapply inTextOrder_mono, Hord. lia.
  - apply Z.eqb_neq in Ed.
    destruct (IH (i + 1)%nat inFormula start) as [Hord Hall]; [lia| |].
    { intros ->. destruct (Hin eq_refl) as (Hs & Hopen & Hfree & Hfirst).
      split; [lia|]. split; [done|]. split; [|done].
      intros k Hk. destruct (decide (k = i)) as [->|]; [done|].
      apply Hfree. lia. }
    split; [|done]. destruct inFormula; [done|].
    eapply inTextOrder_mono, Hord. lia.
Qed.

(** X13: every formula [ExtractInlineFormulas] returns sits between two
    dollars of the text: [Start] is the index of the opening dollar, [End]
    the index just after the closing dollar, and the formula is the text
    between them, which is never empty and holds no dollar.  The formulas
    come in the order of the text and do not overlap. *)
Theorem X13_formulas_are_delimited_and_ordered (text : string) :
  inTextOrder 0 (ExtractInlineFormulas text) ∧
  ∀ f, f ∈ ExtractInlineFormulas text →
       delimited text f ∧ InlineFormula.Formula f ≠ "" ∧
       Contains (InlineFormula.Formula f) "$" = false.
Proof.
  unfold ExtractInlineFormulas.
  apply (extractLoop_spec (len text) text 0 false 0); [lia|done].
Qed.

Lemma extractLoop_no_dollar n text i start :
  (∀ k, byteAt text k ≠ dollar) → extractLoop n text i false start = [].
Proof.
  intros H. revert i. induction n as [|n IH]; intros i; [done|].
  cbn [extractLoop]. specialize (H i). apply Z.eqb_neq in H as ->. apply IH.
Qed.

Lemma Contains_dollar_byteAt s k :
  Contains s "$" = false → byteAt s k ≠ dollar.
Proof.
  revert k. induction s as [|c s IH]; intros k H.
  - unfold byteAt. by destruct k.
  - cbn [Contains HasPrefix] in H. apply orb_false_iff in H as [Hc Hs].
    rewrite andb_true_r in Hc. apply Ascii.eqb_neq in Hc.
    destruct k as [|k]; [|by apply IH].
    unfold byteAt. cbn [String.get]. intros E. apply Hc.
    apply (f_equal Z.to_N) in E. unfold byteZ in E.
    rewrite N2Z.id in E. apply (f_equal ascii_of_N) in E.
    by rewrite ascii_N_embedding in E.
Qed.

(** X14: a text without a dollar holds no formula, and a text holding a
    formula holds at least two dollars, at different places. *)
Theorem X14_no_dollar_no_formula (text : string) :
  (Contains text "$" = false → ExtractInlineFormulas text = []) ∧
  (ExtractInlineFormulas text ≠ [] →
   ∃ a b, (a < b < len text)%nat ∧ byteAt text a = dollar ∧
          byteAt text b = dollar).
Proof.
  split.
  - intros H. apply extractLoop_no_dollar. intros k.
    by apply Contains_dollar_byteAt.
  - intros Hne. destruct (ExtractInlineFormulas text) as [|f fs] eqn:E;
      [done|].
    destruct (proj2 (extractLoop_spec (len text) text 0 false 0
                       (Nat.add_0_r _) (fun H => False_ind _ (diff_false_true H)))
                    f)
      as [(H0 & H3 & Hlen & Ha & Hb & _) _].
    { fold (ExtractInlineFormulas text). rewrite E. by left. }
    exists (Z.to_nat (InlineFormula.Start f)),
           (Z.to_nat (InlineFormula.End_ f - 1)).
    split; [lia|done].
Qed.

(* ===================================================================== *)
(** ** HTML escaping                                                      *)
(* ===================================================================== *)

Lemma ReplaceAll_app s t old new :
  ReplaceAll (s +:+ t) old new =
  ReplaceAll s old new +:+ ReplaceAll t old new.
Proof.
  induction s as [|c s IH]; [done|]. rewrite sapp_cons.
  cbn [ReplaceAll]. by rewrite IH, sapp_assoc.
Qed.

Lemma escapeHTML_app s t : escapeHTML (s +:+ t) = escapeHTML s +:+ escapeHTML t.
Proof. unfold escapeHTML. by rewrite !ReplaceAll_app. Qed.

Lemma escapeHTML_byte c : escapeHTML (String c "") = htmlEntity c.
Proof. by destruct c as [[] [] [] [] [] [] [] []]; vm_compute. Qed.

Lemma escapeHTML_cons c s :
  escapeHTML (String c s) = htmlEntity c +:+ escapeHTML s.
Proof.
  change (String c s) with (String c "" +:+ s).
  by rewrite escapeHTML_app, escapeHTML_byte.
Qed.

Lemma htmlEntity_safe c : allChars htmlSafe (htmlEntity c) = true.
Proof. by destruct c as [[] [] [] [] [] [] [] []]; vm_compute. Qed.

(** X15: the five replacements of [escapeHTML] in a row do what one pass
    over the bytes would do: each ampersand, angle bracket, double quote
    and apostrophe of the input becomes its entity, the other bytes are
    kept, and no ampersand written by an earlier replacement is escaped
    again.  So escaping distributes over concatenation and the result
    holds no angle bracket and no quote. *)
Theorem X15_escapeHTML_is_one_pass (s t : string) :
  escapeHTML s = sconcat (map htmlEntity (String.list_ascii_of_string s)) ∧
  escapeHTML (s +:+ t) = escapeHTML s +:+ escapeHTML t ∧
  allChars htmlSafe (escapeHTML s) = true.
Proof.
  split; [|split].
  - induction s as [|c s IH]; [done|].
    rewrite escapeHTML_cons, IH. reflexivity.
  - apply escapeHTML_app.
  - induction s as [|c s IH]; [done|].
    by rewrite escapeHTML_cons, allChars_app, htmlEntity_safe, IH.
Qed.

Lemma htmlEntity_cases c :
  (c = "&"%char ∧ htmlEntity c = "&amp;") ∨
  (c = "<"%char ∧ htmlEntity c = "&lt;") ∨
  (c = ">"%char ∧ htmlEntity c = "&gt;") ∨
  (c = dquote ∧ htmlEntity c = "&quot;") ∨
  (c = apostrophe ∧ htmlEntity c = "&#39;") ∨
  (c ≠ "&"%char ∧ htmlEntity c = String c "").
Proof.
  unfold htmlEntity.
  destruct (Ascii.eqb_spec c "&"); [by left|].
  destruct (Ascii.eqb_spec c "<"); [by right; left|].
  destruct (Ascii.eqb_spec c ">"); [by right; right; left|].
  destruct (Ascii.eqb_spec c dquote); [by right; right; right; left|].
  destruct (Ascii.eqb_spec c apostrophe);
    [by right; right; right; right; left|].
  by right; right; right; right; right.
Qed.

Lemma htmlEntity_prefix_free c d x y :
  htmlEntity c +:+ x = htmlEntity d +:+ y → c = d ∧ x = y.
Proof.
  intros E.
  destruct (htmlEntity_cases c) as [[-> Ec]|[[-> Ec]|[[-> Ec]|[[-> Ec]|
    [[-> Ec]|[Hc Ec]]]]]];
  destruct (htmlEntity_cases d) as [[-> Ed]|[[-> Ed]|[[-> Ed]|[[-> Ed]|
    [[-> Ed]|[Hd Ed]]]]]];
  rewrite ?Ec, ?Ed in E; rewrite ?sapp_cons in E;
  change ("" +:+ x) with x in E; change ("" +:+ y) with y in E;
  try (split; [reflexivity|congruence]);
  try discriminate E;
  try (exfalso; injection E as E1 E2; congruence).
  injection E as -> ->. done.
Qed.

(** X16: [escapeHTML] loses nothing: two texts with the same escaped form
    are the same text. *)
Theorem X16_escapeHTML_is_injective (s t : string) :
  escapeHTML s = escapeHTML t → s = t.
Proof.
  revert t. induction s as [|c s IH]; intros t E.
  - destruct t as [|d t]; [done|]. rewrite escapeHTML_cons in E.
    destruct (htmlEntity_cases d) as [[_ Ed]|[[_ Ed]|[[_ Ed]|[[_ Ed]|
      [[_ Ed]|[_ Ed]]]]]]; rewrite Ed in E; discriminate E.
  - destruct t as [|d t].
    + rewrite escapeHTML_cons in E.
      destruct (htmlEntity_cases c) as [[_ Ec]|[[_ Ec]|[[_ Ec]|[[_ Ec]|
        [[_ Ec]|[_ Ec]]]]]]; rewrite Ec in E; discriminate E.
    + rewrite !escapeHTML_cons in E.
      apply htmlEntity_prefix_free in E as [-> E]. f_equal. by apply IH.
Qed.

Lemma X16_escapeHTML_is_injective_witness :
  "a<b" = "a<b".
Proof.
  apply (X16_escapeHTML_is_injective "a<b" "a<b"). reflexivity.
Defined.

(* ===================================================================== *)
(** ** The block handlers                                                 *)
(* ===================================================================== *)

Lemma processInlineNodes_onlyAppends env children :
  onlyAppends (processInlineNodes env children).
Proof.
  unfold processInlineNodes.
  apply forChildren_onlyAppends, Forall_forall. intros child _.
  apply processInlineNode_onlyAppends.
Qed.

Lemma processInlineNodes_kind env children :
  keepsKind (processInlineNodes env children).
Proof.
  unfold processInlineNodes.
  apply forChildren_kind, Forall_forall. intros child _.
  apply processInlineNode_kind.
Qed.

(** What the inline walker does to a paragraph and to the machine. *)
Lemma inlineInto_spec env node p m :
  let r := inlineInto env node p m in
  (∃ added,
     r.1 = Paragraph.setChildren (Paragraph.Children p ++ added) p) ∧
  Machine.next r.2 = Machine.next m ∧
  Machine.store r.2 = Machine.store m ∧
  elementsOf r.2 = elementsOf m ∧
  Converter.config (Machine.conv r.2) = Converter.config (Machine.conv m).
Proof.
  intros r. subst r. unfold inlineInto.
  destruct (processInlineNodes_onlyAppends env
              (map inlineView (blockChildren node)) (InParagraph p)
              (Machine.conv m)) as (Hc & Hcfg & Hd).
  destruct (processInlineNodes env _ _ _) as [p' c'].
  cbn [fst snd] in *. destruct Hd as (_ & He & _).
  split; [|by repeat split].
  destruct p' as [q|link]; [|done]. exact Hc.
Qed.

Lemma keepsOld_refl m : keepsOld m m.
Proof. by repeat split. Qed.

Lemma keepsOld_trans m1 m2 m3 :
  keepsOld m1 m2 → keepsOld m2 m3 → keepsOld m1 m3.
Proof.
  intros (C1 & N1 & S1) (C2 & N2 & S2). split; [congruence|].
  split; [lia|]. intros l Hl. rewrite S2 by lia. by apply S1.
Qed.

Lemma keepsOld_inlineInto env node p m :
  keepsOld m (inlineInto env node p m).2.
Proof.
  destruct (inlineInto_spec env node p m) as (_ & Hn & Hs & _ & Hc).
  split; [done|]. split; [lia|]. intros l _. by rewrite Hs.
Qed.

Lemma keepsOld_allocParagraph p m : keepsOld m (allocParagraph p m).2.
Proof.
  split; [done|]. split; [cbn; lia|]. intros l Hl. cbn.
  apply heap_set_ne. lia.
Qed.

Lemma keepsOld_addElement e m : keepsOld m (addElement e m).
Proof. by repeat split. Qed.

Lemma bodyParagraphs_app es1 es2 :
  bodyParagraphs (es1 ++ es2) = bodyParagraphs es1 ++ bodyParagraphs es2.
Proof. unfold bodyParagraphs. by rewrite map_app, concat_app. Qed.

Lemma freshIn_nil m m' : freshIn m m' [].
Proof. split; [apply NoDup_nil_2|]. intros l Hl. by apply elem_of_nil in Hl. Qed.

Lemma freshIn_app m1 m2 m3 ls1 ls2 :
  (Machine.next m1 ≤ Machine.next m2 ≤ Machine.next m3)%nat →
  freshIn m1 m2 ls1 → freshIn m2 m3 ls2 → freshIn m1 m3 (ls1 ++ ls2).
Proof.
  intros Hn [Hd1 Hr1] [Hd2 Hr2]. split.
  - apply NoDup_app. split; [done|]. split; [|done].
    intros l Hl1 Hl2. specialize (Hr1 l Hl1). specialize (Hr2 l Hl2). lia.
  - intros l Hl. apply elem_of_app in Hl as [Hl|Hl].
    + specialize (Hr1 l Hl). lia.
    + specialize (Hr2 l Hl). lia.
Qed.

Lemma grows_refl m : grows m m.
Proof.
  split; [apply keepsOld_refl|]. exists []. rewrite app_nil_r.
  split; [done|apply freshIn_nil].
Qed.

Lemma grows_trans m1 m2 m3 : grows m1 m2 → grows m2 m3 → grows m1 m3.
Proof.
  intros [K1 (a1 & E1 & F1)] [K2 (a2 & E2 & F2)].
  split; [by eapply keepsOld_trans|]. exists (a1 ++ a2).
  split; [by rewrite E2, E1, app_assoc|].
  rewrite bodyParagraphs_app. eapply freshIn_app; [|done..].
  destruct K1 as (_ & ? & _), K2 as (_ & ? & _). lia.
Qed.

Lemma grows_inlineInto env node p m : grows m (inlineInto env node p m).2.
Proof.
  split; [apply keepsOld_inlineInto|]. exists []. rewrite app_nil_r.
  destruct (inlineInto_spec env node p m) as (_ & _ & _ & He & _).
  split; [done|apply freshIn_nil].
Qed.

Lemma grows_addParagraph p m : grows m (addParagraph p m).
Proof.
  unfold addParagraph. cbn [allocParagraph]. split.
  - eapply keepsOld_trans; [apply (keepsOld_allocParagraph p)|].
    apply keepsOld_addElement.
  - exists [ElemParagraph (Machine.next m)]. split; [done|].
    split; [apply NoDup_singleton|]. intros l Hl.
    apply list_elem_of_singleton in Hl as ->. cbn. lia.
Qed.

Lemma allocated_grows m m' : allocated m → grows m m' → allocated m'.
Proof.
  intros [Hd Hr] [(_ & Hn & _) (added & E & [Hd' Hr'])].
  unfold allocated. rewrite E, bodyParagraphs_app. split.
  - apply NoDup_app. split; [done|]. split; [|done].
    intros l Hl1 Hl2. specialize (Hr l Hl1). specialize (Hr' l Hl2). lia.
  - intros l Hl. apply elem_of_app in Hl as [Hl|Hl].
    + specialize (Hr l Hl). lia.
    + specialize (Hr' l Hl). lia.
Qed.

Lemma grows_processHeading env node m : grows m (processHeading env node m).
Proof.
  unfold processHeading.
  pose proof (grows_inlineInto env node
    (Paragraph_setLineHeight (StyleConfig.LineHeight (bodyStyle m))
       (NewParagraph
          ("Heading" +:+
           fmt_d (if 9 <? match node with
                          | BlkHeading level _ => level
                          | _ => 0
                          end
                  then 9
                  else match node with
                       | BlkHeading level _ => level
                       | _ => 0
                       end)))) m) as H.
  destruct (inlineInto env node _ m) as [p1 m1]. cbn [snd] in H.
  eapply grows_trans; [exact H|apply grows_addParagraph].
Qed.

Lemma grows_processParagraph env node m :
  grows m (processParagraph env node m).
Proof.
  unfold processParagraph.
  match goal with
  | |- context [inlineInto env node ?p m] =>
      pose proof (grows_inlineInto env node p m) as H;
      destruct (inlineInto env node p m) as [p1 m1]
  end.
  cbn [snd] in H. destruct (0 <? length (Paragraph.Children p1))%nat;
    [|done].
  eapply grows_trans; [exact H|apply grows_addParagraph].
Qed.

Lemma grows_processTextBlock env node m :
  grows m (processTextBlock env node m).
Proof.
  unfold processTextBlock.
  pose proof (grows_inlineInto env node (NewParagraph "") m) as H.
  destruct (inlineInto env node _ m) as [p1 m1]. cbn [snd] in H.
  eapply grows_trans; [exact H|apply grows_addParagraph].
Qed.

Lemma grows_quoteChildren env children m :
  grows m (quoteChildren env children m).
Proof.
  revert m. induction children as [|child rest IH]; intros m;
    [apply grows_refl|].
  cbn [quoteChildren].
  pose proof (grows_inlineInto env child (NewParagraph "") m) as H.
  destruct (inlineInto env child _ m) as [p1 m1]. cbn [snd] in H.
  eapply grows_trans; [exact H|].
  eapply grows_trans; [apply grows_addParagraph|apply IH].
Qed.

Lemma grows_processThematicBreak m : grows m (processThematicBreak m).
Proof. apply grows_addParagraph. Qed.

(** The list handlers, unfolded. *)
Lemma listLoop_eq env ordered level items i m :
  (fix loop (items : list Block) (i : Z) (m : Machine.t) : Machine.t :=
     match items with
     | [] => m
     | item :: more =>
         match item with
         | BlkListItem _ =>
             loop more (int_wrap (i + 1))
               (processListItem env item ordered i (int_wrap (level + 1)) m)
         | _ => loop more i m
         end
     end) items i m =
  processListFrom env ordered (int_wrap (level + 1)) items i m.
Proof.
  revert i m. induction items as [|item more IH]; intros i m; [done|].
  cbn [processListFrom]. destruct item; apply IH.
Qed.

Lemma processListItem_eq env children isOrdered index level m :
  processListItem env (BlkListItem children) isOrdered index level m =
  let '(p2, m2) :=
    itemChildren env level children
                 (itemParagraph isOrdered index level m) m in
  addParagraph p2 m2.
Proof.
  cbn [processListItem].
  generalize (itemParagraph isOrdered index level m) as p.
  revert m.
  induction children as [|child rest IH]; intros m0 p; [done|].
  cbn [itemChildren].
  destruct child as [n|lv cs|cs|cs|ordered items|cs|cs| |cs|cs];
    try (destruct (inlineInto env _ p m0) as [p' m']; apply IH).
  rewrite listLoop_eq. apply IH.
Qed.

Lemma grows_list env b :
  (∀ isOrdered index level m,
     grows m (processListItem env b isOrdered index level m)) ∧
  (∀ level m, grows m (processList env b level m)).
Proof.
  induction b as [b IH] using Block_induction.
  assert (∀ isOrdered level items i m,
            Forall (fun item => ∀ isOrdered index level m,
                      grows m (processListItem env item isOrdered index
                                               level m)) items →
            grows m (processListFrom env isOrdered level items i m))
    as Hfrom.
  { intros isOrdered level items. induction items as [|item more IHm];
      intros i m Hall; [apply grows_refl|].
    apply Forall_cons in Hall as [Hitem Hmore]. cbn [processListFrom].
    destruct item; try (by apply IHm).
    eapply grows_trans; [apply Hitem|by apply IHm]. }
  split.
  - intros isOrdered index level m.
    destruct b as [n|lv cs|cs|cs|ordered items|children|cs| |cs|cs];
      try apply grows_refl.
    rewrite processListItem_eq. cbn [subBlocks] in IH.
    generalize (itemParagraph isOrdered index level m) as p.
    assert (∀ p m0, grows m0 (itemChildren env level children p m0).2)
      as Hch.
    { induction children as [|child rest IHc]; intros p m0;
        [apply grows_refl|].
      apply Forall_cons in IH as [Hchild Hrest]. cbn [itemChildren].
      destruct child as [n|lv cs|cs|cs|ordered items|cs|cs| |cs|cs];
        try (match goal with
             | |- context [inlineInto env ?child p m0] =>
                 pose proof (grows_inlineInto env child p m0) as H;
                 destruct (inlineInto env child p m0) as [p' m']
             end;
             cbn [snd] in H; eapply grows_trans; [exact H|by apply IHc]).
      eapply grows_trans; [apply Hchild|by apply IHc]. }
    intros p. specialize (Hch p m).
    destruct (itemChildren env level children p m) as [p2 m2].
    cbn [snd] in Hch.
    eapply grows_trans; [exact Hch|apply grows_addParagraph].
  - intros level m.
    destruct b as [n|lv cs|cs|cs|ordered items|children|cs| |cs|cs];
      try apply grows_refl.
    cbn [processList]. apply Hfrom. cbn [subBlocks] in IH.
    eapply Forall_impl; [exact IH|]. intros item [Hitem _]. exact Hitem.
Qed.

Lemma tableCellsOf_spec env cells r m :
  let res := tableCellsOf env cells r m in
  keepsOld m res.2 ∧ elementsOf res.2 = elementsOf m ∧
  TableRow.IsHeader res.1 = TableRow.IsHeader r ∧
  ∃ ls, cellParagraphs (TableRow.Cells res.1) =
          cellParagraphs (TableRow.Cells r) ++ ls ∧
        freshIn m res.2 ls.
Proof.
  revert r m. induction cells as [|cell rest IH]; intros r m res; subst res.
  { split; [apply keepsOld_refl|]. split; [done|]. split; [done|].
    exists []. rewrite app_nil_r. split; [done|apply freshIn_nil]. }
  cbn [tableCellsOf].
  pose proof (keepsOld_inlineInto env cell (NewParagraph "") m) as K1.
  destruct (inlineInto_spec env cell (NewParagraph "") m)
    as (_ & Hn1 & _ & He1 & _).
  destruct (inlineInto env cell _ m) as [p m1]. cbn [fst snd] in *.
  cbn [allocParagraph].
  set (m2 := Machine.mk _ _ _).
  set (r2 := TableRow.mk _ _).
  destruct (IH r2 m2) as (K2 & He2 & Hh2 & ls & Hls & F2).
  assert (keepsOld m1 m2) as K12 by apply (keepsOld_allocParagraph p m1).
  split; [eapply keepsOld_trans; [exact K1|];
          eapply keepsOld_trans; [exact K12|exact K2]|].
  split; [by rewrite He2|]. split; [by rewrite Hh2|].
  exists (Machine.next m1 :: ls). split.
  - rewrite Hls. subst r2. cbn [TableRow.Cells]. unfold cellParagraphs.
    rewrite map_app, concat_app. cbn. by rewrite <- app_assoc.
  - destruct F2 as [Hd Hr]. split.
    + apply NoDup_cons. split; [|done]. intros Hin.
      specialize (Hr _ Hin). subst m2. cbn in Hr. lia.
    + intros l Hl. destruct K2 as (_ & Hn2 & _). subst m2. cbn in Hn2.
      apply elem_of_cons in Hl as [->|Hl]; [lia|].
      specialize (Hr l Hl). cbn in Hr. lia.
Qed.

Lemma tableRowsOf_spec env rows t m :
  let res := tableRowsOf env rows t m in
  keepsOld m res.2 ∧ elementsOf res.2 = elementsOf m ∧
  ∃ ls, rowParagraphs (Table.Rows res.1) =
          rowParagraphs (Table.Rows t) ++ ls ∧
        freshIn m res.2 ls.
Proof.
  revert t m. induction rows as [|row rest IH]; intros t m res; subst res.
  { split; [apply keepsOld_refl|]. split; [done|].
    exists []. rewrite app_nil_r. split; [done|apply freshIn_nil]. }
  cbn [tableRowsOf].
  destruct (tableCellsOf_spec env (blockChildren row) (TableRow.mk [] false)
              m) as (K1 & He1 & _ & ls1 & Hls1 & F1).
  destruct (tableCellsOf env _ _ m) as [r m1]. cbn [fst snd] in *.
  set (t2 := Table.mk _ _ _).
  destruct (IH t2 m1) as (K2 & He2 & ls2 & Hls2 & F2).
  split; [by eapply keepsOld_trans|]. split; [by rewrite He2|].
  exists (ls1 ++ ls2). split.
  - rewrite Hls2. subst t2. cbn [Table.Rows]. unfold rowParagraphs.
    rewrite map_app, concat_app. cbn [map concat]. rewrite app_nil_r.
    rewrite Hls1. cbn. by rewrite <- app_assoc.
  - eapply freshIn_app; [|done..].
    destruct K1 as (_ & ? & _), K2 as (_ & ? & _). lia.
Qed.

Lemma grows_processTable env node m : grows m (processTable env node m).
Proof.
  unfold processTable.
  destruct (tableRowsOf_spec env (blockChildren node)
              (Table.mk (Table.Rows NewTable) (Table.ColWidths NewTable)
                        true) m) as (K & He & ls & Hls & F).
  destruct (tableRowsOf env _ _ m) as [t m1]. cbn [fst snd] in *.
  split; [eapply keepsOld_trans; [exact K|apply keepsOld_addElement]|].
  exists [ElemTable t]. split.
  - unfold elementsOf in *. cbn. by rewrite He.
  - unfold bodyParagraphs. cbn [map concat elementParagraphs].
    rewrite app_nil_r, Hls. exact F.
Qed.

Lemma grows_renderMathAsImage env latex display m m' :
  renderMathAsImage env latex display m = Some m' → grows m m'.
Proof.
  unfold renderMathAsImage. destruct (RenderMathJax env latex display)
    as [imgData|]; [|done].
  destruct (getImageDimensions env imgData) as [width height].
  destruct (Document_AddImage _ _ _ _ _) as [rID d1] eqn:E.
  intros [= <-].
  assert (Document.elements d1 =
          Document.elements (Converter.doc (Machine.conv m))) as He.
  { unfold Document_AddImage in E. by injection E as _ <-. }
  eapply grows_trans; [|apply grows_addParagraph].
  split; [by repeat split|]. exists []. rewrite app_nil_r.
  split; [exact He|apply freshIn_nil].
Qed.

(** X17: every block handler only appends to the document, and what it
    appends is new: the configuration, the addresses given out before and
    the paragraphs behind them are kept; the elements the document had
    stay in place; the paragraphs of the new elements (those of the cells
    of a new table too) have addresses that had not been given out, each
    held once.  So a document in which no paragraph is held twice stays
    one. *)
Theorem X17_handlers_append_new_paragraphs (env : Env) (node : Block)
  (level : Z) (latex : string) (display : bool) (m m' : Machine.t) :
  m' ∈ [processHeading env node m; processParagraph env node m;
        processTextBlock env node m; processList env node level m;
        processBlockquote env node m; processThematicBreak m;
        processTable env node m] ++
       option_list (renderMathAsImage env latex display m) →
  grows m m' ∧ (allocated m → allocated m').
Proof.
  intros Hin.
  assert (grows m m') as Hg.
  { repeat (apply elem_of_cons in Hin as [->|Hin]).
    - apply grows_processHeading.
    - apply grows_processParagraph.
    - apply grows_processTextBlock.
    - apply grows_list.
    - apply grows_quoteChildren.
    - apply grows_processThematicBreak.
    - apply grows_processTable.
    - cbn [app] in Hin.
      destruct (renderMathAsImage env latex display m) as [m1|] eqn:E;
        cbn [option_list] in Hin; [|by apply elem_of_nil in Hin].
      apply list_elem_of_singleton in Hin as ->.
      by eapply grows_renderMathAsImage. }
  split; [exact Hg|]. intros Ha. by eapply allocated_grows.
Qed.

Lemma X17_handlers_append_new_paragraphs_witness :
  allocated (processTable offlineEnv
               (BlkTable [BlkOther [BlkOther [BlkInline (AstText "a")]]])
               (newMachine sampleConfig)).
Proof.
  apply (X17_handlers_append_new_paragraphs offlineEnv
           (BlkTable [BlkOther [BlkOther [BlkInline (AstText "a")]]])
           0 "" false (newMachine sampleConfig)).
  - apply list_elem_of_In. cbn [app In]. tauto.
  - split; [apply NoDup_nil_2|].
    intros l Hl. cbn in Hl. by apply elem_of_nil in Hl.
Defined.

(** *** Lists *)

Lemma itemCount_item children :
  itemCount (BlkListItem children) = S (nestedCount children).
Proof.
  cbn [itemCount]. f_equal. unfold nestedCount.
  induction children as [|child rest IH]; [done|].
  cbn [map]. change (list_sum (?x :: ?l)) with (x + list_sum l)%nat.
  by rewrite <- IH.
Qed.

Lemma itemCount_list isOrdered items :
  itemCount (BlkList isOrdered items) = listCount items.
Proof.
  cbn [itemCount]. unfold listCount.
  induction items as [|item more IH]; [done|].
  cbn [map]. change (list_sum (?x :: ?l)) with (x + list_sum l)%nat.
  by rewrite <- IH.
Qed.

Lemma elementsOf_addParagraph p m :
  elementsOf (addParagraph p m) =
  elementsOf m ++ [ElemParagraph (Machine.next m)].
Proof. reflexivity. Qed.

Lemma list_counts env b :
  (∀ children, b = BlkListItem children →
     ∀ isOrdered index level m,
       length (elementsOf (processListItem env b isOrdered index level m)) =
       (length (elementsOf m) + itemCount b)%nat) ∧
  (∀ isOrdered items, b = BlkList isOrdered items →
     ∀ level m,
       length (elementsOf (processList env b level m)) =
       (length (elementsOf m) + itemCount b)%nat).
Proof.
  induction b as [b IH] using Block_induction. split.
  - intros children -> isOrdered index level m.
    rewrite processListItem_eq, itemCount_item. cbn [subBlocks] in IH.
    generalize (itemParagraph isOrdered index level m) as p.
    assert (∀ p m0,
              length (elementsOf (itemChildren env level children p m0).2) =
              (length (elementsOf m0) + nestedCount children)%nat) as Hch.
    { induction children as [|child rest IHc]; intros p m0.
      { unfold nestedCount. cbn. lia. }
      apply Forall_cons in IH as [Hchild Hrest]. cbn [itemChildren].
      unfold nestedCount in *. cbn [map].
      change (list_sum (?x :: ?l)) with (x + list_sum l)%nat.
      destruct child as [n|lv cs|cs|cs|ordered items|cs|cs| |cs|cs];
        try (match goal with
             | |- context [inlineInto env ?child p m0] =>
                 destruct (inlineInto_spec env child p m0)
                   as (_ & _ & _ & He & _);
                 destruct (inlineInto env child p m0) as [p' m']
             end;
             cbn [snd] in He; rewrite (IHc Hrest), He; lia).
      rewrite (IHc Hrest).
      rewrite (proj2 Hchild ordered items eq_refl). lia. }
    intros p. specialize (Hch p m).
    destruct (itemChildren env level children p m) as [p2 m2].
    cbn [snd] in Hch. rewrite elementsOf_addParagraph, length_app, Hch.
    cbn. lia.
  - intros isOrdered items -> level m. rewrite itemCount_list.
    cbn [processList subBlocks] in *. generalize 1 as i. revert m.
    induction items as [|item more IHm]; intros m i.
    { unfold listCount. cbn. lia. }
    apply Forall_cons in IH as [Hitem Hmore]. cbn [processListFrom].
    unfold listCount in *. cbn [map].
    change (list_sum (?x :: ?l)) with (x + list_sum l)%nat.
    destruct item as [n|lv cs|cs|cs|ordered items|children|cs| |cs|cs];
      try (rewrite (IHm Hmore); lia).
    rewrite (IHm Hmore). rewrite (proj1 Hitem children eq_refl). lia.
Qed.

Lemma itemChildren_paragraph env level children p m :
  ∃ added,
    (itemChildren env level children p m).1 =
    Paragraph.setChildren (Paragraph.Children p ++ added) p.
Proof.
  revert p m. induction children as [|child rest IH]; intros p m.
  { exists []. rewrite app_nil_r. by destruct p. }
  cbn [itemChildren].
  destruct child as [n|lv cs|cs|cs|ordered items|cs|cs| |cs|cs];
    try (match goal with
         | |- context [inlineInto env ?child p m] =>
             destruct (inlineInto_spec env child p m)
               as ([a1 Ha1] & _);
             destruct (inlineInto env child p m) as [p' m']
         end;
         cbn [fst] in Ha1; destruct (IH p' m') as [a2 Ha2];
         exists (a1 ++ a2); rewrite Ha2, Ha1; cbn;
         by rewrite app_assoc).
  apply IH.
Qed.

Lemma itemChildren_grows env level children p m :
  grows m (itemChildren env level children p m).2.
Proof.
  revert p m. induction children as [|child rest IH]; intros p m;
    [apply grows_refl|].
  cbn [itemChildren].
  destruct child as [n|lv cs|cs|cs|ordered items|cs|cs| |cs|cs];
    try (match goal with
         | |- context [inlineInto env ?child p m] =>
             pose proof (grows_inlineInto env child p m) as H;
             destruct (inlineInto env child p m) as [p' m']
         end;
         cbn [snd] in H; eapply grows_trans; [exact H|apply IH]).
  eapply grows_trans; [apply grows_list|apply IH].
Qed.

(** X18: the paragraph of a list item is added to the document after the
    paragraphs of all the lists inside the item.  [processListItem] adds
    one paragraph for every item of the lists among its children (and of
    the lists inside those items), then its own; its own paragraph is
    indented by 360 for every level, begins with the bold marker run and
    is the last paragraph made.  [processList] adds one paragraph for
    every item it reaches. *)
Theorem X18_list_item_follows_its_nested_lists (env : Env)
  (children : list Block) (isOrdered : bool) (index level : Z)
  (m : Machine.t) :
  let m' :=
    processListItem env (BlkListItem children) isOrdered index level m in
  (∃ nested l,
     elementsOf m' = elementsOf m ++ nested ++ [ElemParagraph l] ∧
     length nested = nestedCount children ∧
     Machine.next m' = S l ∧
     Paragraph.Indent (Machine.store m' l) =
       int_wrap (int_wrap (level + 1) * 360) ∧
     head (Paragraph.Children (Machine.store m' l)) =
       Some (markerRun isOrdered index)) ∧
  (∀ ordered items level' m0,
     length (elementsOf (processList env (BlkList ordered items) level' m0))
     = (length (elementsOf m0) + listCount items)%nat).
Proof.
  intros m'. subst m'. split.
  - rewrite processListItem_eq.
    pose proof (itemChildren_grows env level children
                  (itemParagraph isOrdered index level m) m) as Hg.
    pose proof (itemChildren_paragraph env level children
                  (itemParagraph isOrdered index level m) m) as [added Hp].
    pose proof (proj1 (list_counts env (BlkListItem children)) children
                  eq_refl isOrdered index level m) as Hlen.
    rewrite processListItem_eq, itemCount_item in Hlen.
    destruct (itemChildren env level children _ m) as [p2 m2].
    cbn [fst snd] in *. destruct Hg as [_ (nested & He & _)].
    exists nested, (Machine.next m2).
    rewrite elementsOf_addParagraph, He in *. rewrite <- app_assoc.
    split; [done|]. split.
    { rewrite !length_app in Hlen. cbn in Hlen. lia. }
    split; [done|]. unfold addParagraph. cbn. rewrite heap_set_eq, Hp.
    split; reflexivity.
  - intros ordered items level' m0.
    rewrite (proj2 (list_counts env (BlkList ordered items)) ordered items
               eq_refl level' m0).
    by rewrite itemCount_list.
Qed.

Lemma flat_itemChildren env level children p m :
  forallb (fun child => match child with
                        | BlkList _ _ => false
                        | _ => true
                        end) children = true →
  Machine.next (itemChildren env level children p m).2 = Machine.next m ∧
  Machine.store (itemChildren env level children p m).2 = Machine.store m ∧
  elementsOf (itemChildren env level children p m).2 = elementsOf m.
Proof.
  revert p m. induction children as [|child rest IH]; intros p m Hflat;
    [done|].
  cbn [forallb] in Hflat. apply andb_true_iff in Hflat as [Hc Hrest].
  cbn [itemChildren].
  destruct child as [n|lv cs|cs|cs|ordered items|cs|cs| |cs|cs];
    try discriminate Hc;
    match goal with
    | |- context [inlineInto env ?child p m] =>
        destruct (inlineInto_spec env child p m)
          as (_ & Hn & Hs & He & _);
        destruct (inlineInto env child p m) as [p' m']
    end;
    cbn [snd] in *; destruct (IH p' m' Hrest) as (-> & -> & ->); done.
Qed.

Lemma flat_item env item isOrdered index level m :
  flatItem item = true →
  let m1 := processListItem env item isOrdered index level m in
  elementsOf m1 = elementsOf m ++ [ElemParagraph (Machine.next m)] ∧
  Machine.next m1 = S (Machine.next m) ∧
  head (Paragraph.Children (Machine.store m1 (Machine.next m))) =
    Some (markerRun isOrdered index).
Proof.
  intros Hflat m1. subst m1.
  destruct item as [n|lv cs|cs|cs|ordered items|children|cs| |cs|cs];
    try discriminate Hflat.
  cbn [flatItem] in Hflat. rewrite processListItem_eq.
  destruct (flat_itemChildren env level children
              (itemParagraph isOrdered index level m) m Hflat)
    as (Hn & Hs & He).
  destruct (itemChildren_paragraph env level children
              (itemParagraph isOrdered index level m) m) as [added Hp].
  destruct (itemChildren env level children _ m) as [p2 m2].
  cbn [fst snd] in *. rewrite elementsOf_addParagraph, He, Hn.
  split; [done|]. split; [by cbn; rewrite Hn|].
  unfold addParagraph. cbn. rewrite Hn, heap_set_eq, Hp. reflexivity.
Qed.

Lemma grows_processListFrom env isOrdered level items i m :
  grows m (processListFrom env isOrdered level items i m).
Proof.
  revert i m. induction items as [|item more IH]; intros i m;
    [apply grows_refl|].
  cbn [processListFrom].
  destruct item as [n|lv cs|cs|cs|ordered its|children|cs| |cs|cs];
    try apply IH.
  eapply grows_trans;
    [apply (proj1 (grows_list env (BlkListItem children)))|apply IH].
Qed.

Lemma flat_list env isOrdered level items i m :
  forallb flatItem items = true →
  0 <= i → i + Z.of_nat (length items) < 2 ^ 63 →
  let m' := processListFrom env isOrdered level items i m in
  elementsOf m' =
    elementsOf m ++
    map ElemParagraph (seq (Machine.next m) (length items)) ∧
  Machine.next m' = (Machine.next m + length items)%nat ∧
  ∀ j, (j < length items)%nat →
       head (Paragraph.Children
               (Machine.store m' (Machine.next m + j)%nat)) =
       Some (markerRun isOrdered (i + Z.of_nat j)).
Proof.
  revert i m. induction items as [|item more IH]; intros i m Hflat Hi Hlen m';
    subst m'.
  { cbn. rewrite app_nil_r. split; [done|]. split; [lia|]. intros j Hj. lia. }
  cbn [forallb] in Hflat. apply andb_true_iff in Hflat as [Hitem Hmore].
  cbn [length] in Hlen.
  destruct (flat_item env item isOrdered i level m Hitem) as (He & Hn & Hh).
  assert (processListFrom env isOrdered level (item :: more) i m =
          processListFrom env isOrdered level more (int_wrap (i + 1))
            (processListItem env item isOrdered i level m)) as ->.
  { destruct item; try discriminate Hitem. reflexivity. }
  rewrite int_wrap_small by lia.
  set (m1 := processListItem env item isOrdered i level m) in *.
  destruct (IH (i + 1) m1 Hmore) as (He' & Hn' & Hh'); [lia|lia|].
  split; [|split].
  - rewrite He', He, Hn. cbn [length seq map]. by rewrite <- app_assoc.
  - rewrite Hn', Hn. cbn [length]. lia.
  - intros j Hj. destruct j as [|j].
    + destruct (grows_processListFrom env isOrdered level more (i + 1) m1)
        as [(_ & _ & Hkeep) _].
      rewrite Nat.add_0_r, Hkeep by lia. rewrite Hh. do 2 f_equal. lia.
    + cbn [length] in Hj. specialize (Hh' j ltac:(lia)).
      rewrite Hn in Hh'.
      replace (Machine.next m + S j)%nat with (S (Machine.next m) + j)%nat
        by lia.
      rewrite Hh'. do 2 f_equal. lia.
Qed.

(** X19: the items of a list are numbered from 1 in their order.  For a
    list whose items hold no list, [processList] adds one paragraph per
    item, in the order of the items and at consecutive new addresses; the
    paragraph of the item at position [j] (from 0) begins with the bold
    run of the number [j + 1] followed by a full stop and a space in an
    ordered list, and of the bullet in an unordered one. *)
Theorem X19_items_are_numbered_from_one (env : Env) (isOrdered : bool)
  (items : list Block) (level : Z) (m : Machine.t) :
  forallb flatItem items = true →
  Z.of_nat (length items) < 2 ^ 62 →
  let m' := processList env (BlkList isOrdered items) level m in
  elementsOf m' =
    elementsOf m ++
    map ElemParagraph (seq (Machine.next m) (length items)) ∧
  ∀ j, (j < length items)%nat →
       head (Paragraph.Children
               (Machine.store m' (Machine.next m + j)%nat)) =
       Some (markerRun isOrdered (Z.of_nat j + 1)).
Proof.
  intros Hflat Hlen m'. subst m'. cbn [processList].
  destruct (flat_list env isOrdered level items 1 m Hflat)
    as (He & _ & Hh); [lia|lia|].
  split; [exact He|]. intros j Hj. rewrite (Hh j Hj). do 2 f_equal. lia.
Qed.

Lemma X19_items_are_numbered_from_one_witness :
  head (Paragraph.Children
          (Machine.store
             (processList offlineEnv
                (BlkList true
                   [BlkListItem [BlkParagraph [BlkInline (AstText "a")]];
                    BlkListItem [BlkParagraph [BlkInline (AstText "b")]]])
                0 (newMachine sampleConfig))
             1%nat)) =
  Some (markerRun true 2).
Proof.
  apply (proj2 (X19_items_are_numbered_from_one offlineEnv true
                  [BlkListItem [BlkParagraph [BlkInline (AstText "a")]];
                   BlkListItem [BlkParagraph [BlkInline (AstText "b")]]]
                  0 (newMachine sampleConfig) eq_refl eq_refl) 1%nat).
  cbn. lia.
Defined.

(** *** Tables *)

Lemma tableCellsOf_shape env cells r m :
  ∃ new,
    TableRow.Cells (tableCellsOf env cells r m).1 =
      TableRow.Cells r ++ new ∧
    TableRow.IsHeader (tableCellsOf env cells r m).1 = TableRow.IsHeader r ∧
    length new = length cells ∧
    Forall (fun cell => ∃ l, cell = TableCell.mk [l] 0 "" "" "") new.
Proof.
  revert r m. induction cells as [|cell rest IH]; intros r m.
  { exists []. rewrite app_nil_r. by repeat split. }
  cbn [tableCellsOf].
  destruct (inlineInto env cell _ m) as [p m1]. cbn [allocParagraph].
  match goal with
  | |- context [tableCellsOf env rest ?r2 ?m2] =>
      destruct (IH r2 m2) as (new & Hc & Hh & Hl & Hall)
  end.
  cbn [TableRow.Cells TableRow.IsHeader] in Hc, Hh.
  exists (TableCell_AddParagraph (Machine.next m1) newCell :: new).
  rewrite Hc, Hh, <- app_assoc. split; [done|]. split; [done|].
  split; [by cbn; rewrite Hl|].
  apply Forall_cons. split; [by eexists|done].
Qed.

Lemma tableRowsOf_shape env rows t m :
  ∃ new,
    Table.Rows (tableRowsOf env rows t m).1 = Table.Rows t ++ new ∧
    Table.ColWidths (tableRowsOf env rows t m).1 = Table.ColWidths t ∧
    Table.HasBorders (tableRowsOf env rows t m).1 = Table.HasBorders t ∧
    map (fun r => length (TableRow.Cells r)) new =
      map (fun row => length (blockChildren row)) rows ∧
    Forall (fun r => TableRow.IsHeader r = false ∧
                     Forall (fun cell => ∃ l, cell = TableCell.mk [l] 0 "" "" "")
                            (TableRow.Cells r)) new.
Proof.
  revert t m. induction rows as [|row rest IH]; intros t m.
  { exists []. rewrite app_nil_r. by repeat split. }
  cbn [tableRowsOf].
  destruct (tableCellsOf_shape env (blockChildren row) (TableRow.mk [] false)
              m) as (cells & Hc & Hh & Hl & Hall).
  destruct (tableCellsOf env _ _ m) as [r m1]. cbn [fst snd] in *.
  match goal with
  | |- context [tableRowsOf env rest ?t2 m1] =>
      destruct (IH t2 m1) as (new & Hr & Hw & Hb & Hlen & Hrows)
  end.
  cbn [Table.Rows Table.ColWidths Table.HasBorders] in Hr, Hw, Hb.
  exists (r :: new). rewrite Hr, Hw, Hb, <- app_assoc.
  split; [done|]. split; [done|]. split; [done|]. split.
  - cbn [TableRow.Cells app] in Hc. cbn [map]. by rewrite Hlen, Hc, Hl.
  - cbn [TableRow.Cells TableRow.IsHeader app] in Hc, Hh.
    apply Forall_cons. split; [|done]. split; [done|]. by rewrite Hc.
Qed.

(** X20: [processTable] adds one element, a table with borders and no
    column widths that has a row for every child of the table node and,
    in each row, a cell for every child of the row.  No row is a header
    row, the first included; every cell holds exactly one paragraph and
    has no width, alignment or shading.  Rendering such a table therefore
    changes no paragraph. *)
Theorem X20_table_has_plain_cells_and_no_header (env : Env) (node : Block)
  (m : Machine.t) :
  ∃ t,
    elementsOf (processTable env node m) = elementsOf m ++ [ElemTable t] ∧
    Table.HasBorders t = true ∧ Table.ColWidths t = [] ∧
    map (fun r => length (TableRow.Cells r)) (Table.Rows t) =
      map (fun row => length (blockChildren row)) (blockChildren node) ∧
    Forall (fun r => TableRow.IsHeader r = false) (Table.Rows t) ∧
    Forall (fun cell => ∃ l, cell = TableCell.mk [l] 0 "" "" "")
           (tableCells t) ∧
    ∀ h, (Table_ToXML t h).2 = h.
Proof.
  unfold processTable.
  destruct (tableRowsOf_shape env (blockChildren node)
              (Table.mk (Table.Rows NewTable) (Table.ColWidths NewTable)
                        true) m) as (rows & Hr & Hw & Hb & Hlen & Hrows).
  destruct (tableRowsOf_spec env (blockChildren node)
              (Table.mk (Table.Rows NewTable) (Table.ColWidths NewTable)
                        true) m) as (_ & He & _).
  destruct (tableRowsOf env _ _ m) as [t m1]. cbn [fst snd] in *.
  cbn in Hr. exists t.
  assert (Forall (fun cell => ∃ l, cell = TableCell.mk [l] 0 "" "" "")
                 (tableCells t)) as Hcells.
  { unfold tableCells. rewrite Hr. clear -Hrows.
    induction Hrows as [|r rows [_ Hc] _ IH]; [done|].
    cbn [map concat]. by apply Forall_app. }
  split; [by unfold elementsOf in *; cbn; rewrite He|].
  split; [done|]. split; [done|]. split; [by rewrite Hr|].
  split; [rewrite Hr; eapply Forall_impl; [exact Hrows|]; by intros r [? _]|].
  split; [done|]. intros h. apply Table_ToXML_inert.
  intros cell l Hc _ Ha. rewrite Forall_forall in Hcells.
  destruct (Hcells cell Hc) as [l' ->]. done.
Qed.

(** *** Headings *)




(* ===================================================================== *)
(** ** The code highlighter                                               *)
(* ===================================================================== *)

Lemma splitOn_nonempty sep s : splitOn sep s ≠ [].
Proof.
  induction s as [|c s IH]; [done|]. cbn [splitOn].
  destruct (Ascii.eqb c sep); [done|]. by destruct (splitOn sep s).
Qed.

Lemma joinLines_nil_r a : joinLines a [] = a.
Proof.
  induction a as [|x a IH]; [done|]. cbn [joinLines].
  destruct a as [|y a]; [done|]. by rewrite IH.
Qed.

Lemma joinLines_snoc a0 x y ys :
  joinLines (a0 ++ [x]) (y :: ys) = a0 ++ (x +:+ y) :: ys.
Proof.
  induction a0 as [|z a0 IH]; [done|].
  change ((z :: a0) ++ [x]) with (z :: (a0 ++ [x])).
  cbn [joinLines]. rewrite IH. by destruct a0.
Qed.

Lemma snoc_of_nonempty {A} (l : list A) : l ≠ [] → ∃ l0 x, l = l0 ++ [x].
Proof.
  intros H. destruct l as [|a l] using rev_ind; [done|]. by eexists _, _.
Qed.

Lemma splitOn_app sep s t :
  splitOn sep (s +:+ t) = joinLines (splitOn sep s) (splitOn sep t).
Proof.
  induction s as [|c s IH].
  - change ("" +:+ t) with t. cbn [splitOn joinLines].
    pose proof (splitOn_nonempty sep t). by destruct (splitOn sep t).
  - rewrite sapp_cons. cbn [splitOn]. rewrite IH.
    pose proof (splitOn_nonempty sep s) as Hs.
    pose proof (splitOn_nonempty sep t) as Ht.
    destruct (Ascii.eqb c sep).
    + destruct (splitOn sep s) as [|l ls]; [done|]. reflexivity.
    + destruct (splitOn sep s) as [|l ls]; [done|].
      destruct (splitOn sep t) as [|y ys]; [done|].
      destruct ls as [|l2 ls]; reflexivity.
Qed.

Lemma splitOn_no_sep sep s :
  Forall (fun l => allChars (fun c => negb (Ascii.eqb c sep)) l = true)
         (splitOn sep s).
Proof.
  induction s as [|c s IH]; [by repeat constructor|].
  cbn [splitOn]. destruct (Ascii.eqb c sep) eqn:E.
  - by apply Forall_cons.
  - destruct (splitOn sep s) as [|l ls].
    + apply Forall_cons. split; [|done]. cbn. by rewrite E.
    + apply Forall_cons in IH as [Hl Hls]. apply Forall_cons.
      split; [|done]. cbn. by rewrite E, Hl.
Qed.

Lemma paragraphText_appendChild c p :
  paragraphText (Paragraph_appendChild c p) =
  paragraphText p +:+ childText c.
Proof.
  unfold paragraphText, Paragraph_appendChild. cbn [Paragraph.Children
    Paragraph.setChildren]. rewrite map_app.
  induction (map childText (Paragraph.Children p)) as [|x xs IH].
  - cbn. by rewrite sapp_nil_r.
  - cbn [app sconcat]. by rewrite IH, sapp_assoc.
Qed.

Lemma tokenRun_fields fontName fontSize tok lineText :
  Run.Text (tokenRun fontName fontSize tok lineText) = lineText ∧
  Run.FontName (tokenRun fontName fontSize tok lineText) = fontName ∧
  Run.FontSize (tokenRun fontName fontSize tok lineText) = fontSize ∧
  Run.IsImage (tokenRun fontName fontSize tok lineText) = false.
Proof.
  unfold tokenRun.
  destruct (Token.Colour tok), (Token.Bold tok), (Token.Italic tok);
    by repeat split.
Qed.

Lemma sameBelow_refl n0 m : sameBelow n0 m m.
Proof. by split. Qed.

Lemma sameBelow_trans n0 m1 m2 m3 :
  sameBelow n0 m1 m2 → sameBelow n0 m2 m3 → sameBelow n0 m1 m3.
Proof.
  intros [C1 S1] [C2 S2]. split; [congruence|].
  intros l Hl. rewrite S2 by done. by apply S1.
Qed.

(** A new line: a new paragraph in the cell. *)
Lemma highlighting_newline fontName fontSize lineSpacing lineHeight before n0 lines cell p m :
  highlighting fontName fontSize lineSpacing lineHeight before n0 lines cell p m →
  let m' := (allocParagraph (codeParagraph lineSpacing lineHeight) m).2 in
  highlighting fontName fontSize lineSpacing lineHeight before n0
    (lines ++ [""]) (TableCell_AddParagraph (Machine.next m) cell)
      (Machine.next m) m' ∧
  sameBelow n0 m m'.
Proof.
  intros (Hne & Hc & Hp & Hn & Hmap & Hall) m'. subst m'.
  cbn [allocParagraph snd]. split; [|split; [done|]].
  - split; [by destruct lines|]. rewrite length_app, Nat.add_1_r, seq_S.
    split; [cbn; by rewrite Hc, Hn, <- app_assoc|].
    split; [lia|]. split; [cbn; lia|]. split.
    + rewrite map_app. cbn [map Machine.store]. rewrite <- Hn, heap_set_eq.
      f_equal. rewrite <- Hmap at 2. apply map_ext_in. intros l Hl.
      apply in_seq in Hl. rewrite heap_set_ne by lia. done.
    + intros l Hl. cbn [Machine.store].
      destruct (decide (l = Machine.next m)) as [->|Hne'].
      * rewrite heap_set_eq. split; [by constructor|done].
      * rewrite heap_set_ne by done. apply Hall. lia.
  - intros l Hl. cbn. apply heap_set_ne. lia.
Qed.

(** A piece of a line: a run in the paragraph [p] points to. *)
Lemma highlighting_append fontName fontSize lineSpacing lineHeight before n0 a0 x tok
  lineText cell p m :
  highlighting fontName fontSize lineSpacing lineHeight before n0
    (a0 ++ [x]) cell p m →
  allChars notNewline lineText = true →
  let m' := if nonEmpty lineText
            then appendChildAt p
                   (ChildRun (tokenRun fontName fontSize tok lineText)) m
            else m in
  highlighting fontName fontSize lineSpacing lineHeight before n0
    (a0 ++ [x +:+ lineText]) cell p m' ∧ sameBelow n0 m m'.
Proof.
  intros (Hne & Hc & Hp & Hn & Hmap & Hall) Hline m'. subst m'.
  rewrite length_app, Nat.add_1_r in *. rewrite seq_S, map_app in Hmap.
  apply app_inj_2 in Hmap as [Hmap0 Hlast]; [|done].
  cbn [map] in Hlast. injection Hlast as Hlast.
  assert (p = n0 + length a0)%nat as -> by lia.
  destruct (nonEmpty lineText) eqn:El.
  - apply nonEmpty_true in El.
    destruct (tokenRun_fields fontName fontSize tok lineText)
      as (Ht & Hf & Hs & Hi).
    split; [|split; [done|]].
    + split; [by destruct a0|]. rewrite length_app, Nat.add_1_r.
      split; [done|]. split; [lia|]. split; [cbn; lia|]. rewrite seq_S.
      split.
      * rewrite map_app. cbn [map appendChildAt Machine.store].
        rewrite heap_set_eq, paragraphText_appendChild, Hlast.
        cbn [childText]. rewrite Ht. f_equal.
        rewrite <- Hmap0 at 2. apply map_ext_in. intros l Hl.
        apply in_seq in Hl. rewrite heap_set_ne by lia. done.
      * intros l Hl. cbn [appendChildAt Machine.store].
        destruct (decide (l = n0 + length a0)%nat) as [->|Hne'].
        -- rewrite heap_set_eq. destruct (Hall (n0 + length a0)%nat)
             as [Hruns Hpar]; [lia|].
           split; [|exact Hpar].
           cbn [Paragraph_appendChild Paragraph.setChildren
                Paragraph.Children].
           apply Forall_app. split; [done|]. apply Forall_singleton.
           eexists. split; [done|]. by rewrite Ht, Hf, Hs, Hi.
        -- rewrite heap_set_ne by done. apply Hall. lia.
    + intros l Hl. cbn. apply heap_set_ne. lia.
  - apply nonEmpty_false in El as ->. rewrite sapp_nil_r.
    split; [|apply sameBelow_refl].
    split; [done|]. rewrite length_app, Nat.add_1_r.
    split; [done|]. split; [lia|]. split; [done|]. rewrite seq_S, map_app.
    split.
    + cbn [map]. by rewrite Hmap0, Hlast.
    + intros l Hl. apply Hall. lia.
Qed.

Lemma tokenLines_spec fontName fontSize lineSpacing lineHeight before n0 tok ls i
  lines cell p m :
  highlighting fontName fontSize lineSpacing lineHeight before n0 lines cell p m →
  Forall (fun l => allChars notNewline l = true) ls →
  let r := tokenLines fontName fontSize lineSpacing lineHeight tok ls i
                      cell p m in
  highlighting fontName fontSize lineSpacing lineHeight before n0
    (if (0 <? i)%nat then lines ++ ls else joinLines lines ls)
      r.1.1 r.1.2 r.2 ∧
  sameBelow n0 m r.2.
Proof.
  revert i lines cell p m.
  induction ls as [|l0 rest IH]; intros i lines cell p m Hinv Hls r; subst r.
  { cbn [tokenLines fst snd]. rewrite app_nil_r, joinLines_nil_r.
    split; [by destruct (0 <? i)%nat|apply sameBelow_refl]. }
  apply Forall_cons in Hls as [Hl0 Hrest]. cbn [tokenLines].
  destruct (0 <? i)%nat eqn:Ei.
  - cbn [allocParagraph].
    destruct (highlighting_newline _ _ _ _ _ _ lines cell p m Hinv) as [H1 S1].
    cbn [allocParagraph snd] in H1, S1.
    destruct (highlighting_append _ _ _ _ _ _ lines "" tok l0 _ _ _ H1 Hl0)
      as [H2 S2].
    change ("" +:+ l0) with l0 in H2.
    destruct (IH (S i) _ _ _ _ H2 Hrest) as [H3 S3].
    cbn [Nat.ltb Nat.leb] in H3. rewrite <- app_assoc in H3.
    split; [exact H3|].
    eapply sameBelow_trans; [exact S1|].
    eapply sameBelow_trans; [exact S2|exact S3].
  - destruct (snoc_of_nonempty lines) as (a0 & x & ->);
      [by destruct Hinv|].
    destruct (highlighting_append _ _ _ _ _ _ a0 x tok l0 _ _ _ Hinv Hl0)
      as [H2 S2].
    destruct (IH (S i) _ _ _ _ H2 Hrest) as [H3 S3].
    cbn [Nat.ltb Nat.leb] in H3. rewrite <- app_assoc in H3.
    rewrite joinLines_snoc. split; [exact H3|].
    eapply sameBelow_trans; [exact S2|exact S3].
Qed.

Lemma tokensLoop_spec fontName fontSize lineSpacing lineHeight before n0 tokens text
  cell p m :
  highlighting fontName fontSize lineSpacing lineHeight before n0
    (Split_newline text) cell p m →
  let r := tokensLoop fontName fontSize lineSpacing lineHeight tokens
                      cell p m in
  highlighting fontName fontSize lineSpacing lineHeight before n0
    (Split_newline (text +:+ sconcat (map Token.Value tokens)))
      r.1.1 r.1.2 r.2 ∧
  sameBelow n0 m r.2.
Proof.
  revert text cell p m.
  induction tokens as [|tok rest IH]; intros text cell p m Hinv r; subst r.
  { cbn [tokensLoop map sconcat fst snd]. rewrite sapp_nil_r.
    split; [done|apply sameBelow_refl]. }
  cbn [tokensLoop map sconcat].
  destruct (tokenLines_spec _ _ _ _ _ _ tok
              (Split_newline (Token.Value tok)) 0 _ _ _ _
              Hinv (splitOn_no_sep newline (Token.Value tok))) as [H1 S1].
  cbn [Nat.ltb Nat.leb] in H1.
  unfold Split_newline in H1 at 1 2. rewrite <- splitOn_app in H1.
  destruct (tokenLines _ _ _ _ tok _ 0 cell p m) as [[cell1 p1] m1].
  cbn [fst snd] in *.
  destruct (IH (text +:+ Token.Value tok) cell1 p1 m1 H1) as [H2 S2].
  rewrite sapp_assoc in H2. split; [exact H2|].
  eapply sameBelow_trans; [exact S1|exact S2].
Qed.

(** X22: the highlighter keeps the code, line by line.  When the lexer
    gives tokens, [HighlightCodeNative] returns no error and appends to
    the cell one new paragraph for every line of the text the tokens
    spell, in order; the text of each paragraph is its line; every run is
    a non-empty piece of a line without a line break, in the font and
    size asked for, and every paragraph has the spacing and line height
    asked for.  The paragraphs there were are left alone.  When the lexer
    fails, the error is returned. *)
Theorem X22_highlighter_keeps_code_line_by_line
  (Tokenise : string → string → option (list Token.t))
  (cell : TableCell.t) (code language fontName : string)
  (fontSize : float64) (lineSpacing lineHeight : Z) (m : Machine.t) :
  match Tokenise language code with
  | None =>
      HighlightCodeNative Tokenise cell code language fontName fontSize
                          lineSpacing lineHeight m = None
  | Some tokens =>
      ∃ cell' m',
        HighlightCodeNative Tokenise cell code language fontName fontSize
                            lineSpacing lineHeight m = Some (cell', m') ∧
        let lines := Split_newline (sconcat (map Token.Value tokens)) in
        let new := seq (Machine.next m) (length lines) in
        TableCell.Paragraphs cell' = TableCell.Paragraphs cell ++ new ∧
        Machine.next m' = (Machine.next m + length lines)%nat ∧
        map (fun l => paragraphText (Machine.store m' l)) new = lines ∧
        (∀ l, l ∈ new →
              Forall (codeRun fontName fontSize)
                     (Paragraph.Children (Machine.store m' l)) ∧
              Paragraph.setChildren [] (Machine.store m' l) =
                codeParagraph lineSpacing lineHeight) ∧
        keepsOld m m'
  end.
Proof.
  unfold HighlightCodeNative.
  destruct (Tokenise language code) as [tokens|]; [|done].
  cbn [allocParagraph].
  set (m1 := Machine.mk _ _ _).
  assert (highlighting fontName fontSize lineSpacing lineHeight
            (TableCell.Paragraphs cell) (Machine.next m)
            (Split_newline "")
            (TableCell_AddParagraph (Machine.next m) cell)
            (Machine.next m) m1) as Hinv.
  { subst m1. split; [done|]. cbn [Split_newline splitOn length seq].
    split; [done|]. split; [lia|]. split; [cbn; lia|]. split.
    - cbn [map Machine.store]. by rewrite heap_set_eq.
    - intros l Hl. assert (l = Machine.next m) as -> by lia.
      cbn [Machine.store]. rewrite heap_set_eq. by split; [constructor|]. }
  destruct (tokensLoop_spec fontName fontSize lineSpacing lineHeight
              (TableCell.Paragraphs cell) (Machine.next m) tokens ""
              _ _ _ Hinv) as [H [Hc Hs]].
  change ("" +:+ ?s) with s in H.
  destruct (tokensLoop _ _ _ _ tokens _ _ m1) as [[cell2 p2] m2].
  cbn [fst snd] in *. exists cell2, m2. split; [done|].
  destruct H as (_ & Hcell & _ & Hn & Hmap & Hall).
  split; [done|]. split; [done|]. split; [done|]. split.
  - intros l Hl. apply elem_of_seq in Hl. apply Hall. lia.
  - split; [by rewrite Hc|]. split; [lia|].
    intros l Hl. rewrite Hs by done. subst m1. cbn.
    apply heap_set_ne. lia.
Qed.

(* ===================================================================== *)
(** ** Body paragraphs                                                    *)
(* ===================================================================== *)



(* ===================================================================== *)
(** ** Two runs of the handlers                                            *)
(* ===================================================================== *)

(** The nested list of the sample: the paragraph of the inner item comes
    first, then the paragraph of the item that holds it. *)
Lemma nested_item_precedes_its_parent :
  let m' := processList offlineEnv nestedList 0 (newMachine sampleConfig) in
  elementsOf m' = map ElemParagraph [0; 1; 2]%nat ∧
  map (fun l => paragraphText (Machine.store m' l)) [0; 1; 2]%nat =
    [bulletText +:+ "b"; "1. a"; "2. c"] ∧
  map (fun l => Paragraph.Indent (Machine.store m' l)) [0; 1; 2]%nat =
    [720; 360; 360].
Proof. by vm_compute. Qed.

(** Two lines of code in one token: two paragraphs. *)
Lemma highlighter_two_lines :
  ∃ cell' m',
    HighlightCodeNative oneToken newCell ("x = 1" +:+ String newline "y")
      "go" "Consolas" (19 # 2) 0 240 (newMachine sampleConfig) =
      Some (cell', m') ∧
    TableCell.Paragraphs cell' = [0; 1]%nat ∧
    map (fun l => paragraphText (Machine.store m' l)) [0; 1]%nat =
      ["x = 1"; "y"].
Proof. eexists _, _. split; [reflexivity|]. by vm_compute. Qed.
